(** * The IDA_Solver adapter of Cantera (src/numerics/IDA_Solver.cpp)

    A shallow embedding of the adapter that drives the SUNDIALS IDAS engine:
    the C callbacks [ida_resid] and [ida_quad_rhs], the configuration
    setters, [init], [step], [solve] and [sensitivity].

    - a [double] / [realtype] is a binary64 primitive float;
    - an [N_Vector] is a nullable pointer to serial data: [option (list realtype)];
    - the IDAS engine is opaque: every call made to it is appended to a log
      and answered by an oracle that sees the calls made so far;
    - the residual provider ([ResidJacEval]) is an interface record;
    - a member function is an action over the object, the engine log and the
      standard output; [throw] keeps the mutations done before it, as a C++
      exception does.

    The preprocessor branches are those of CT_SUNDIALS_VERSION < 30. *)

From Stdlib Require Import ZArith List String Ascii Bool Lia Floats DecimalString.
Import ListNotations.

Set Warnings "-inexact-float".

(** ** Scalars, vectors and the constants of the engine's headers *)

(** The typedefs [realtype] and [doublereal] of [double]. *)
Abbreviation realtype := float (only parsing).
Abbreviation doublereal := float (only parsing).

(** A serial N_Vector: the null pointer, or its data array. *)
Definition N_Vector := option (list realtype).

(** The array of sensitivity vectors, [N_Vector*]. *)
Definition N_Vector_array := option (list (list realtype)).

(** The engine's opaque handle ([void* m_ida_mem]). *)
Definition ida_mem_t := option nat.

(** [operator bool] of a pointer. *)
Definition non_null {A} (p : option A) : bool :=
  match p with Some _ => true | None => false end.

(** [operator bool] of a double: every value but the two zeros is true. *)
Definition double_to_bool (x : realtype) : bool := negb (PrimFloat.eqb x 0%float).

(** Conversion of an [int] to a [double]; exact on the whole [int] range. *)
Definition int_to_double (z : Z) : realtype :=
  if (z <? 0)%Z then PrimFloat.opp (PrimFloat.of_uint63 (Uint63.of_Z (- z)))
  else PrimFloat.of_uint63 (Uint63.of_Z z).

(** Conversion of a [long int] of 64 bits to a [double]: both halves of the
    magnitude convert exactly, and their sum is rounded once, to nearest. *)
Definition long_to_double (z : Z) : realtype :=
  let a := Z.abs z in
  let hi := PrimFloat.of_uint63 (Uint63.of_Z (a / 2 ^ 32)) in
  let lo := PrimFloat.of_uint63 (Uint63.of_Z (a mod 2 ^ 32)) in
  let m := (hi * 4294967296 + lo)%float in
  if (z <? 0)%Z then PrimFloat.opp m else m.

(** Status codes and mode tags of idas.h. *)
Definition IDA_SUCCESS : Z := 0%Z.
Definition IDA_TSTOP_RETURN : Z := 1%Z.
Definition IDA_ROOT_RETURN : Z := 2%Z.
Definition IDA_WARNING : Z := 99%Z.
Definition IDA_MEM_NULL : Z := (-20)%Z.
Definition IDA_MEM_FAIL : Z := (-21)%Z.
Definition IDA_ILL_INPUT : Z := (-22)%Z.
Definition IDA_NORMAL : Z := 1%Z.
Definition IDA_ONE_STEP : Z := 2%Z.
Definition IDA_YA_YDP_INIT : Z := 1%Z.
Definition IDA_Y_INIT : Z := 2%Z.
Definition IDA_SS : Z := 1%Z.
Definition IDA_SV : Z := 2%Z.
Definition IDA_STAGGERED : Z := 2%Z.

(** Modelled from the spec: the header that declares the constraint tags
    (none / >=0 / >0 / <=0 / <0) is missing; the values are the ones the
    engine's constraint vector uses for these five meanings. *)
Definition c_NONE : Z := 0%Z.
Definition c_GE_ZERO : Z := 1%Z.
Definition c_GT_ZERO : Z := 2%Z.
Definition c_LE_ZERO : Z := (-1)%Z.
Definition c_LT_ZERO : Z := (-2)%Z.

(** Modelled from the spec: the header that defines [checkFlag] is missing; a
    tag is valid when it is one of the five tags, which is also the body the
    source file keeps in a comment. *)
Definition checkFlag (constraintFlag : Z) : bool :=
  let cflag := constraintFlag in
  (cflag =? c_NONE)%Z || (cflag =? c_GE_ZERO)%Z || (cflag =? c_GT_ZERO)%Z ||
  (cflag =? c_LE_ZERO)%Z || (cflag =? c_LT_ZERO)%Z.

(** [REAL_WORKSPACE_SIZE] of the solver's header; only its identity matters. *)
Definition REAL_WORKSPACE_SIZE : Z := 0%Z.

(** ** Array cells *)

(** [NV_Ith_S(v, i) = x]: a write inside the array; a write past its end is
    undefined in the source and leaves the model's array as it is. *)
Fixpoint NV_set {A} (v : list A) (i : nat) (x : A) : list A :=
  match v, i with
  | [], _ => []
  | _ :: tl, O => x :: tl
  | hd :: tl, S j => hd :: NV_set tl j x
  end.

(** [N_VConst(c, v)]: every cell of [v] becomes [c]. *)
Definition N_VConst (c : realtype) (v : list realtype) : list realtype :=
  map (fun _ => c) v.

(** [NV_Ith_S(v, i)] as an rvalue; [None] past the end (undefined in the source). *)
Definition NV_Ith_S (v : list realtype) (i : nat) : option realtype := nth_error v i.

(** ** The residual provider *)

(** What the adapter consumes of [ResidJacEval]: buffers go in as lists and
    the written buffer comes back with the status; [constraint i] is the
    integer tag of equation [i]. *)
Record ResidJacEval : Type := {
  evalResidNJ : realtype -> realtype -> list realtype -> list realtype ->
                list realtype -> Z * list realtype;
  evalQuadRhs : realtype -> list realtype -> list realtype ->
                list realtype -> Z * list realtype;
  getInitialConditions : realtype -> list realtype -> list realtype ->
                         list realtype * list realtype;
  nparams : nat;
  m_sens_params : list realtype;
  m_paramScales : list realtype;
  nConstraints : nat;
  constraint : nat -> Z;
  nQuadEquations : nat
}.

(** ** The engine *)

(** The calls the adapter makes, with the arguments it passes. *)
Inductive ida_call : Type :=
| IDACreate
| IDAFree (mem : ida_mem_t)
| IDAInit (mem : ida_mem_t) (t0 : realtype) (yy yp : N_Vector)
| IDASVtolerances (mem : ida_mem_t) (reltol : realtype) (abstol : N_Vector)
| IDASStolerances (mem : ida_mem_t) (reltol abstol : realtype)
| IDADense (mem : ida_mem_t) (N : Z)
| IDABand (mem : ida_mem_t) (N mupper mlower : Z)
| IDADlsSetDenseJacFn (mem : ida_mem_t)
| IDASetUserData (mem : ida_mem_t)
| IDASensInit (mem : ida_mem_t) (Ns : nat) (ism : Z) (yS0 ypS0 : N_Vector_array)
| IDASensSStolerances (mem : ida_mem_t) (reltolS : realtype) (abstolS : list realtype)
| IDASetSensParams (mem : ida_mem_t) (p pbar : list realtype)
| IDASetMaxOrd (mem : ida_mem_t) (maxord : Z)
| IDASetMaxNumSteps (mem : ida_mem_t) (mxsteps : Z)
| IDASetInitStep (mem : ida_mem_t) (hin : realtype)
| IDASetStopTime (mem : ida_mem_t) (tstop : realtype)
| IDASetMaxErrTestFails (mem : ida_mem_t) (maxnef : Z)
| IDASetMaxNonlinIters (mem : ida_mem_t) (maxcor : Z)
| IDASetMaxConvFails (mem : ida_mem_t) (maxncf : Z)
| IDASetSuppressAlg (mem : ida_mem_t) (suppressalg : Z)
| IDASetConstraints (mem : ida_mem_t) (constraints : N_Vector)
| IDAQuadInit (mem : ida_mem_t) (yQ0 : N_Vector)
| IDACalcIC (mem : ida_mem_t) (icopt : Z) (tout1 : realtype)
| IDAGetConsistentIC (mem : ida_mem_t) (yy0 yp0 : N_Vector)
| IDASolve (mem : ida_mem_t) (tout : realtype) (yret ypret : N_Vector) (itask : Z)
| IDAGetQuad (mem : ida_mem_t) (yQout : N_Vector)
| IDAGetSensConsistentIC (mem : ida_mem_t) (yyS0 ypS0 : N_Vector_array)
| IDAGetSens (mem : ida_mem_t) (yySout : N_Vector_array)
| IDAGetWorkSpace (mem : ida_mem_t)
| IDAGetCurrentStep (mem : ida_mem_t).

(** What a call hands back: the [int] it returns and what it leaves in its
    out-parameters (the data it writes into the vectors it was given). *)
Record ida_reply : Type := {
  r_flag : Z;
  r_mem : ida_mem_t;
  r_t : realtype;
  r_yy : list realtype;
  r_yp : list realtype;
  r_yyS : list (list realtype);
  r_ypS : list (list realtype);
  r_lenrw : Z
}.

(** One logged call with the status it returned. *)
Definition ida_event : Type := ida_call * Z.

(** The engine answers a call knowing the calls answered before it. *)
Definition IDA : Type := list ida_event -> ida_call -> ida_reply.

(** ** The object *)

(** The data members of [IDA_Solver], with those it inherits ([m_neq], [m_ns]). *)
Record IDA_Solver : Type := {
  m_neq : nat;
  m_ns : nat;
  m_ida_mem : ida_mem_t;
  m_t0 : doublereal;
  m_y : N_Vector;
  m_ydot : N_Vector;
  m_id : N_Vector;
  m_constraints : N_Vector;
  m_abstol : N_Vector;
  m_type : Z;
  m_itol : Z;
  m_iter : Z;
  m_reltol : doublereal;
  m_abstols : doublereal;
  m_reltolsens : doublereal;
  m_abstolsens : doublereal;
  m_nabs : Z;
  m_hmax : doublereal;
  m_hmin : doublereal;
  m_h0 : doublereal;
  m_maxsteps : Z;
  m_maxord : Z;
  m_formJac : Z;
  m_tstop : doublereal;
  m_told_old : doublereal;
  m_told : doublereal;
  m_tcurrent : doublereal;
  m_deltat : doublereal;
  m_maxErrTestFails : Z;
  m_maxNonlinIters : Z;
  m_maxNonlinConvFails : Z;
  m_setSuppressAlg : Z;
  m_mupper : Z;
  m_mlower : Z;
  m_yS : N_Vector_array;
  m_ySdot : N_Vector_array;
  m_sens_ok : bool;
  m_yQ : N_Vector;
  m_yQdot : N_Vector;
  m_reltolQuad : doublereal;
  m_abstolQuad : doublereal;
  m_fdata : bool
}.

(** The object rebuilt from its own fields; the setters below replace one
    field of this expansion. *)
Definition eta (s : IDA_Solver) : IDA_Solver :=
  Build_IDA_Solver (m_neq s) (m_ns s) (m_ida_mem s) (m_t0 s) (m_y s) (m_ydot s)
    (m_id s) (m_constraints s) (m_abstol s) (m_type s) (m_itol s) (m_iter s)
    (m_reltol s) (m_abstols s) (m_reltolsens s) (m_abstolsens s) (m_nabs s)
    (m_hmax s) (m_hmin s) (m_h0 s) (m_maxsteps s) (m_maxord s) (m_formJac s)
    (m_tstop s) (m_told_old s) (m_told s) (m_tcurrent s) (m_deltat s)
    (m_maxErrTestFails s) (m_maxNonlinIters s) (m_maxNonlinConvFails s)
    (m_setSuppressAlg s) (m_mupper s) (m_mlower s) (m_yS s) (m_ySdot s)
    (m_sens_ok s) (m_yQ s) (m_yQdot s) (m_reltolQuad s) (m_abstolQuad s)
    (m_fdata s).

(** [assign proj]: the function [fun v s => s with proj := v]. *)
Ltac assign proj :=
  let v := fresh "v" in
  let s := fresh "s" in
  intros v s;
  let e := eval cbv beta delta [eta] in (eta s) in
  match eval pattern (proj s) in e with
  | ?f _ => exact (f v)
  end.

Definition set_m_ida_mem : ida_mem_t -> IDA_Solver -> IDA_Solver.
Proof. assign m_ida_mem. Defined.
Definition set_m_t0 : doublereal -> IDA_Solver -> IDA_Solver.
Proof. assign m_t0. Defined.
Definition set_m_y : N_Vector -> IDA_Solver -> IDA_Solver.
Proof. assign m_y. Defined.
Definition set_m_ydot : N_Vector -> IDA_Solver -> IDA_Solver.
Proof. assign m_ydot. Defined.
Definition set_m_id : N_Vector -> IDA_Solver -> IDA_Solver.
Proof. assign m_id. Defined.
Definition set_m_constraints : N_Vector -> IDA_Solver -> IDA_Solver.
Proof. assign m_constraints. Defined.
Definition set_m_abstol : N_Vector -> IDA_Solver -> IDA_Solver.
Proof. assign m_abstol. Defined.
Definition set_m_type : Z -> IDA_Solver -> IDA_Solver.
Proof. assign m_type. Defined.
Definition set_m_itol : Z -> IDA_Solver -> IDA_Solver.
Proof. assign m_itol. Defined.
Definition set_m_reltol : doublereal -> IDA_Solver -> IDA_Solver.
Proof. assign m_reltol. Defined.
Definition set_m_abstols : doublereal -> IDA_Solver -> IDA_Solver.
Proof. assign m_abstols. Defined.
Definition set_m_reltolsens : doublereal -> IDA_Solver -> IDA_Solver.
Proof. assign m_reltolsens. Defined.
Definition set_m_abstolsens : doublereal -> IDA_Solver -> IDA_Solver.
Proof. assign m_abstolsens. Defined.
Definition set_m_h0 : doublereal -> IDA_Solver -> IDA_Solver.
Proof. assign m_h0. Defined.
Definition set_m_maxsteps : Z -> IDA_Solver -> IDA_Solver.
Proof. assign m_maxsteps. Defined.
Definition set_m_maxord : Z -> IDA_Solver -> IDA_Solver.
Proof. assign m_maxord. Defined.
Definition set_m_formJac : Z -> IDA_Solver -> IDA_Solver.
Proof. assign m_formJac. Defined.
Definition set_m_tstop : doublereal -> IDA_Solver -> IDA_Solver.
Proof. assign m_tstop. Defined.
Definition set_m_told_old : doublereal -> IDA_Solver -> IDA_Solver.
Proof. assign m_told_old. Defined.
Definition set_m_told : doublereal -> IDA_Solver -> IDA_Solver.
Proof. assign m_told. Defined.
Definition set_m_tcurrent : doublereal -> IDA_Solver -> IDA_Solver.
Proof. assign m_tcurrent. Defined.
Definition set_m_deltat : doublereal -> IDA_Solver -> IDA_Solver.
Proof. assign m_deltat. Defined.
Definition set_m_maxErrTestFails : Z -> IDA_Solver -> IDA_Solver.
Proof. assign m_maxErrTestFails. Defined.
Definition set_m_maxNonlinIters : Z -> IDA_Solver -> IDA_Solver.
Proof. assign m_maxNonlinIters. Defined.
Definition set_m_maxNonlinConvFails : Z -> IDA_Solver -> IDA_Solver.
Proof. assign m_maxNonlinConvFails. Defined.
Definition set_m_setSuppressAlg : Z -> IDA_Solver -> IDA_Solver.
Proof. assign m_setSuppressAlg. Defined.
Definition set_m_mupper : Z -> IDA_Solver -> IDA_Solver.
Proof. assign m_mupper. Defined.
Definition set_m_mlower : Z -> IDA_Solver -> IDA_Solver.
Proof. assign m_mlower. Defined.
Definition set_m_yS : N_Vector_array -> IDA_Solver -> IDA_Solver.
Proof. assign m_yS. Defined.
Definition set_m_ySdot : N_Vector_array -> IDA_Solver -> IDA_Solver.
Proof. assign m_ySdot. Defined.
Definition set_m_sens_ok : bool -> IDA_Solver -> IDA_Solver.
Proof. assign m_sens_ok. Defined.
Definition set_m_yQ : N_Vector -> IDA_Solver -> IDA_Solver.
Proof. assign m_yQ. Defined.
Definition set_m_yQdot : N_Vector -> IDA_Solver -> IDA_Solver.
Proof. assign m_yQdot. Defined.
Definition set_m_fdata : bool -> IDA_Solver -> IDA_Solver.
Proof. assign m_fdata. Defined.

(** The constructor's member initialisers, for an equation and a parameter
    count taken from the provider by the base class. *)
Definition IDA_Solver_new (neq ns : nat) : IDA_Solver :=
  {| m_neq := neq; m_ns := ns;
     m_ida_mem := None; m_t0 := 0%float;
     m_y := None; m_ydot := None; m_id := None; m_constraints := None;
     m_abstol := None; m_type := 0%Z; m_itol := IDA_SS; m_iter := 0%Z;
     m_reltol := 1e-8%float; m_abstols := 1e-10%float;
     m_reltolsens := 1e-5%float; m_abstolsens := 1e-7%float;
     m_nabs := 0%Z; m_hmax := 0%float; m_hmin := 0%float; m_h0 := 0%float;
     m_maxsteps := 20000%Z; m_maxord := 0%Z; m_formJac := 0%Z; m_tstop := 0%float;
     m_told_old := 0%float; m_told := 0%float; m_tcurrent := 0%float;
     m_deltat := 0%float; m_maxErrTestFails := (-1)%Z; m_maxNonlinIters := 0%Z;
     m_maxNonlinConvFails := (-1)%Z; m_setSuppressAlg := 0%Z; m_mupper := 0%Z;
     m_mlower := 0%Z; m_yS := None; m_ySdot := None; m_sens_ok := false;
     m_yQ := None; m_yQdot := None; m_reltolQuad := 0%float;
     m_abstolQuad := 0%float; m_fdata := false |}.

(** ** Actions *)

(** A [CanteraError]: the procedure, the message and the values formatted
    into its [{}] places. *)
Record CanteraError : Type := {
  procedure : string;
  message : string;
  fmt_args : list Z
}.

Inductive result (A : Type) : Type :=
| Ok (a : A)
| Throw (e : CanteraError).
Arguments Ok {A} a.
Arguments Throw {A} e.

(** The object, the calls the engine has received and the text on [cout]. *)
Record World : Type := {
  self : IDA_Solver;
  ida_log : list ida_event;
  cout : list string
}.

Definition M (A : Type) : Type := World -> result A * World.

Definition ret {A} (a : A) : M A := fun w => (Ok a, w).

Definition bind {A B} (m : M A) (k : A -> M B) : M B :=
  fun w => match m w with
           | (Ok a, w') => k a w'
           | (Throw e, w') => (Throw e, w')
           end.

Definition throw {A} (proc msg : string) (args : list Z) : M A :=
  fun w => (Throw {| procedure := proc; message := msg; fmt_args := args |}, w).

Definition this : M IDA_Solver := fun w => (Ok (self w), w).

Definition modify (f : IDA_Solver -> IDA_Solver) : M unit :=
  fun w => (Ok tt, {| self := f (self w); ida_log := ida_log w; cout := cout w |}).

Definition print (text : string) : M unit :=
  fun w => (Ok tt, {| self := self w; ida_log := ida_log w; cout := cout w ++ [text] |}).

Declare Scope action_scope.
Delimit Scope action_scope with action.
Bind Scope action_scope with M.
Notation "x <- c ;; k" := (bind c (fun x => k))
  (at level 61, c at next level, right associativity) : action_scope.
Notation "c ;; k" := (bind c (fun _ => k))
  (at level 61, right associativity) : action_scope.
Open Scope action_scope.

Definition when (b : bool) (m : M unit) : M unit := if b then m else ret tt.

(** A [for] loop over the given indices; a [throw] in the body leaves it. *)
Fixpoint for_each {A} (l : list A) (body : A -> M unit) : M unit :=
  match l with
  | [] => ret tt
  | x :: tl => body x ;; for_each tl body
  end.

Definition endl : string := String (ascii_of_nat 10) EmptyString.
Definition show_int (z : Z) : string := NilZero.string_of_int (Z.to_int z).
Definition show_size_t (n : nat) : string := show_int (Z.of_nat n).

(** The constraints the engine holds after the logged calls: a new instance
    has none; a successful [IDASetConstraints] replaces them by a copy of
    its argument. *)
Definition ida_constraints_step (held : N_Vector) (ev : ida_event) : N_Vector :=
  match ev with
  | (IDACreate, _) => None
  | (IDASetConstraints _ c, flag) => if (flag =? IDA_SUCCESS)%Z then c else held
  | _ => held
  end.

Definition ida_constraints (log : list ida_event) : N_Vector :=
  fold_left ida_constraints_step log None.

(** The [IDASolve] calls among the logged ones. *)
Definition is_IDASolve (ev : ida_event) : bool :=
  match ev with (IDASolve _ _ _ _ _, _) => true | _ => false end.

Definition advances (log : list ida_event) : nat := List.length (filter is_IDASolve log).

(** The sensitivity fetches among the logged calls. *)
Definition is_sens_fetch (ev : ida_event) : bool :=
  match ev with
  | (IDAGetSensConsistentIC _ _ _, _) | (IDAGetSens _ _, _) => true
  | _ => false
  end.

Section Adapter.

(** The provider the adapter was constructed on ([m_resid]), the engine, and
    the value found in memory that was allocated and not yet written. *)
Variable m_resid : ResidJacEval.
Variable ida : IDA.
Variable indeterminate : realtype.

(** [N_VNew_Serial(n)]: [n] cells, not initialised. *)
Definition N_VNew_Serial (n : nat) : N_Vector := Some (repeat indeterminate n).

(** A call to the engine: answered on the calls so far, then logged. *)
Definition call (c : ida_call) : M ida_reply :=
  fun w => let r := ida (ida_log w) c in
           (Ok r, {| self := self w;
                     ida_log := ida_log w ++ [(c, r_flag r)];
                     cout := cout w |}).

(** The engine writes through a vector's pointer: a null pointer stays null. *)
Definition written (p : N_Vector) (data : list realtype) : N_Vector :=
  match p with Some _ => Some data | None => None end.

Definition written_array (p : N_Vector_array) (data : list (list realtype))
  : N_Vector_array :=
  match p with Some _ => Some data | None => None end.

(** [NV_Ith_S(p, i) = x] on a member vector. *)
Definition store (p : N_Vector) (i : nat) (x : realtype) : N_Vector :=
  match p with Some v => Some (NV_set v i x) | None => None end.

(** [NV_DATA_S(p)]. *)
Definition NV_DATA_S (p : N_Vector) : list realtype :=
  match p with Some v => v | None => [] end.

(** ** The callbacks handed to the engine *)

Definition getCurrentStepFromIDA : M doublereal :=
  s <- this ;;
  r <- call (IDAGetCurrentStep (m_ida_mem s)) ;;
  ret (r_t r).

(** [ida_resid]: the [int] returned to the engine and the residual buffer. *)
Definition ida_resid (t : realtype) (y ydot r : list realtype)
  : M (Z * list realtype) :=
  delta_t <- getCurrentStepFromIDA ;;
  let '(flag, r') := evalResidNJ m_resid t delta_t y ydot r in
  if (flag <? 0)%Z then ret (flag, r') else ret (0%Z, r').

(** [ida_quad_rhs]: the [int] returned to the engine and the integrand buffer. *)
Definition ida_quad_rhs (t : realtype) (y ydot rhsQ : list realtype)
  : M (Z * list realtype) :=
  delta_t <- getCurrentStepFromIDA ;;
  let '(flag, rhsQ') := evalQuadRhs m_resid t y ydot rhsQ in
  if (flag <? 0)%Z then ret (flag, rhsQ') else ret (0%Z, rhsQ').

(** ** Read accessors *)

Definition solutionVector : M (list doublereal) := s <- this ;; ret (NV_DATA_S (m_y s)).
Definition derivativeVector : M (list doublereal) := s <- this ;; ret (NV_DATA_S (m_ydot s)).
Definition solution (k : nat) : M doublereal :=
  s <- this ;; ret (nth k (NV_DATA_S (m_y s)) indeterminate).
Definition derivative (k : nat) : M doublereal :=
  s <- this ;; ret (nth k (NV_DATA_S (m_ydot s)) indeterminate).
Definition getCurrentTimeFromIDA : M doublereal := s <- this ;; ret (m_tcurrent s).

(** ** Configuration setters *)

(** [setTolerances(double reltol, double* abstol)]; the array is read at
    the indices below [m_neq] that it has. *)
Definition setTolerances_vector (reltol : doublereal) (abstol : list doublereal) : M unit :=
  modify (set_m_itol IDA_SV) ;;
  s <- this ;;
  when (negb (non_null (m_abstol s)))
       (modify (set_m_abstol (N_VNew_Serial (m_neq s)))) ;;
  for_each (combine (seq 0 (m_neq s)) abstol)
           (fun ix => modify (fun s => set_m_abstol (store (m_abstol s) (fst ix) (snd ix)) s)) ;;
  modify (set_m_reltol reltol) ;;
  s <- this ;;
  if non_null (m_ida_mem s) then
    r <- call (IDASVtolerances (m_ida_mem s) (m_reltol s) (m_abstol s)) ;;
    if negb (r_flag r =? IDA_SUCCESS)%Z
    then throw "IDA_Solver::setTolerances" "Memory allocation failed." []
    else ret tt
  else ret tt.

(** [setTolerances(doublereal reltol, doublereal abstol)]. *)
Definition setTolerances (reltol abstol : doublereal) : M unit :=
  modify (set_m_itol IDA_SS) ;;
  modify (set_m_reltol reltol) ;;
  modify (set_m_abstols abstol) ;;
  s <- this ;;
  if non_null (m_ida_mem s) then
    r <- call (IDASStolerances (m_ida_mem s) (m_reltol s) (m_abstols s)) ;;
    if negb (r_flag r =? IDA_SUCCESS)%Z
    then throw "IDA_Solver::setTolerances" "Call to IDASStolerances failed." []
    else ret tt
  else ret tt.

Definition setSensitivityTolerances (rtol_sens atol_sens : doublereal) : M unit :=
  modify (set_m_reltolsens rtol_sens) ;;
  modify (set_m_abstolsens atol_sens).

Definition setLinearSolverType (solverType : Z) : M unit := modify (set_m_type solverType).
Definition setDenseLinearSolver : M unit := setLinearSolverType 0.

Definition setBandedLinearSolver (m_upper m_lower : Z) : M unit :=
  modify (set_m_type 2%Z) ;;
  modify (set_m_mupper m_upper) ;;
  modify (set_m_mlower m_lower).

Definition setMaxOrder (n : Z) : M unit := modify (set_m_maxord n).
Definition setMaxNumSteps (n : Z) : M unit := modify (set_m_maxsteps n).
Definition setInitialStepSize (h0 : doublereal) : M unit := modify (set_m_h0 h0).
Definition setStopTime (tstop : doublereal) : M unit := modify (set_m_tstop tstop).
Definition setMaxErrTestFailures (n : Z) : M unit := modify (set_m_maxErrTestFails n).
Definition setMaxNonlinIterations (n : Z) : M unit := modify (set_m_maxNonlinIters n).
Definition setMaxNonlinConvFailures (n : Z) : M unit := modify (set_m_maxNonlinConvFails n).

Definition inclAlgebraicInErrorTest (yesno : bool) : M unit :=
  if yesno then modify (set_m_setSuppressAlg 0%Z) else modify (set_m_setSuppressAlg 1%Z).

Definition setJacobianType (formJac : Z) : M unit :=
  modify (set_m_formJac formJac) ;;
  s <- this ;;
  if non_null (m_ida_mem s) && (m_formJac s =? 1)%Z then
    r <- call (IDADlsSetDenseJacFn (m_ida_mem s)) ;;
    if negb (r_flag r =? IDA_SUCCESS)%Z
    then throw "IDA_Solver::setJacobianType" "IDADlsSetDenseJacFn failed." []
    else ret tt
  else ret tt.

(** [setConstraint(k, constraintFlag)]. *)
Definition setConstraint (k : nat) (constraintFlag : Z) : M unit :=
  if checkFlag constraintFlag then
    s <- this ;;
    when (negb (non_null (m_constraints s)))
         (modify (set_m_constraints (N_VNew_Serial (m_neq s)))) ;;
    modify (fun s => set_m_constraints
                       (store (m_constraints s) k (int_to_double constraintFlag)) s) ;;
    s <- this ;;
    if non_null (m_ida_mem s) then
      r <- call (IDASetConstraints (m_ida_mem s) (m_constraints s)) ;;
      if negb (r_flag r =? IDA_SUCCESS)%Z
      then throw "IDA_Solver::setConstraint" "IDASetConstraint failed." []
      else ret tt
    else ret tt
  else throw "IDA_Solver::setConstraint" "Invalid Constraint vaue" [].

(** The body of the loop of [setConstraints] at index [i] holding [cflag]. *)
Definition setConstraints_body (ix : nat * Z) : M unit :=
  let i := fst ix in
  let cflag := snd ix in
  print (show_size_t i ++ " cflag " ++ show_int cflag ++ endl)%string ;;
  if negb (checkFlag cflag)
  then throw "IDA_Solver::setConstraints" "Invalid Constraint vaue detected" []
  else modify (fun s => set_m_constraints
                          (store (m_constraints s) i (int_to_double cflag)) s).

(** [setConstraints(constraintFlags)]; the array is read at the indices
    below [m_neq] that it has. *)
Definition setConstraints (constraintFlags : list Z) : M unit :=
  s <- this ;;
  when (negb (non_null (m_constraints s)))
       (modify (set_m_constraints (N_VNew_Serial (m_neq s)))) ;;
  for_each (combine (seq 0 (m_neq s)) constraintFlags) setConstraints_body ;;
  s <- this ;;
  if non_null (m_ida_mem s) then
    r <- call (IDASetConstraints (m_ida_mem s) (m_constraints s)) ;;
    if negb (r_flag r =? IDA_SUCCESS)%Z
    then throw "IDA_Solver::setConstraints" "IDASetConstraint failed." []
    else ret tt
  else ret tt.

(** ** Initialisation *)

(** [N_VCloneVectorArray_Serial(count, w)]: [count] vectors of the length of
    [w], not initialised. *)
Definition N_VCloneVectorArray_Serial (count : nat) (w : N_Vector) : N_Vector_array :=
  Some (repeat (repeat indeterminate (List.length (NV_DATA_S w))) count).

(** [N_VConst(0.0, a[n])] on a member array. *)
Definition zero_nth (a : N_Vector_array) (n : nat) : N_Vector_array :=
  match a with
  | Some vs => Some (NV_set vs n (N_VConst 0%float (nth n vs [])))
  | None => None
  end.

(** [sensInit(t0)]. A scale factor read past the end of [m_paramScales] is
    undefined in the source and indeterminate here. *)
Definition sensInit (t0 : doublereal) : M unit :=
  modify (set_m_sens_ok false) ;;
  modify (fun s => set_m_yS (N_VCloneVectorArray_Serial (m_ns s) (m_y s)) s) ;;
  s <- this ;;
  for_each (seq 0 (m_ns s)) (fun n => modify (fun s => set_m_yS (zero_nth (m_yS s) n) s)) ;;
  modify (fun s => set_m_ySdot (N_VCloneVectorArray_Serial (m_ns s) (m_y s)) s) ;;
  for_each (seq 0 (m_ns s)) (fun n => modify (fun s => set_m_ySdot (zero_nth (m_ySdot s) n) s)) ;;
  s <- this ;;
  r <- call (IDASensInit (m_ida_mem s) (m_ns s) IDA_STAGGERED (m_yS s) (m_ySdot s)) ;;
  if negb (r_flag r =? IDA_SUCCESS)%Z
  then throw "IDA_Solver::sensInit" "Error in IDASensInit" []
  else
    let atol := map (fun n => (m_abstolsens s / nth n (m_paramScales m_resid) indeterminate)%float)
                    (seq 0 (m_ns s)) in
    _ <- call (IDASensSStolerances (m_ida_mem s) (m_reltolsens s) atol) ;;
    ret tt.

(** [init], first part: the time bookkeeping, the vectors and the initial
    conditions. The destroyed vectors are reallocated at once, except
    [m_id], [m_yQ] and [m_yQdot], whose pointers are left as they were. *)
Definition init_vectors (t0 : doublereal) : M unit :=
  modify (set_m_t0 t0) ;;
  modify (set_m_told t0) ;;
  modify (set_m_told_old t0) ;;
  modify (set_m_tcurrent t0) ;;
  s <- this ;;
  modify (set_m_y (N_VNew_Serial (m_neq s))) ;;
  modify (set_m_ydot (N_VNew_Serial (m_neq s))) ;;
  modify (set_m_constraints (N_VNew_Serial (m_neq s))) ;;
  for_each (seq 0 (m_neq s))
           (fun i =>
              modify (fun s => set_m_y (store (m_y s) i 0%float) s) ;;
              modify (fun s => set_m_ydot (store (m_ydot s) i 0%float) s) ;;
              modify (fun s => set_m_constraints (store (m_constraints s) i 0%float) s)) ;;
  when (negb (nQuadEquations m_resid =? 0))
       (modify (set_m_yQ (N_VNew_Serial (nQuadEquations m_resid))) ;;
        modify (set_m_yQdot (N_VNew_Serial (nQuadEquations m_resid)))) ;;
  for_each (seq 0 (nQuadEquations m_resid))
           (fun i =>
              modify (fun s => set_m_yQ (store (m_yQ s) i 0%float) s) ;;
              modify (fun s => set_m_yQdot (store (m_yQdot s) i 0%float) s)) ;;
  s <- this ;;
  let '(y, ydot) := getInitialConditions m_resid (m_t0 s)
                                         (NV_DATA_S (m_y s)) (NV_DATA_S (m_ydot s)) in
  modify (set_m_y (written (m_y s) y)) ;;
  modify (set_m_ydot (written (m_ydot s) ydot)).

(** [init], second part: a new engine instance on the initial conditions. *)
Definition init_engine : M unit :=
  s <- this ;;
  when (non_null (m_ida_mem s))
       (_ <- call (IDAFree (m_ida_mem s)) ;; modify (set_m_ida_mem None)) ;;
  r <- call IDACreate ;;
  modify (set_m_ida_mem (r_mem r)) ;;
  s <- this ;;
  r <- call (IDAInit (m_ida_mem s) (m_t0 s) (m_y s) (m_ydot s)) ;;
  let flag := r_flag r in
  if negb (flag =? IDA_SUCCESS)%Z then
    if (flag =? IDA_MEM_FAIL)%Z then
      throw "IDA_Solver::init" "Memory allocation failed." []
    else if (flag =? IDA_ILL_INPUT)%Z then
      throw "IDA_Solver::init" "Illegal value for IDAInit input argument." []
    else throw "IDA_Solver::init" "IDAInit failed." []
  else ret tt.

Definition init_tolerances : M unit :=
  s <- this ;;
  if (m_itol s =? IDA_SV)%Z then
    r <- call (IDASVtolerances (m_ida_mem s) (m_reltol s) (m_abstol s)) ;;
    if negb (r_flag r =? IDA_SUCCESS)%Z
    then throw "IDA_Solver::init" "Memory allocation failed." []
    else ret tt
  else
    r <- call (IDASStolerances (m_ida_mem s) (m_reltol s) (m_abstols s)) ;;
    if negb (r_flag r =? IDA_SUCCESS)%Z
    then throw "IDA_Solver::init" "Memory allocation failed." []
    else ret tt.

(** [init]: the linear solver, the Jacobian function and the user data. *)
Definition init_linear_solver : M unit :=
  s <- this ;;
  (if (m_type s =? 1)%Z || (m_type s =? 0)%Z then
     r <- call (IDADense (m_ida_mem s) (Z.of_nat (m_neq s))) ;;
     if negb (r_flag r =? 0)%Z
     then throw "IDA_Solver::init" "IDADense failed" []
     else ret tt
   else if (m_type s =? 2)%Z then
     _ <- call (IDABand (m_ida_mem s) (Z.of_nat (m_neq s)) (m_mupper s) (m_mlower s)) ;;
     ret tt
   else throw "IDA_Solver::init" "unsupported linear solver type" []) ;;
  (if (m_formJac s =? 1)%Z then
     r <- call (IDADlsSetDenseJacFn (m_ida_mem s)) ;;
     if negb (r_flag r =? IDA_SUCCESS)%Z
     then throw "IDA_Solver::init" "IDADlsSetDenseJacFn failed." []
     else ret tt
   else ret tt) ;;
  modify (set_m_fdata true) ;;
  r <- call (IDASetUserData (m_ida_mem s)) ;;
  if negb (r_flag r =? IDA_SUCCESS)%Z
  then throw "IDA_Solver::init" "IDASetUserData failed." []
  else ret tt.

Definition init_sensitivity (t0 : doublereal) : M unit :=
  s <- this ;;
  if 0 <? m_ns s then
    sensInit t0 ;;
    s <- this ;;
    r <- call (IDASetSensParams (m_ida_mem s) (m_sens_params m_resid) (m_paramScales m_resid)) ;;
    if negb (r_flag r =? IDA_SUCCESS)%Z
    then throw "IDA_Solver::init" "IDASetSensParams failed." []
    else ret tt
  else ret tt.

(** One recorded option: pushed to the engine when [applies]. *)
Definition init_option (applies : bool) (c : ida_call) (msg : string) : M unit :=
  if applies then
    r <- call c ;;
    if negb (r_flag r =? IDA_SUCCESS)%Z
    then throw "IDA_Solver::init" msg []
    else ret tt
  else ret tt.

Definition init_options : M unit :=
  s <- this ;;
  let mem := m_ida_mem s in
  init_option (0 <? m_maxord s)%Z (IDASetMaxOrd mem (m_maxord s)) "IDASetMaxOrd failed." ;;
  init_option (0 <? m_maxsteps s)%Z (IDASetMaxNumSteps mem (m_maxsteps s))
              "IDASetMaxNumSteps failed." ;;
  init_option (0 <? m_h0 s)%float (IDASetInitStep mem (m_h0 s)) "IDASetInitStep failed." ;;
  init_option (0 <? m_tstop s)%float (IDASetStopTime mem (m_tstop s)) "IDASetStopTime failed." ;;
  init_option (0 <=? m_maxErrTestFails s)%Z (IDASetMaxErrTestFails mem (m_maxErrTestFails s))
              "IDASetMaxErrTestFails failed." ;;
  init_option (0 <? m_maxNonlinIters s)%Z (IDASetMaxNonlinIters mem (m_maxNonlinIters s))
              "IDASetmaxNonlinIters failed." ;;
  init_option (0 <=? m_maxNonlinConvFails s)%Z (IDASetMaxConvFails mem (m_maxNonlinConvFails s))
              "IDASetMaxConvFails failed." ;;
  init_option (negb (m_setSuppressAlg s =? 0)%Z) (IDASetSuppressAlg mem (m_setSuppressAlg s))
              "IDASetSuppressAlg failed.".

(** [init]: the constraints, taken from the provider when it has any. *)
Definition init_constraints : M unit :=
  s <- this ;;
  if negb (nConstraints m_resid =? 0) then
    for_each (seq 0 (m_neq s))
             (fun i => modify (fun s => set_m_constraints
                          (store (m_constraints s) i (int_to_double (constraint m_resid i))) s)) ;;
    s <- this ;;
    r <- call (IDASetConstraints (m_ida_mem s) (m_constraints s)) ;;
    if negb (r_flag r =? IDA_SUCCESS)%Z
    then throw "IDA_Solver::init" "IDASetConstraints failed" []
    else ret tt
  else ret tt.

Definition init_quadrature : M unit :=
  s <- this ;;
  if negb (nQuadEquations m_resid =? 0) then
    r <- call (IDAQuadInit (m_ida_mem s) (m_yQ s)) ;;
    if negb (r_flag r =? IDA_SUCCESS)%Z
    then throw "IDA_Solver::init" "IDAQuadInit failed" []
    else ret tt
  else ret tt.

(** [init(t0)]. *)
Definition init (t0 : doublereal) : M unit :=
  init_vectors t0 ;;
  init_engine ;;
  init_tolerances ;;
  init_linear_solver ;;
  init_sensitivity t0 ;;
  init_options ;;
  init_constraints ;;
  init_quadrature.

(** ** Consistent initial conditions *)

(** The loop [for i < n: dst[i] = src[i]] over the caller's array. *)
Definition copy_out (n : nat) (src dst : list realtype) : list realtype :=
  fold_left (fun d i => NV_set d i (nth i src indeterminate)) (seq 0 n) dst.

(** The target time both correctors hand to the engine. *)
Definition default_tout (s : IDA_Solver) (tout : doublereal) : doublereal :=
  if (tout =? 0)%float then
    let h0 := if (0 <? m_h0 s)%float then m_h0 s else 1.0E-5%float in
    (m_t0 s + h0)%float
  else tout.

Definition correctInitial (proc : string) (msg2 : string) (icopt : Z)
           (y yp : list doublereal) (tout : doublereal)
  : M (list doublereal * list doublereal) :=
  s <- this ;;
  let tout1 := default_tout s tout in
  r <- call (IDACalcIC (m_ida_mem s) icopt tout1) ;;
  if negb (r_flag r =? IDA_SUCCESS)%Z
  then throw proc "IDACalcIC failed: error = {}" [r_flag r]
  else
    r <- call (IDAGetConsistentIC (m_ida_mem s) (m_y s) (m_ydot s)) ;;
    modify (fun s => set_m_y (written (m_y s) (r_yy r)) s) ;;
    modify (fun s => set_m_ydot (written (m_ydot s) (r_yp r)) s) ;;
    if negb (r_flag r =? IDA_SUCCESS)%Z
    then throw proc msg2 [r_flag r]
    else
      s <- this ;;
      ret (copy_out (m_neq s) (NV_DATA_S (m_y s)) y,
           copy_out (m_neq s) (NV_DATA_S (m_ydot s)) yp).

Definition correctInitial_Y_given_Yp :=
  correctInitial "IDA_Solver::correctInitial_Y_given_Yp"
                 "IDAGetSolution failed: error = {}" IDA_Y_INIT.

Definition correctInitial_YaYp_given_Yd :=
  correctInitial "IDA_Solver::correctInitial_YaYp_given_Yd"
                 "IDAGetConsistentIC failed: error = {}" IDA_YA_YDP_INIT.

(** The body of [correctSensInitial_Y] is commented out in the source. *)
Definition correctSensInitial_Y (yS ypS : list doublereal) : M unit := ret tt.

(** ** Advancing *)

(** The engine's [IDASolve] on the member vectors: the status and the time
    it leaves in [tret]. *)
Definition IDASolve_members (tout : doublereal) (itask : Z) : M (Z * doublereal) :=
  s <- this ;;
  r <- call (IDASolve (m_ida_mem s) tout (m_y s) (m_ydot s) itask) ;;
  modify (fun s => set_m_y (written (m_y s) (r_yy r)) s) ;;
  modify (fun s => set_m_ydot (written (m_ydot s) (r_yp r)) s) ;;
  ret (r_flag r, r_t r).

(** One pass through the body of the [while] of [solve], past the [break]
    test: the new [flag] and [tretn]. *)
Definition solve_body (tout : doublereal) : M (Z * doublereal) :=
  modify (fun s => set_m_told_old (m_told s) s) ;;
  modify (fun s => set_m_told (m_tcurrent s) s) ;;
  ft <- IDASolve_members tout IDA_NORMAL ;;
  let flag := fst ft in
  let tretn := snd ft in
  (if (flag <? 0)%Z then throw "IDA_Solver::solve" "IDA error encountered." []
   else if (flag =? IDA_TSTOP_RETURN)%Z then ret tt
   else if (flag =? IDA_ROOT_RETURN)%Z then ret tt
   else if (flag =? IDA_WARNING)%Z then print ("DAE Solver WARNING!" ++ endl)%string
   else ret tt) ;;
  modify (set_m_tcurrent tretn) ;;
  modify (fun s => set_m_deltat (m_tcurrent s - m_told s)%float s) ;;
  ret (flag, tretn).

(** The [while (tretn < tout)] of [solve], for at most [fuel] passes; [None]
    when the passes run out. It yields the [flag] the loop is left with. *)
Fixpoint solve_loop (fuel : nat) (tout tretn : doublereal) (flag : Z) (w : World)
  : option (result Z * World) :=
  if (tretn <? tout)%float then
    match fuel with
    | O => None
    | S fuel' =>
        if (tout <=? m_tcurrent (self w))%float then
          Some (Ok flag, snd (print ("Simulation end time reached" ++ endl)%string w))
        else
          match solve_body tout w with
          | (Ok (flag', tretn'), w') => solve_loop fuel' tout tretn' flag' w'
          | (Throw e, w') => Some (Throw e, w')
          end
    end
  else Some (Ok flag, w).

(** [solve]: the stop time set before the loop; the [flag] it leaves. *)
Definition solve_stop_time (tout : doublereal) : M Z :=
  s <- this ;;
  r <- call (IDASetStopTime (m_ida_mem s) tout) ;;
  if negb (r_flag r =? IDA_SUCCESS)%Z
  then throw "IDA_Solver::solve" "IDA error encountered." []
  else ret (r_flag r).

(** [solve]: what follows the loop. *)
Definition solve_finish (flag : Z) : M Z :=
  if negb (flag =? IDA_SUCCESS)%Z && negb (flag =? IDA_TSTOP_RETURN)%Z
  then throw "IDA_Solver::solve" "IDA error encountered." []
  else modify (set_m_sens_ok false) ;; ret flag.

(** [solve(tout)], its loop bounded by [fuel] passes. *)
Definition solve (fuel : nat) (tout : doublereal) (w : World)
  : option (result Z * World) :=
  let tretn := (tout - 1000)%float in
  match solve_stop_time tout w with
  | (Throw e, w1) => Some (Throw e, w1)
  | (Ok flag, w1) =>
      match solve_loop fuel tout tretn flag w1 with
      | None => None
      | Some (Throw e, w2) => Some (Throw e, w2)
      | Some (Ok flag', w2) => Some (solve_finish flag' w2)
      end
  end.

(** [step(tout)]. *)
Definition step (tout : doublereal) : M doublereal :=
  s <- this ;;
  if (tout <=? m_tcurrent s)%float
  then throw "IDA_Solver::step" "tout <= tcurrent" []
  else
    modify (fun s => set_m_told_old (m_told s) s) ;;
    modify (fun s => set_m_told (m_tcurrent s) s) ;;
    ft <- IDASolve_members tout IDA_ONE_STEP ;;
    let flag := fst ft in
    let t := snd ft in
    (if (flag <? 0)%Z then throw "IDA_Solver::step" "IDA error encountered." []
     else if (flag =? IDA_TSTOP_RETURN)%Z then ret tt
     else if (flag =? IDA_ROOT_RETURN)%Z then ret tt
     else if (flag =? IDA_WARNING)%Z
          then throw "IDA_Solver::step" "IDA Warning encountered." []
     else ret tt) ;;
    modify (set_m_tcurrent t) ;;
    modify (fun s => set_m_deltat (m_tcurrent s - m_told s)%float s) ;;
    modify (set_m_sens_ok false) ;;
    ret t.

(** ** Quadratures, sensitivities and statistics *)

(** [quadratureVector()]: [None] is the null pointer. *)
Definition quadratureVector : M (option (list doublereal)) :=
  if negb (nQuadEquations m_resid =? 0) then
    s <- this ;;
    r <- call (IDAGetQuad (m_ida_mem s) (m_yQ s)) ;;
    modify (fun s => set_m_yQ (written (m_yQ s) (r_yy r)) s) ;;
    if negb (r_flag r =? IDA_SUCCESS)%Z
    then throw "IDA_Solver::quadratureVector" "IDAGetQuad failed: error = {}" [r_flag r]
    else s <- this ;; ret (Some (NV_DATA_S (m_yQ s)))
  else ret None.

(** The fetch inside [sensitivity]. Its test is the assignment
    [m_tcurrent = m_t0], whose value is converted to [bool]. *)
Definition sensitivity_fetch : M unit :=
  modify (fun s => set_m_tcurrent (m_t0 s) s) ;;
  s <- this ;;
  (if double_to_bool (m_tcurrent s) then
     r <- call (IDAGetSensConsistentIC (m_ida_mem s) (m_yS s) (m_ySdot s)) ;;
     modify (fun s => set_m_yS (written_array (m_yS s) (r_yyS r)) s) ;;
     modify (fun s => set_m_ySdot (written_array (m_ySdot s) (r_ypS r)) s) ;;
     if negb (r_flag r =? IDA_SUCCESS)%Z
     then throw "IDA_Solver::sensitivity"
                "IDAGetSensConsistentIC failed: error = {}" [r_flag r]
     else ret tt
   else
     r <- call (IDAGetSens (m_ida_mem s) (m_yS s)) ;;
     modify (set_m_tcurrent (r_t r)) ;;
     modify (fun s => set_m_yS (written_array (m_yS s) (r_yyS r)) s) ;;
     if negb (r_flag r =? IDA_SUCCESS)%Z
     then throw "IDA_Solver::sensitivity" "IDAGetSens failed: error = {}" [r_flag r]
     else ret tt) ;;
  modify (set_m_sens_ok true).

(** [sensitivity(k, p)]. A read outside the sensitivity arrays is undefined
    in the source and indeterminate here. *)
Definition sensitivity (k p : nat) : M doublereal :=
  s <- this ;;
  when (negb (m_sens_ok s) && negb (m_ns s =? 0)) sensitivity_fetch ;;
  s <- this ;;
  if m_neq s <=? k then
    throw "IDA_Solver::sensitivity"
          "sensitivity: equation index out of range ({})" [Z.of_nat k]
  else if m_ns s <=? p then
    throw "IDA_Solver::sensitivity"
          "sensitivity: parameter index out of range ({})" [Z.of_nat p]
  else
    ret (nth k (nth p (match m_yS s with Some vs => vs | None => [] end) [])
             indeterminate).

(** [getOutputParameter(flag)]. *)
Definition getOutputParameter (flag : Z) : M doublereal :=
  if (flag =? REAL_WORKSPACE_SIZE)%Z then
    s <- this ;;
    r <- call (IDAGetWorkSpace (m_ida_mem s)) ;;
    ret (long_to_double (r_lenrw r))
  else ret 0%float.

End Adapter.

(** ** Notions used by the statements *)

(** The errors the statements name, as the source constructs them. *)
Definition step_precondition_error : CanteraError :=
  {| procedure := "IDA_Solver::step"; message := "tout <= tcurrent"; fmt_args := [] |}.

Definition step_warning_error : CanteraError :=
  {| procedure := "IDA_Solver::step"; message := "IDA Warning encountered.";
     fmt_args := [] |}.

(** The error [step] throws on a negative status of the engine. *)
Definition step_engine_error : CanteraError :=
  {| procedure := "IDA_Solver::step"; message := "IDA error encountered.";
     fmt_args := [] |}.

Definition solve_error : CanteraError :=
  {| procedure := "IDA_Solver::solve"; message := "IDA error encountered.";
     fmt_args := [] |}.

Definition equation_range_error (k : nat) : CanteraError :=
  {| procedure := "IDA_Solver::sensitivity";
     message := "sensitivity: equation index out of range ({})";
     fmt_args := [Z.of_nat k] |}.

Definition parameter_range_error (p : nat) : CanteraError :=
  {| procedure := "IDA_Solver::sensitivity";
     message := "sensitivity: parameter index out of range ({})";
     fmt_args := [Z.of_nat p] |}.

Definition tolerances_error (msg : string) : CanteraError :=
  {| procedure := "IDA_Solver::setTolerances"; message := msg; fmt_args := [] |}.

Definition invalid_constraint_error : CanteraError :=
  {| procedure := "IDA_Solver::setConstraints";
     message := "Invalid Constraint vaue detected"; fmt_args := [] |}.

(** The fetch [sensitivity] makes on a stale cache: one call, chosen by the
    start time alone, logged with the status it returned. *)
Definition sens_fetch_call (w : World) : ida_call :=
  let s := self w in
  if double_to_bool (m_t0 s)
  then IDAGetSensConsistentIC (m_ida_mem s) (m_yS s) (m_ySdot s)
  else IDAGetSens (m_ida_mem s) (m_yS s).

(** The line [setConstraints] prints for index [i] holding [cflag]. *)
Definition cflag_line (ix : nat * Z) : string :=
  (show_size_t (fst ix) ++ " cflag " ++ show_int (snd ix) ++ endl)%string.

(** The assignments of the loop of [setConstraints] over valid tags. *)
Definition store_tags (l : list (nat * Z)) (s : IDA_Solver) : IDA_Solver :=
  fold_left (fun s ix => set_m_constraints
                           (store (m_constraints s) (fst ix) (int_to_double (snd ix))) s)
            l s.

(** The vector [setConstraints] writes into: the stored one, or a new one. *)
Definition constraints_before (indeterminate : realtype) (s : IDA_Solver) : list float :=
  match m_constraints s with
  | Some v => v
  | None => repeat indeterminate (m_neq s)
  end.

(** The cells [init] zeroes at index [i]. *)
Definition zero_cells (i : nat) (s : IDA_Solver) : IDA_Solver :=
  set_m_constraints (store (m_constraints s) i 0%float)
    (set_m_ydot (store (m_ydot s) i 0%float)
       (set_m_y (store (m_y s) i 0%float) s)).

(** The quadrature cells [init] zeroes at index [i]. *)
Definition zero_quad_cells (i : nat) (s : IDA_Solver) : IDA_Solver :=
  set_m_yQdot (store (m_yQdot s) i 0%float)
    (set_m_yQ (store (m_yQ s) i 0%float) s).

(** The tags the provider defines for [n] equations, as the vector holds them. *)
Definition provider_constraints (m_resid : ResidJacEval) (n : nat) : list float :=
  map (fun i => int_to_double (constraint m_resid i)) (seq 0 n).

(** The cell [init] takes from the provider at index [i]. *)
Definition provider_cells (m_resid : ResidJacEval) (i : nat) (s : IDA_Solver) : IDA_Solver :=
  set_m_constraints (store (m_constraints s) i (int_to_double (constraint m_resid i))) s.

(** ** Notions used by the proofs *)

(** [wp m Q w]: running [m] from [w] ends, returning or throwing, in a
    result and a world that satisfy [Q]. *)
Definition wp {A} (m : M A) (Q : result A -> World -> Prop) (w : World) : Prop :=
  Q (fst (m w)) (snd (m w)).

(** The worlds the primitive actions leave. *)
Definition set_self (s : IDA_Solver) (w : World) : World :=
  {| self := s; ida_log := ida_log w; cout := cout w |}.

Definition logged (ev : ida_event) (w : World) : World :=
  {| self := self w; ida_log := ida_log w ++ [ev]; cout := cout w |}.

Definition printed (text : string) (w : World) : World :=
  {| self := self w; ida_log := ida_log w; cout := cout w ++ [text] |}.

(** [m] leaves every world in one that [R] relates to it, returning or
    throwing. *)
Definition preserves (R : World -> World -> Prop) {A} (m : M A) : Prop :=
  forall w, R w (snd (m w)).

(** Calls that neither create an engine instance nor set its constraints. *)
Definition keeps_ida_constraints (c : ida_call) : bool :=
  match c with
  | IDACreate | IDASetConstraints _ _ => false
  | _ => true
  end.

(** The stored constraints, the equation count and the constraints the
    engine holds are the same in both worlds. *)
Definition same_constraints (w w' : World) : Prop :=
  m_constraints (self w') = m_constraints (self w) /\
  m_neq (self w') = m_neq (self w) /\
  ida_constraints (ida_log w') = ida_constraints (ida_log w).

(** The stored constraints and the equation count alone. *)
Definition same_stored (w w' : World) : Prop :=
  m_constraints (self w') = m_constraints (self w) /\
  m_neq (self w') = m_neq (self w).

(** The equation count alone. *)
Definition same_neq (w w' : World) : Prop := m_neq (self w') = m_neq (self w).

(** The time bookkeeping: previous-previous, previous and current time, and
    the last step size. *)
Definition same_times (w w' : World) : Prop :=
  m_told_old (self w') = m_told_old (self w) /\
  m_told (self w') = m_told (self w) /\
  m_tcurrent (self w') = m_tcurrent (self w) /\
  m_deltat (self w') = m_deltat (self w).

(** ** Further notions used by the statements *)

(** Both worlds agree on what [proj] reads. *)
Definition same_on {T} (proj : World -> T) (w w' : World) : Prop := proj w' = proj w.

(** The log of [w'] is the log of [w] with more calls after it. *)
Definition log_extends (w w' : World) : Prop :=
  exists l, ida_log w' = ida_log w ++ l.

(** A setting the engine holds after the logged calls: a new instance holds
    none; a successful call that [sel] reads as setting [v] makes it [v]. *)
Definition ida_setting_step {V} (sel : ida_call -> option V)
           (held : option V) (ev : ida_event) : option V :=
  match fst ev with
  | IDACreate => None
  | c => match sel c with
         | Some v => if (snd ev =? IDA_SUCCESS)%Z then Some v else held
         | None => held
         end
  end.

Definition ida_held {V} (sel : ida_call -> option V) (log : list ida_event) : option V :=
  fold_left (ida_setting_step sel) log None.

(** Calls that leave the setting read by [sel] as it is. *)
Definition keeps_setting {V} (sel : ida_call -> option V) (c : ida_call) : bool :=
  match c with
  | IDACreate => false
  | _ => match sel c with Some _ => false | None => true end
  end.

(** The options [init] pushes, as the engine's calls set them. *)
Definition sel_max_order (c : ida_call) : option Z :=
  match c with IDASetMaxOrd _ n => Some n | _ => None end.
Definition sel_max_steps (c : ida_call) : option Z :=
  match c with IDASetMaxNumSteps _ n => Some n | _ => None end.
Definition sel_init_step (c : ida_call) : option float :=
  match c with IDASetInitStep _ h => Some h | _ => None end.
Definition sel_stop_time (c : ida_call) : option float :=
  match c with IDASetStopTime _ t => Some t | _ => None end.
Definition sel_max_err_test_fails (c : ida_call) : option Z :=
  match c with IDASetMaxErrTestFails _ n => Some n | _ => None end.
Definition sel_max_nonlin_iters (c : ida_call) : option Z :=
  match c with IDASetMaxNonlinIters _ n => Some n | _ => None end.
Definition sel_max_conv_fails (c : ida_call) : option Z :=
  match c with IDASetMaxConvFails _ n => Some n | _ => None end.
Definition sel_suppress_alg (c : ida_call) : option Z :=
  match c with IDASetSuppressAlg _ b => Some b | _ => None end.

(** The tolerances the engine is given: a scalar pair or a relative
    tolerance with a vector. *)
Inductive tolerances : Type :=
| scalar_tolerances (reltol abstol : realtype)
| vector_tolerances (reltol : realtype) (abstol : N_Vector).

Definition sel_tolerances (c : ida_call) : option tolerances :=
  match c with
  | IDASStolerances _ r a => Some (scalar_tolerances r a)
  | IDASVtolerances _ r v => Some (vector_tolerances r v)
  | _ => None
  end.

(** What the configuration setters record. *)
Record configuration : Type := {
  cfg_neq : nat; cfg_ns : nat;
  cfg_type : Z; cfg_mupper : Z; cfg_mlower : Z; cfg_formJac : Z;
  cfg_itol : Z; cfg_reltol : doublereal; cfg_abstols : doublereal; cfg_abstol : N_Vector;
  cfg_reltolsens : doublereal; cfg_abstolsens : doublereal;
  cfg_maxord : Z; cfg_maxsteps : Z; cfg_h0 : doublereal; cfg_tstop : doublereal;
  cfg_maxErrTestFails : Z; cfg_maxNonlinIters : Z; cfg_maxNonlinConvFails : Z;
  cfg_setSuppressAlg : Z
}.

Definition configured (s : IDA_Solver) : configuration :=
  {| cfg_neq := m_neq s; cfg_ns := m_ns s;
     cfg_type := m_type s; cfg_mupper := m_mupper s; cfg_mlower := m_mlower s;
     cfg_formJac := m_formJac s;
     cfg_itol := m_itol s; cfg_reltol := m_reltol s; cfg_abstols := m_abstols s;
     cfg_abstol := m_abstol s;
     cfg_reltolsens := m_reltolsens s; cfg_abstolsens := m_abstolsens s;
     cfg_maxord := m_maxord s; cfg_maxsteps := m_maxsteps s; cfg_h0 := m_h0 s;
     cfg_tstop := m_tstop s;
     cfg_maxErrTestFails := m_maxErrTestFails s;
     cfg_maxNonlinIters := m_maxNonlinIters s;
     cfg_maxNonlinConvFails := m_maxNonlinConvFails s;
     cfg_setSuppressAlg := m_setSuppressAlg s |}.

(** The time bookkeeping with the start time. *)
Definition times (s : IDA_Solver) : doublereal * doublereal * doublereal * doublereal :=
  (m_t0 s, m_told_old s, m_told s, m_tcurrent s).

(** What [init] logs for the engine instance it replaces: the release of the
    old one, when there is one, and the reply to the creation of the new one. *)
Definition freed_by_init (ida : IDA) (w : World) : list ida_event :=
  let mem := m_ida_mem (self w) in
  if non_null mem then [(IDAFree mem, r_flag (ida (ida_log w) (IDAFree mem)))] else [].

Definition created_by_init (ida : IDA) (w : World) : ida_reply :=
  ida (ida_log w ++ freed_by_init ida w) IDACreate.

(** The initial conditions [init] asks the provider for: at [t0], on
    vectors of [n] zeros. *)
Definition initial_conditions (m_resid : ResidJacEval) (t0 : doublereal) (n : nat)
  : list realtype * list realtype :=
  getInitialConditions m_resid t0 (repeat 0%float n) (repeat 0%float n).

(** Every call logged from [w] to [w'] satisfies [P]. *)
Definition calls_within (P : ida_call -> bool) (w w' : World) : Prop :=
  exists l, ida_log w' = ida_log w ++ l /\ forallb (fun ev => P (fst ev)) l = true.

(** Every call logged from [w] to [w'] is an advance towards [tout] in
    normal mode. *)
Definition advances_towards (tout : doublereal) (w w' : World) : Prop :=
  exists l, ida_log w' = ida_log w ++ l /\
            Forall (fun ev : ida_event =>
                      exists mem y yp, fst ev = IDASolve mem tout y yp IDA_NORMAL) l.

(** The calls that create an instance or set one of its step options. *)
Definition sets_option (c : ida_call) : bool :=
  match c with
  | IDACreate
  | IDASetMaxOrd _ _ | IDASetMaxNumSteps _ _ | IDASetInitStep _ _ | IDASetStopTime _ _
  | IDASetMaxErrTestFails _ _ | IDASetMaxNonlinIters _ _ | IDASetMaxConvFails _ _
  | IDASetSuppressAlg _ _ => true
  | _ => false
  end.

(** The calls that create an instance or hand it tolerances. *)
Definition sets_tolerances (c : ida_call) : bool :=
  match c with
  | IDACreate | IDASVtolerances _ _ _ | IDASStolerances _ _ _ => true
  | _ => false
  end.

(** The step options an engine instance holds; [None] is the engine's own
    default. *)
Record ida_options : Type := {
  opt_maxord : option Z;
  opt_maxsteps : option Z;
  opt_h0 : option realtype;
  opt_tstop : option realtype;
  opt_maxErrTestFails : option Z;
  opt_maxNonlinIters : option Z;
  opt_maxNonlinConvFails : option Z;
  opt_suppressAlg : option Z
}.

Definition ida_options_held (log : list ida_event) : ida_options :=
  {| opt_maxord := ida_held sel_max_order log;
     opt_maxsteps := ida_held sel_max_steps log;
     opt_h0 := ida_held sel_init_step log;
     opt_tstop := ida_held sel_stop_time log;
     opt_maxErrTestFails := ida_held sel_max_err_test_fails log;
     opt_maxNonlinIters := ida_held sel_max_nonlin_iters log;
     opt_maxNonlinConvFails := ida_held sel_max_conv_fails log;
     opt_suppressAlg := ida_held sel_suppress_alg log |}.

(** A recorded value, when it lies in the range [applies] tests. *)
Definition in_range {V} (applies : bool) (v : V) : option V :=
  if applies then Some v else None.

(** The recorded step options that lie in the ranges [init] tests. *)
Definition options_in_range (s : IDA_Solver) : ida_options :=
  {| opt_maxord := in_range (0 <? m_maxord s)%Z (m_maxord s);
     opt_maxsteps := in_range (0 <? m_maxsteps s)%Z (m_maxsteps s);
     opt_h0 := in_range (0 <? m_h0 s)%float (m_h0 s);
     opt_tstop := in_range (0 <? m_tstop s)%float (m_tstop s);
     opt_maxErrTestFails := in_range (0 <=? m_maxErrTestFails s)%Z (m_maxErrTestFails s);
     opt_maxNonlinIters := in_range (0 <? m_maxNonlinIters s)%Z (m_maxNonlinIters s);
     opt_maxNonlinConvFails :=
       in_range (0 <=? m_maxNonlinConvFails s)%Z (m_maxNonlinConvFails s);
     opt_suppressAlg := in_range (negb (m_setSuppressAlg s =? 0)%Z) (m_setSuppressAlg s) |}.

(** The tolerances the adapter has recorded, in the recorded mode. *)
Definition recorded_tolerances (s : IDA_Solver) : tolerances :=
  if (m_itol s =? IDA_SV)%Z then vector_tolerances (m_reltol s) (m_abstol s)
  else scalar_tolerances (m_reltol s) (m_abstols s).

(** ** Further notions used by the proofs *)

(** What a returning [init_option] leaves of the setting read by [sel]. *)
Definition pushed {V} (sel : ida_call -> option V) (applies : bool) (c : ida_call)
           (held : option V) : option V :=
  match sel c with
  | Some v => if applies then Some v else held
  | None => held
  end.

(** The error of a corrector whose [IDACalcIC] returned [flag]. *)
Definition calc_ic_error (proc : string) (flag : Z) : CanteraError :=
  {| procedure := proc; message := "IDACalcIC failed: error = {}"; fmt_args := [flag] |}.

(** The error [setConstraint] throws on a tag that is no constraint. *)
Definition invalid_single_constraint_error : CanteraError :=
  {| procedure := "IDA_Solver::setConstraint"; message := "Invalid Constraint vaue";
     fmt_args := [] |}.

(** The error [setConstraints] throws when the engine refuses the vector. *)
Definition constraints_refused_error : CanteraError :=
  {| procedure := "IDA_Solver::setConstraints"; message := "IDASetConstraint failed.";
     fmt_args := [] |}.

(** ** Concrete collaborators for the examples *)

Module Fixture.

(** A provider of two equations and one sensitivity parameter that reports
    [status] from both evaluations and defines no constraints. *)
Definition provider (status : Z) : ResidJacEval :=
  {| evalResidNJ := fun _ _ _ _ r => (status, r);
     evalQuadRhs := fun _ _ _ rhsQ => (status, rhsQ);
     getInitialConditions := fun _ _ _ => ([1%float; 0%float], [0%float; 0%float]);
     nparams := 1;
     m_sens_params := [1%float];
     m_paramScales := [1%float];
     nConstraints := 0;
     constraint := fun _ => 0%Z;
     nQuadEquations := 0 |}.

(** The same provider with the constraints [>= 0, none] defined. *)
Definition constrained_provider : ResidJacEval :=
  {| evalResidNJ := fun _ _ _ _ r => (1%Z, r);
     evalQuadRhs := fun _ _ _ rhsQ => (1%Z, rhsQ);
     getInitialConditions := fun _ _ _ => ([1%float; 0%float], [0%float; 0%float]);
     nparams := 1;
     m_sens_params := [1%float];
     m_paramScales := [1%float];
     nConstraints := 1;
     constraint := fun i => match i with O => c_GE_ZERO | _ => c_NONE end;
     nQuadEquations := 0 |}.

Definition reply (flag : Z) (t : realtype) : ida_reply :=
  {| r_flag := flag; r_mem := Some 1; r_t := t;
     r_yy := [1%float; 0%float]; r_yp := [0%float; 0%float];
     r_yyS := [[0%float; 0%float]]; r_ypS := [[0%float; 0%float]];
     r_lenrw := 0%Z |}.

(** An engine that accepts every call; an advance reports [flag] and leaves
    the time [t] in its out-parameter. *)
Definition engine (flag : Z) (t : realtype) : IDA :=
  fun _ c =>
    match c with
    | IDASolve _ _ _ _ _ => reply flag t
    | _ => reply IDA_SUCCESS t
    end.

(** An engine that accepts every call but a stop time, as the engine does
    for a stop time behind the time it has reached. *)
Definition engine_rejecting_stop_time (t : realtype) : IDA :=
  fun _ c =>
    match c with
    | IDASetStopTime _ _ => reply IDA_ILL_INPUT t
    | _ => reply IDA_SUCCESS t
    end.

(** A fresh adapter of two equations and [ns] sensitivity parameters, with
    nothing logged or printed. *)
Definition fresh (ns : nat) : World :=
  {| self := IDA_Solver_new 2 ns; ida_log := []; cout := [] |}.

(** The world an action leaves. *)
Definition after {A} (m : M A) (w : World) : World := snd (m w).

(** The adapter on one sensitivity parameter after [init(1.0)]. *)
Definition started (e : IDA) : World :=
  after (init (provider 1) e 7%float 1%float) (fresh 1).

(** The same adapter after [step(2.0)]. *)
Definition stepped (e : IDA) : World :=
  after (step e 2%float) (started e).

(** The last call the engine received. *)
Definition last_call (w : World) : option ida_call :=
  option_map fst (last (map Some (ida_log w)) None).

(** The return contract of the engine's callbacks, for one status of the
    provider and one value returned to the engine. *)
Definition follows_contract (status returned : Z) : Prop :=
  (status = 0 -> returned = 0)%Z /\
  (0 < status -> 0 < returned)%Z /\
  (status < 0 -> returned < 0)%Z.

(** The first cell of a vector compares equal to [x]. *)
Definition first_cell_is (x : float) (v : N_Vector) : bool :=
  match v with
  | Some (c :: _) => PrimFloat.eqb c x
  | _ => false
  end.

End Fixture.

(** * Properties *)

(** ** Comparisons of doubles *)

Lemma SFcompare_Lt_swap (x y : spec_float) :
  SFcompare x y = Some Lt -> SFcompare y x = Some Gt.
Proof.
  destruct x as [sx | sx | | sx mx ex], y as [sy | sy | | sy my ey]; simpl;
    try discriminate;
    try (destruct sx; intros H; inversion H; reflexivity);
    try (destruct sy; intros H; inversion H; reflexivity);
    try (destruct sx, sy; intros H; inversion H; reflexivity).
  change PosDef.Pos.compare_cont with Pos.compare_cont.
  assert (Hsw : Pos.compare_cont Eq my mx = CompOpp (Pos.compare_cont Eq mx my))
    by (rewrite Pos.compare_cont_antisym; reflexivity).
  destruct sx, sy; intros H; try (inversion H; reflexivity);
    rewrite (Z.compare_antisym ex ey);
    destruct (ex ?= ey)%Z eqn:E; simpl in *; try discriminate; try reflexivity;
    rewrite Hsw;
    destruct (Pos.compare_cont Eq mx my); simpl in *; try discriminate; reflexivity.
Qed.

(** [a < b] excludes [b <= a], also on infinities and NaN. *)
Lemma ltb_leb_false (a b : float) :
  (a <? b)%float = true -> (b <=? a)%float = false.
Proof.
  rewrite ltb_spec, leb_spec. unfold SFltb, SFleb.
  destruct (SFcompare (Prim2SF a) (Prim2SF b)) as [[ | | ] | ] eqn:E; try discriminate.
  intros _. rewrite (SFcompare_Lt_swap _ _ E). reflexivity.
Qed.

(** ** Running actions *)

Lemma bind_Ok {A B} (m : M A) (k : A -> M B) (w w' : World) (a : A) :
  m w = (Ok a, w') -> bind m k w = k a w'.
Proof. unfold bind. intros ->. reflexivity. Qed.

Lemma bind_Throw {A B} (m : M A) (k : A -> M B) (w w' : World) (e : CanteraError) :
  m w = (Throw e, w') -> bind m k w = (Throw e, w').
Proof. unfold bind. intros ->. reflexivity. Qed.

(** A [bind] that returns went through both of its parts. *)
Lemma bind_inv_Ok {A B} (m : M A) (k : A -> M B) (w w2 : World) (b : B) :
  bind m k w = (Ok b, w2) ->
  exists a w1, m w = (Ok a, w1) /\ k a w1 = (Ok b, w2).
Proof.
  unfold bind. destruct (m w) as [[a | e] w1]; intros H.
  - exists a, w1. split; [reflexivity | exact H].
  - discriminate.
Qed.

(** ** Postconditions *)

Lemma wp_bind {A B} (m : M A) (k : A -> M B) (Q : result B -> World -> Prop) (w : World) :
  wp m (fun r w1 => match r with
                    | Ok a => wp (k a) Q w1
                    | Throw e => Q (Throw e) w1
                    end) w ->
  wp (bind m k) Q w.
Proof. unfold wp, bind. destruct (m w) as [[a | e] w1]; simpl; auto. Qed.

Lemma wp_ret {A} (a : A) (Q : result A -> World -> Prop) (w : World) :
  Q (Ok a) w -> wp (ret a) Q w.
Proof. exact (fun H => H). Qed.

Lemma wp_throw {A} (proc msg : string) (args : list Z)
      (Q : result A -> World -> Prop) (w : World) :
  Q (Throw {| procedure := proc; message := msg; fmt_args := args |}) w ->
  wp (throw proc msg args) Q w.
Proof. exact (fun H => H). Qed.

Lemma wp_this (Q : result IDA_Solver -> World -> Prop) (w : World) :
  Q (Ok (self w)) w -> wp this Q w.
Proof. exact (fun H => H). Qed.

Lemma wp_modify (f : IDA_Solver -> IDA_Solver) (Q : result unit -> World -> Prop)
      (w : World) :
  Q (Ok tt) (set_self (f (self w)) w) -> wp (modify f) Q w.
Proof. exact (fun H => H). Qed.

Lemma wp_print (text : string) (Q : result unit -> World -> Prop) (w : World) :
  Q (Ok tt) (printed text w) -> wp (print text) Q w.
Proof. exact (fun H => H). Qed.

Lemma wp_call (ida : IDA) (c : ida_call) (Q : result ida_reply -> World -> Prop)
      (w : World) :
  Q (Ok (ida (ida_log w) c)) (logged (c, r_flag (ida (ida_log w) c)) w) ->
  wp (call ida c) Q w.
Proof. exact (fun H => H). Qed.

Lemma wp_at {A} (m : M A) (Q : result A -> World -> Prop) (w w' : World) (r : result A) :
  wp m Q w -> m w = (r, w') -> Q r w'.
Proof. unfold wp. intros H E. rewrite E in H. exact H. Qed.

Lemma wp_get {A} (m : M A) (Q : result A -> World -> Prop) (w : World) :
  wp m Q w -> Q (fst (m w)) (snd (m w)).
Proof. exact (fun H => H). Qed.

(** ** Loops over array cells *)

Lemma NV_set_at_length {A} (pre : list A) (o : A) (old : list A) (x : A) :
  NV_set (pre ++ o :: old) (List.length pre) x = pre ++ x :: old.
Proof. induction pre as [| a pre IH]; simpl; [reflexivity | rewrite IH; reflexivity]. Qed.

(** Writing [g x] for the [x] of [xs] at consecutive indices replaces that
    many cells. *)
Lemma NV_set_run {A B} (g : B -> A) (xs : list B) :
  forall (n : nat) (pre old : list A),
    List.length xs <= List.length old ->
    List.length xs <= n ->
    fold_left (fun v ix => NV_set v (fst ix) (g (snd ix)))
              (combine (seq (List.length pre) n) xs) (pre ++ old)
    = pre ++ map g xs ++ skipn (List.length xs) old.
Proof.
  induction xs as [| x xs IH]; intros n pre old Hold Hn.
  - destruct n; reflexivity.
  - destruct n as [| n]; [simpl in Hn; lia |].
    destruct old as [| o old]; [simpl in Hold; lia |].
    simpl. rewrite NV_set_at_length.
    replace (pre ++ g x :: old) with ((pre ++ [g x]) ++ old)
      by (rewrite <- app_assoc; reflexivity).
    replace (S (List.length pre)) with (List.length (pre ++ [g x]))
      by (rewrite length_app; simpl; lia).
    rewrite IH by (simpl in *; lia).
    rewrite <- app_assoc. reflexivity.
Qed.

(** Writing [h i] at the consecutive indices [i] fills that many cells. *)
Lemma NV_set_seq {A} (h : nat -> A) :
  forall (n : nat) (pre old : list A),
    n <= List.length old ->
    fold_left (fun v i => NV_set v i (h i)) (seq (List.length pre) n) (pre ++ old)
    = pre ++ map h (seq (List.length pre) n) ++ skipn n old.
Proof.
  induction n as [| n IH]; intros pre old Hold.
  - reflexivity.
  - destruct old as [| o old]; [simpl in Hold; lia |].
    simpl. rewrite NV_set_at_length.
    replace (pre ++ h (List.length pre) :: old)
      with ((pre ++ [h (List.length pre)]) ++ old)
      by (rewrite <- app_assoc; reflexivity).
    replace (S (List.length pre)) with (List.length (pre ++ [h (List.length pre)]))
      by (rewrite length_app; simpl; lia).
    rewrite IH by (simpl in *; lia).
    rewrite <- app_assoc. simpl.
    rewrite length_app. simpl. rewrite Nat.add_1_r. reflexivity.
Qed.

Lemma store_fold {A} (f : A -> nat * realtype) (l : list A) (v : list realtype) :
  fold_left (fun p x => match p with
                        | Some u => Some (NV_set u (fst (f x)) (snd (f x)))
                        | None => None
                        end) l (Some v)
  = Some (fold_left (fun u x => NV_set u (fst (f x)) (snd (f x))) l v).
Proof. revert v. induction l as [| x l IH]; intros v; simpl; [reflexivity | apply IH]. Qed.

(** A loop of assignments is one assignment of the folded object. *)
Lemma for_each_modify {A} (f : A -> IDA_Solver -> IDA_Solver) (l : list A) (w : World) :
  for_each l (fun x => modify (f x)) w
  = (Ok tt, {| self := fold_left (fun s x => f x s) l (self w);
               ida_log := ida_log w; cout := cout w |}).
Proof.
  revert w. induction l as [| x l IH]; intros w; simpl.
  - destruct w; reflexivity.
  - unfold bind at 1. unfold modify at 1. rewrite IH. reflexivity.
Qed.

Lemma for_each_ext {A} (b1 b2 : A -> M unit) (l : list A) (w : World) :
  (forall x v, b1 x v = b2 x v) -> for_each l b1 w = for_each l b2 w.
Proof.
  intros Hext. revert w. induction l as [| x l IH]; intros w; simpl; [reflexivity |].
  unfold bind. rewrite Hext. destruct (b2 x w) as [[[] | e] w1]; [apply IH | reflexivity].
Qed.

(** A field that each assignment of a fold updates on its own. *)
Lemma fold_left_field {A T} (proj : IDA_Solver -> T) (F : A -> IDA_Solver -> IDA_Solver)
      (phi : A -> T -> T) (l : list A) :
  (forall x s, proj (F x s) = phi x (proj s)) ->
  forall s, proj (fold_left (fun s x => F x s) l s) = fold_left (fun t x => phi x t) l (proj s).
Proof.
  intros Hstep. induction l as [| x l IH]; intros s; simpl; [reflexivity |].
  rewrite IH, Hstep. reflexivity.
Qed.

Lemma fold_left_id {A T} (l : list A) (t : T) : fold_left (fun t _ => t) l t = t.
Proof. induction l; simpl; auto. Qed.

Lemma wp_for_each_modify {A} (f : A -> IDA_Solver -> IDA_Solver) (l : list A)
      (Q : result unit -> World -> Prop) (w : World) :
  Q (Ok tt) (set_self (fold_left (fun s x => f x s) l (self w)) w) ->
  wp (for_each l (fun x => modify (f x))) Q w.
Proof. unfold wp. rewrite for_each_modify. exact (fun H => H). Qed.

Lemma wp_for_each_pure {A} (F : A -> IDA_Solver -> IDA_Solver) (body : A -> M unit)
      (l : list A) (Q : result unit -> World -> Prop) (w : World) :
  (forall x v, body x v = modify (F x) v) ->
  Q (Ok tt) (set_self (fold_left (fun s x => F x s) l (self w)) w) ->
  wp (for_each l body) Q w.
Proof.
  intros Hbody HQ. unfold wp.
  rewrite (for_each_ext body (fun x => modify (F x)) l w Hbody), for_each_modify.
  exact HQ.
Qed.

Lemma map_const_seq {A} (c : A) (n a : nat) : map (fun _ => c) (seq a n) = repeat c n.
Proof. revert a. induction n as [| n IH]; intros a; simpl; [| rewrite IH]; reflexivity. Qed.

(** A loop writing [h i] at every index of a vector of [n] cells. *)
Lemma store_seq_result (h : nat -> float) (n : nat) (v : list float) :
  List.length v = n ->
  fold_left (fun p i => store p i (h i)) (seq 0 n) (Some v) = Some (map h (seq 0 n)).
Proof.
  intros Hlen. unfold store.
  rewrite (store_fold (fun i : nat => (i, h i))). cbv beta. cbn [fst snd].
  pose proof (@NV_set_seq _ h n [] v) as Hrun. simpl in Hrun.
  rewrite Hrun by lia. rewrite skipn_all2 by lia. rewrite app_nil_r. reflexivity.
Qed.

Arguments wp : simpl never.
Arguments bind : simpl never.
Arguments for_each : simpl never.

(** One step of an action under [wp]; conditions are left to the proof. *)
Ltac wp_step :=
  lazymatch goal with
  | |- wp (bind _ _) _ _ => apply wp_bind
  | |- wp (ret _) _ _ => apply wp_ret
  | |- wp (throw _ _ _) _ _ => apply wp_throw
  | |- wp this _ _ => apply wp_this
  | |- wp (modify _) _ _ => apply wp_modify
  | |- wp (print _) _ _ => apply wp_print
  | |- wp (call _ _) _ _ => apply wp_call
  | |- wp (for_each _ _) _ _ => apply wp_for_each_modify
  end;
  cbv beta iota.

Ltac wp_run := repeat wp_step.

(** The worlds built by the steps, read field by field. *)
Ltac world_simpl :=
  cbn [self ida_log cout set_self logged printed fst snd] in *.

Lemma for_each_cons {A} (x : A) (l : list A) (body : A -> M unit) :
  for_each (x :: l) body = bind (body x) (fun _ => for_each l body).
Proof. reflexivity. Qed.

(** ** Frames *)

Section Frame.

Variable R : World -> World -> Prop.
Hypothesis R_refl : forall w, R w w.
Hypothesis R_trans : forall a b c, R a b -> R b c -> R a c.

Lemma preserves_ret {A} (a : A) : preserves R (ret a).
Proof. intros w. apply R_refl. Qed.

Lemma preserves_throw {A} (proc msg : string) (args : list Z) :
  preserves R (@throw A proc msg args).
Proof. intros w. apply R_refl. Qed.

Lemma preserves_this : preserves R this.
Proof. intros w. apply R_refl. Qed.

Lemma preserves_bind {A B} (m : M A) (k : A -> M B) :
  preserves R m -> (forall a, preserves R (k a)) -> preserves R (bind m k).
Proof.
  intros Hm Hk w. unfold bind. specialize (Hm w).
  destruct (m w) as [[a | e] w1]; simpl in *.
  - apply R_trans with w1; [exact Hm | apply Hk].
  - exact Hm.
Qed.

Lemma preserves_for_each {A} (l : list A) (body : A -> M unit) :
  (forall x, preserves R (body x)) -> preserves R (for_each l body).
Proof.
  intros Hb. induction l as [| x l IH].
  - apply (preserves_ret tt).
  - rewrite for_each_cons. apply preserves_bind; [apply Hb | intros _; exact IH].
Qed.

Lemma preserves_modify (f : IDA_Solver -> IDA_Solver) :
  (forall w, R w (set_self (f (self w)) w)) -> preserves R (modify f).
Proof. intros H w. apply H. Qed.

Lemma preserves_print (text : string) :
  (forall w, R w (printed text w)) -> preserves R (print text).
Proof. intros H w. apply H. Qed.

Lemma preserves_call (ida : IDA) (c : ida_call) :
  (forall w flag, R w (logged (c, flag) w)) -> preserves R (call ida c).
Proof. intros H w. apply H. Qed.

Lemma preserves_at {A} (m : M A) (w w' : World) (r : result A) :
  preserves R m -> m w = (r, w') -> R w w'.
Proof. intros H E. specialize (H w). rewrite E in H. exact H. Qed.

End Frame.

Lemma ida_constraints_logged (log : list ida_event) (ev : ida_event) :
  ida_constraints (log ++ [ev]) = ida_constraints_step (ida_constraints log) ev.
Proof. unfold ida_constraints. rewrite fold_left_app. reflexivity. Qed.

Lemma ida_constraints_kept (log : list ida_event) (c : ida_call) (flag : Z) :
  keeps_ida_constraints c = true ->
  ida_constraints (log ++ [(c, flag)]) = ida_constraints log.
Proof.
  intros H. rewrite ida_constraints_logged. destruct c; try discriminate; reflexivity.
Qed.

Lemma same_constraints_refl (w : World) : same_constraints w w.
Proof. repeat split. Qed.

Lemma same_constraints_trans (a b c : World) :
  same_constraints a b -> same_constraints b c -> same_constraints a c.
Proof.
  unfold same_constraints. intros (H1 & H2 & H3) (H4 & H5 & H6).
  repeat split; congruence.
Qed.

Lemma same_stored_refl (w : World) : same_stored w w.
Proof. split; reflexivity. Qed.

Lemma same_stored_trans (a b c : World) :
  same_stored a b -> same_stored b c -> same_stored a c.
Proof. unfold same_stored. intros (H1 & H2) (H3 & H4). split; congruence. Qed.

Lemma same_neq_refl (w : World) : same_neq w w.
Proof. reflexivity. Qed.

Lemma same_neq_trans (a b c : World) : same_neq a b -> same_neq b c -> same_neq a c.
Proof. unfold same_neq. congruence. Qed.

(** Frame steps for a relation [R] with proofs [Hrefl] and [Htrans]; [side]
    settles what an assignment, a print or a call does to [R]. *)
Ltac frame_with Hrefl Htrans side :=
  repeat
    lazymatch goal with
    | |- preserves _ (bind _ _) => apply preserves_bind; [exact Htrans | | intros ?]
    | |- preserves _ (ret _) => apply preserves_ret; exact Hrefl
    | |- preserves _ (throw _ _ _) => apply preserves_throw; exact Hrefl
    | |- preserves _ this => apply preserves_this; exact Hrefl
    | |- preserves _ (modify _) => apply preserves_modify; side
    | |- preserves _ (print _) => apply preserves_print; side
    | |- preserves _ (call _ _) => apply preserves_call; side
    | |- preserves _ (for_each _ _) =>
        apply preserves_for_each; [exact Hrefl | exact Htrans | intros ?]
    | |- preserves _ (when _ _) => unfold when
    | |- preserves _ (if ?b then _ else _) => destruct b
    | |- preserves _ (match ?e with pair _ _ => _ end) => destruct e
    end.

Ltac same_constraints_side :=
  intros; unfold same_constraints; cbn [self ida_log set_self logged printed];
  repeat split; apply ida_constraints_kept; reflexivity.

Ltac same_stored_side :=
  intros; unfold same_stored; cbn [self ida_log set_self logged printed];
  split; reflexivity.

Lemma same_times_refl (w : World) : same_times w w.
Proof. repeat split. Qed.

Lemma same_times_trans (a b c : World) :
  same_times a b -> same_times b c -> same_times a c.
Proof.
  unfold same_times. intros (H1 & H2 & H3 & H4) (H5 & H6 & H7 & H8).
  repeat split; congruence.
Qed.

Ltac same_times_side :=
  intros; unfold same_times; cbn [self ida_log set_self logged printed];
  repeat split; reflexivity.

Ltac frame_times := frame_with same_times_refl same_times_trans same_times_side.

Ltac same_neq_side :=
  intros; unfold same_neq; cbn [self ida_log set_self logged printed]; reflexivity.

Ltac frame_neq := frame_with same_neq_refl same_neq_trans same_neq_side.

Ltac frame_constraints :=
  frame_with same_constraints_refl same_constraints_trans same_constraints_side.

Ltac frame_stored :=
  frame_with same_stored_refl same_stored_trans same_stored_side.

Section AdapterFacts.

Variable m_resid : ResidJacEval.
Variable ida : IDA.
Variable indeterminate : realtype.

(** ** The callbacks *)

(** C1, as the code has it: the residual callback and the quadrature
    callback return the provider's status when it is negative and 0 for
    every other status, zero or positive; a positive status of the provider
    never reaches the engine. *)
Theorem callbacks_return_negative_or_zero
        (t : realtype) (y ydot r : list realtype) (w : World) :
  let delta_t := r_t (ida (ida_log w) (IDAGetCurrentStep (m_ida_mem (self w)))) in
  let status := fst (evalResidNJ m_resid t delta_t y ydot r) in
  let statusQ := fst (evalQuadRhs m_resid t y ydot r) in
  fst (ida_resid m_resid ida t y ydot r w)
    = Ok (if (status <? 0)%Z then status else 0%Z,
          snd (evalResidNJ m_resid t delta_t y ydot r)) /\
  fst (ida_quad_rhs m_resid ida t y ydot r w)
    = Ok (if (statusQ <? 0)%Z then statusQ else 0%Z,
          snd (evalQuadRhs m_resid t y ydot r)).
Proof.
  unfold ida_resid, ida_quad_rhs, getCurrentStepFromIDA, bind, this, call, ret; simpl.
  split.
  - destruct (evalResidNJ m_resid t _ y ydot r) as [flag r']; simpl.
    destruct (flag <? 0)%Z; reflexivity.
  - destruct (evalQuadRhs m_resid t y ydot r) as [flag r']; simpl.
    destruct (flag <? 0)%Z; reflexivity.
Qed.

(** ** step *)

(** C6, as the code has it: [step(tout)] with [tout <= m_tcurrent] throws
    its precondition error at once, with the object, the engine log and the
    output as they were (so no advance was asked of the engine and nothing
    passed in silence); with [tout > m_tcurrent] it asks the engine for
    exactly one advance in one-step mode, and what it returns is the time
    the engine reached, which is then the new [m_tcurrent], the step size
    being measured from the time before the call; it returns exactly when
    the engine's status is neither negative nor the warning: on a negative
    status and on the warning it throws, with [m_tcurrent] where it was. *)
Theorem step_requires_target_ahead (w : World) (tout : doublereal) :
  ((tout <=? m_tcurrent (self w))%float = true ->
   step ida tout w = (Throw step_precondition_error, w)) /\
  ((m_tcurrent (self w) <? tout)%float = true ->
   let c := IDASolve (m_ida_mem (self w)) tout (m_y (self w)) (m_ydot (self w))
                     IDA_ONE_STEP in
   let r := ida (ida_log w) c in
   let w' := snd (step ida tout w) in
   ida_log w' = ida_log w ++ [(c, r_flag r)] /\
   advances (ida_log w') = S (advances (ida_log w)) /\
   (forall t, fst (step ida tout w) = Ok t ->
              t = r_t r /\
              m_tcurrent (self w') = t /\
              m_told (self w') = m_tcurrent (self w) /\
              m_deltat (self w') = (t - m_tcurrent (self w))%float) /\
   ((0 <= r_flag r)%Z -> r_flag r <> IDA_WARNING ->
    fst (step ida tout w) = Ok (r_t r)) /\
   ((r_flag r < 0)%Z \/ r_flag r = IDA_WARNING ->
    fst (step ida tout w)
    = Throw (if (r_flag r <? 0)%Z then step_engine_error else step_warning_error) /\
    m_tcurrent (self w') = m_tcurrent (self w))).
Proof.
  split.
  - intros H. unfold step, bind, this, throw. simpl. rewrite H.
    destruct w; reflexivity.
  - intros H. apply ltb_leb_false in H.
    unfold step, bind, this, IDASolve_members, call, modify, ret, throw. simpl.
    rewrite H. simpl.
    set (r := ida (ida_log w) _).
    assert (Hadv : advances (ida_log w ++ [(IDASolve (m_ida_mem (self w)) tout
                     (m_y (self w)) (m_ydot (self w)) IDA_ONE_STEP, r_flag r)])
                   = S (advances (ida_log w))).
    { unfold advances. rewrite filter_app, length_app. simpl. lia. }
    assert (Hret : forall t : float,
               @Ok float (r_t r) = Ok t ->
               t = r_t r /\ r_t r = t /\ m_tcurrent (self w) = m_tcurrent (self w) /\
               (r_t r - m_tcurrent (self w))%float = (t - m_tcurrent (self w))%float).
    { intros t Ht. inversion Ht. repeat split. }
    destruct (r_flag r <? 0)%Z eqn:Hneg; simpl.
    + split; [reflexivity | split; [exact Hadv | split; [| split]]].
      * intros t Ht. discriminate.
      * intros Hpos. apply Z.ltb_lt in Hneg. lia.
      * intros _. split; reflexivity.
    + apply Z.ltb_ge in Hneg.
      destruct (r_flag r =? IDA_TSTOP_RETURN)%Z eqn:Hts; simpl.
      { apply Z.eqb_eq in Hts.
        split; [reflexivity | split; [exact Hadv | split; [exact Hret | split]]];
          [reflexivity |].
        intros [Hn | Hw]; [lia | rewrite Hts in Hw; discriminate]. }
      destruct (r_flag r =? IDA_ROOT_RETURN)%Z eqn:Hrt; simpl.
      { apply Z.eqb_eq in Hrt.
        split; [reflexivity | split; [exact Hadv | split; [exact Hret | split]]];
          [reflexivity |].
        intros [Hn | Hw]; [lia | rewrite Hrt in Hw; discriminate]. }
      destruct (r_flag r =? IDA_WARNING)%Z eqn:Hw; simpl.
      * split; [reflexivity | split; [exact Hadv | split; [| split]]].
        -- intros t Ht. discriminate.
        -- intros _ Hne. apply Z.eqb_eq in Hw. contradiction.
        -- intros _. split; reflexivity.
      * apply Z.eqb_neq in Hw.
        split; [reflexivity | split; [exact Hadv | split; [exact Hret | split]]];
          [reflexivity |].
        intros [Hn | Hw']; [lia | contradiction].
Qed.

(** ** solve *)

(** The loop of [solve] entered with the target not ahead of the current
    time: no pass reaches the engine. *)
Lemma solve_loop_target_reached (fuel : nat) (tout tretn : doublereal) (flag : Z)
      (w : World) :
  (tout <=? m_tcurrent (self w))%float = true ->
  exists w', solve_loop ida (S fuel) tout tretn flag w = Some (Ok flag, w') /\
             self w' = self w /\ ida_log w' = ida_log w.
Proof.
  intros H. simpl. destruct (tretn <? tout)%float.
  - rewrite H. eexists. split; [reflexivity | split; reflexivity].
  - exists w. repeat split.
Qed.

(** C7, as the code has it: [solve(tout)] entered with [tout <= m_tcurrent]
    first hands [tout] to the engine as the stop time. When the engine
    accepts it, solve asks for no advance, throws nothing, returns
    [IDA_SUCCESS], keeps the current time and clears the sensitivity flag, so
    a second call with the same target, its stop time accepted again, ends
    the same way. When the engine rejects the stop time, solve throws, also
    without an advance. *)
Theorem solve_target_reached (fuel : nat) (tout : doublereal) (w : World) :
  (tout <=? m_tcurrent (self w))%float = true ->
  let stop := fun v => IDASetStopTime (m_ida_mem (self v)) tout in
  (r_flag (ida (ida_log w) (stop w)) = IDA_SUCCESS ->
   exists w',
     solve ida (S fuel) tout w = Some (Ok IDA_SUCCESS, w') /\
     advances (ida_log w') = advances (ida_log w) /\
     m_tcurrent (self w') = m_tcurrent (self w) /\
     m_sens_ok (self w') = false /\
     (r_flag (ida (ida_log w') (stop w')) = IDA_SUCCESS ->
      exists w'',
        solve ida (S fuel) tout w' = Some (Ok IDA_SUCCESS, w'') /\
        advances (ida_log w'') = advances (ida_log w'))) /\
  (r_flag (ida (ida_log w) (stop w)) <> IDA_SUCCESS ->
   exists w',
     solve ida (S fuel) tout w = Some (Throw solve_error, w') /\
     advances (ida_log w') = advances (ida_log w)).
Proof.
  assert (Hone : forall v : World,
    (tout <=? m_tcurrent (self v))%float = true ->
    r_flag (ida (ida_log v) (IDASetStopTime (m_ida_mem (self v)) tout)) = IDA_SUCCESS ->
    exists v', solve ida (S fuel) tout v = Some (Ok IDA_SUCCESS, v') /\
               advances (ida_log v') = advances (ida_log v) /\
               m_tcurrent (self v') = m_tcurrent (self v) /\
               m_sens_ok (self v') = false).
  { intros v Hle Hacc. unfold solve, solve_stop_time, bind, this, call, throw, ret.
    cbv zeta. cbn [fst snd self ida_log cout]. rewrite Hacc. cbn [Z.eqb IDA_SUCCESS negb].
    match goal with
    | |- context [solve_loop ida (S fuel) tout ?tr ?fl ?v1] =>
        destruct (@solve_loop_target_reached fuel tout tr fl v1 Hle)
          as (v2 & Hloop & Hself & Hlog)
    end.
    rewrite Hloop. unfold solve_finish, bind, modify, ret. simpl.
    eexists. split; [reflexivity |]. simpl. rewrite Hself, Hlog. simpl.
    repeat split. unfold advances. rewrite filter_app, length_app. simpl. lia. }
  intros Hle stop. split.
  - intros Hacc. destruct (Hone w Hle Hacc) as (w' & Hrun & Hadv & Ht & Hok).
    exists w'. repeat split; auto.
    intros Hacc'. assert (Hle' : (tout <=? m_tcurrent (self w'))%float = true)
      by (rewrite Ht; exact Hle).
    destruct (Hone w' Hle' Hacc') as (w'' & Hrun' & Hadv' & _).
    exists w''. split; assumption.
  - intros Hrej. unfold solve, solve_stop_time, bind, this, call, throw, ret.
    cbv zeta. cbn [fst snd self ida_log cout].
    fold (stop w). apply Z.eqb_neq in Hrej. rewrite Hrej. simpl.
    eexists. split; [reflexivity |]. simpl.
    unfold advances. rewrite filter_app, length_app. simpl. lia.
Qed.

(** ** Warnings *)

(** C9, as the code has it: when the engine answers an advance with
    [IDA_WARNING], [step] throws, while a pass of the loop of [solve] prints
    the warning, throws nothing, takes the returned time as the current
    time, and the loop goes on from there. *)
Theorem warning_fatal_in_step_logged_in_solve
        (fuel : nat) (tout tretn : doublereal) (flag : Z) (w : World) :
  (m_tcurrent (self w) <? tout)%float = true ->
  let c := fun itask => IDASolve (m_ida_mem (self w)) tout (m_y (self w))
                                 (m_ydot (self w)) itask in
  (r_flag (ida (ida_log w) (c IDA_ONE_STEP)) = IDA_WARNING ->
   fst (step ida tout w) = Throw step_warning_error) /\
  (r_flag (ida (ida_log w) (c IDA_NORMAL)) = IDA_WARNING ->
   let t := r_t (ida (ida_log w) (c IDA_NORMAL)) in
   let w' := snd (solve_body ida tout w) in
   fst (solve_body ida tout w) = Ok (IDA_WARNING, t) /\
   cout w' = cout w ++ [("DAE Solver WARNING!" ++ endl)%string] /\
   m_tcurrent (self w') = t /\
   ((tretn <? tout)%float = true ->
    solve_loop ida (S fuel) tout tretn flag w
    = solve_loop ida fuel tout t IDA_WARNING w')).
Proof.
  intros Hlt c. apply ltb_leb_false in Hlt. split.
  - intros Hw. unfold step, bind, this, IDASolve_members, call, modify, ret, throw.
    simpl. rewrite Hlt. simpl. fold (c IDA_ONE_STEP). rewrite Hw. reflexivity.
  - intros Hw t w'.
    assert (Hbody : solve_body ida tout w = (Ok (IDA_WARNING, t), w')).
    { unfold w', t.
      unfold solve_body, bind, this, IDASolve_members, call, modify, ret, throw, print.
      simpl. fold (c IDA_NORMAL). rewrite Hw. reflexivity. }
    split; [rewrite Hbody; reflexivity |].
    split.
    { unfold w'.
      unfold solve_body, bind, this, IDASolve_members, call, modify, ret, throw, print.
      simpl. fold (c IDA_NORMAL). rewrite Hw. reflexivity. }
    split.
    { unfold w'.
      unfold solve_body, bind, this, IDASolve_members, call, modify, ret, throw, print.
      simpl. fold (c IDA_NORMAL). rewrite Hw. reflexivity. }
    intros Hin. simpl. rewrite Hin, Hlt, Hbody. reflexivity.
Qed.

(** ** sensitivity *)

(** C10: [sensitivity(k, p)] with an index out of range, a stale cache and
    at least one parameter still makes its fetch from the engine; when the
    fetch succeeds the call throws the range error of the offending index
    with [m_sens_ok] already set to true, so the object is not what it was
    before the failed call. *)
Theorem sensitivity_range_error_after_fetch (k p : nat) (w : World) :
  m_sens_ok (self w) = false ->
  m_ns (self w) <> 0 ->
  m_neq (self w) <= k \/ m_ns (self w) <= p ->
  let c := sens_fetch_call w in
  let flag := r_flag (ida (ida_log w) c) in
  let w' := snd (sensitivity ida indeterminate k p w) in
  is_sens_fetch (c, flag) = true /\
  ida_log w' = ida_log w ++ [(c, flag)] /\
  (flag = IDA_SUCCESS ->
   fst (sensitivity ida indeterminate k p w)
   = Throw (if m_neq (self w) <=? k then equation_range_error k
            else parameter_range_error p) /\
   m_sens_ok (self w') = true /\
   self w' <> self w).
Proof.
  intros Hstale Hns Hrange c flag w'.
  assert (Hns' : (m_ns (self w) =? 0) = false) by (apply Nat.eqb_neq; exact Hns).
  split.
  { unfold c, sens_fetch_call. destruct (double_to_bool (m_t0 (self w))); reflexivity. }
  unfold w', flag, c, sens_fetch_call.
  unfold sensitivity, sensitivity_fetch, when, bind, this, call, modify, ret, throw.
  simpl. rewrite Hstale, Hns'. simpl.
  destruct (double_to_bool (m_t0 (self w))) eqn:Hstart; simpl;
    match goal with |- context [(r_flag ?r =? IDA_SUCCESS)%Z] => set (rr := r) end;
    (destruct (r_flag rr =? IDA_SUCCESS)%Z eqn:Hf; simpl;
     [| split; [reflexivity |]; intros Hs; apply Z.eqb_neq in Hf; contradiction]);
    (destruct (m_neq (self w) <=? k) eqn:Hk; simpl;
     [| assert (Hp : (m_ns (self w) <=? p) = true)
          by (apply Nat.leb_le; apply Nat.leb_gt in Hk; destruct Hrange; [lia | assumption]);
        rewrite Hp; simpl]);
    (split; [reflexivity |]); intros _;
    (split; [reflexivity |]); (split; [reflexivity |]);
    intros Heq; apply (f_equal m_sens_ok) in Heq; simpl in Heq; congruence.
Qed.

(** ** Tolerances *)

(** What the copy loop of the vector overload touches. *)
Lemma copy_loop_fields (l : list (nat * float)) (s0 : IDA_Solver) :
  let s1 := fold_left (fun s ix => set_m_abstol (store (m_abstol s) (fst ix) (snd ix)) s) l s0 in
  m_ida_mem s1 = m_ida_mem s0 /\ m_itol s1 = m_itol s0 /\
  m_abstol s1 = fold_left (fun p ix => store p (fst ix) (snd ix)) l (m_abstol s0).
Proof.
  cbv zeta. repeat split.
  - rewrite (fold_left_field m_ida_mem
               (fun (ix : nat * float) s => set_m_abstol (store (m_abstol s) (fst ix) (snd ix)) s)
               (fun _ p => p)) by reflexivity.
    apply fold_left_id.
  - rewrite (fold_left_field m_itol
               (fun (ix : nat * float) s => set_m_abstol (store (m_abstol s) (fst ix) (snd ix)) s)
               (fun _ p => p)) by reflexivity.
    apply fold_left_id.
  - apply (fold_left_field m_abstol
               (fun (ix : nat * float) s => set_m_abstol (store (m_abstol s) (fst ix) (snd ix)) s)
               (fun ix p => store p (fst ix) (snd ix))). reflexivity.
Qed.

Lemma copy_loop_result (xs v : list float) (n : nat) :
  List.length xs = n -> List.length v = n ->
  fold_left (fun p (ix : nat * float) => store p (fst ix) (snd ix)) (combine (seq 0 n) xs) (Some v)
  = Some xs.
Proof.
  intros Hx Hv. unfold store.
  rewrite (store_fold (fun ix : nat * float => ix)).
  pose proof (@NV_set_run _ _ (fun x : float => x) xs n [] v) as Hrun.
  simpl in Hrun. rewrite Hrun by lia.
  rewrite map_id, skipn_all2 by lia. rewrite app_nil_r. reflexivity.
Qed.

(** C8, as the code has it: neither overload of [setTolerances] looks at
    the sign of what it is given. Both record the mode and the values (the
    vector overload copies the array into [m_abstol]); before [init], with
    no engine instance, they throw nothing and call nothing; with an engine
    instance they hand the values to the engine and throw exactly when its
    status is not [IDA_SUCCESS]. *)
Theorem setTolerances_records_without_validation
        (reltol abstol : doublereal) (abstolv : list doublereal) (w : World) :
  let rs := setTolerances ida reltol abstol w in
  let rv := setTolerances_vector ida indeterminate reltol abstolv w in
  (m_itol (self (snd rs)) = IDA_SS /\ m_reltol (self (snd rs)) = reltol /\
   m_abstols (self (snd rs)) = abstol /\
   match m_ida_mem (self w) with
   | None => fst rs = Ok tt /\ ida_log (snd rs) = ida_log w
   | Some h =>
       let c := IDASStolerances (Some h) reltol abstol in
       let flag := r_flag (ida (ida_log w) c) in
       ida_log (snd rs) = ida_log w ++ [(c, flag)] /\
       fst rs = if (flag =? IDA_SUCCESS)%Z then Ok tt
                else Throw (tolerances_error "Call to IDASStolerances failed.")
   end) /\
  (m_itol (self (snd rv)) = IDA_SV /\ m_reltol (self (snd rv)) = reltol /\
   (List.length abstolv = m_neq (self w) ->
    (forall v, m_abstol (self w) = Some v -> List.length v = m_neq (self w)) ->
    m_abstol (self (snd rv)) = Some abstolv) /\
   match m_ida_mem (self w) with
   | None => fst rv = Ok tt /\ ida_log (snd rv) = ida_log w
   | Some h =>
       let c := IDASVtolerances (Some h) reltol (m_abstol (self (snd rv))) in
       let flag := r_flag (ida (ida_log w) c) in
       ida_log (snd rv) = ida_log w ++ [(c, flag)] /\
       fst rv = if (flag =? IDA_SUCCESS)%Z then Ok tt
                else Throw (tolerances_error "Memory allocation failed.")
   end).
Proof.
  cbv zeta. split.
  - apply (wp_get (setTolerances ida reltol abstol)
             (fun r w' => m_itol (self w') = IDA_SS /\ m_reltol (self w') = reltol /\
                m_abstols (self w') = abstol /\
                match m_ida_mem (self w) with
                | None => r = Ok tt /\ ida_log w' = ida_log w
                | Some h =>
                    ida_log w' = ida_log w ++ [(IDASStolerances (Some h) reltol abstol,
                       r_flag (ida (ida_log w) (IDASStolerances (Some h) reltol abstol)))] /\
                    r = if (r_flag (ida (ida_log w) (IDASStolerances (Some h) reltol abstol))
                            =? IDA_SUCCESS)%Z then Ok tt
                        else Throw (tolerances_error "Call to IDASStolerances failed.")
                end)).
    unfold setTolerances. wp_run. world_simpl.
    cbn [m_ida_mem m_reltol m_abstols set_m_itol set_m_reltol set_m_abstols].
    destruct (m_ida_mem (self w)) as [h |]; cbn [non_null]; wp_run; world_simpl.
    + destruct (r_flag _ =? IDA_SUCCESS)%Z eqn:Hf; cbn [negb]; wp_run; world_simpl; 
        rewrite ?Hf; repeat split.
    + repeat split.
  - apply (wp_get (setTolerances_vector ida indeterminate reltol abstolv)
             (fun r w' => m_itol (self w') = IDA_SV /\ m_reltol (self w') = reltol /\
                (List.length abstolv = m_neq (self w) ->
                 (forall v, m_abstol (self w) = Some v -> List.length v = m_neq (self w)) ->
                 m_abstol (self w') = Some abstolv) /\
                match m_ida_mem (self w) with
                | None => r = Ok tt /\ ida_log w' = ida_log w
                | Some h =>
                    ida_log w' = ida_log w ++ [(IDASVtolerances (Some h) reltol (m_abstol (self w')),
                       r_flag (ida (ida_log w) (IDASVtolerances (Some h) reltol (m_abstol (self w')))))] /\
                    r = if (r_flag (ida (ida_log w) (IDASVtolerances (Some h) reltol (m_abstol (self w'))))
                            =? IDA_SUCCESS)%Z then Ok tt
                        else Throw (tolerances_error "Memory allocation failed.")
                end)).
    unfold setTolerances_vector, when. wp_run. world_simpl.
    cbn [m_abstol m_neq set_m_itol].
    set (l := combine (seq 0 (m_neq (self w))) abstolv).
    assert (Hfin : forall s0 : IDA_Solver,
      m_ida_mem s0 = m_ida_mem (self w) -> m_itol s0 = IDA_SV ->
      (List.length abstolv = m_neq (self w) ->
       (forall v, m_abstol (self w) = Some v -> List.length v = m_neq (self w)) ->
       exists v, m_abstol s0 = Some v /\ List.length v = m_neq (self w)) ->
      wp (for_each l (fun ix : nat * float =>
               modify (fun s : IDA_Solver =>
                  set_m_abstol (store (m_abstol s) (fst ix) (snd ix)) s));;
          modify (set_m_reltol reltol);;
          s <- this;;
          (if non_null (m_ida_mem s)
           then
            r0 <- call ida (IDASVtolerances (m_ida_mem s) (m_reltol s) (m_abstol s));;
            (if negb (r_flag r0 =? IDA_SUCCESS)%Z
             then throw "IDA_Solver::setTolerances" "Memory allocation failed." []
             else ret tt)
           else ret tt))
         (fun (r0 : result unit) (w' : World) =>
            m_itol (self w') = IDA_SV /\
            m_reltol (self w') = reltol /\
            (Datatypes.length abstolv = m_neq (self w) ->
             (forall v : list float,
              m_abstol (self w) = Some v -> Datatypes.length v = m_neq (self w)) ->
             m_abstol (self w') = Some abstolv) /\
            match m_ida_mem (self w) with
            | Some h =>
                ida_log w' =
                ida_log w ++
                [(IDASVtolerances (Some h) reltol (m_abstol (self w')),
                  r_flag (ida (ida_log w)
                       (IDASVtolerances (Some h) reltol (m_abstol (self w')))))] /\
                r0 =
                (if (r_flag (ida (ida_log w)
                        (IDASVtolerances (Some h) reltol (m_abstol (self w')))) =?
                   IDA_SUCCESS)%Z
                 then Ok tt
                 else Throw (tolerances_error "Memory allocation failed."))
            | None => r0 = Ok tt /\ ida_log w' = ida_log w
            end)
         (set_self s0 w)).
    { intros s0 Hm Hi Hvec. wp_run. world_simpl.
      destruct (copy_loop_fields l s0) as (Hm1 & Hi1 & Ha1).
      cbn [m_ida_mem m_reltol m_abstol m_itol set_m_reltol].
      rewrite Hm1, Hm.
      assert (Hcopy : Datatypes.length abstolv = m_neq (self w) ->
             (forall v : list float,
              m_abstol (self w) = Some v -> Datatypes.length v = m_neq (self w)) ->
             m_abstol (fold_left (fun s ix => set_m_abstol (store (m_abstol s) (fst ix) (snd ix)) s) l s0)
             = Some abstolv).
      { intros Hlen Hold. destruct (Hvec Hlen Hold) as (v & Hv & Hvl).
        rewrite Ha1, Hv. apply copy_loop_result; assumption. }
      destruct (m_ida_mem (self w)) as [h |]; cbn [non_null]; wp_run; world_simpl.
      - destruct (r_flag _ =? IDA_SUCCESS)%Z eqn:Hf; cbn [negb]; wp_run; world_simpl;
          cbn [m_ida_mem m_reltol m_abstol m_itol set_m_reltol];
          rewrite ?Hf, ?Hi1; repeat split; auto.
      - cbn [m_ida_mem m_reltol m_abstol m_itol set_m_reltol].
        rewrite ?Hi1; repeat split; auto. }
    destruct (m_abstol (self w)) as [v0 |] eqn:Hab; cbn [non_null negb]; wp_step;
      world_simpl.
    + apply (Hfin (set_m_itol IDA_SV (self w))); [reflexivity | reflexivity |].
      intros Hlen Hold. exists v0. split; [exact Hab | apply Hold; reflexivity].
    + apply (Hfin (set_m_abstol (N_VNew_Serial indeterminate (m_neq (self w)))
                                (set_m_itol IDA_SV (self w)))); [reflexivity | reflexivity |].
      intros Hlen Hold. exists (repeat indeterminate (m_neq (self w))).
      split; [reflexivity | apply repeat_length].
Qed.

(** ** Constraints *)

(** An array whose first invalid tag comes after [pre]: the indices read. *)
Lemma combine_seq_split (pre post : list Z) (bad : Z) :
  forall a n : nat,
    List.length pre < n ->
    combine (seq a n) (pre ++ bad :: post)
    = combine (seq a (List.length pre)) pre
      ++ (a + List.length pre, bad)
      :: combine (seq (S (a + List.length pre)) (n - S (List.length pre))) post.
Proof.
  induction pre as [| x pre IH]; intros a n Hn.
  - destruct n as [| n]; [simpl in Hn; lia |].
    simpl. rewrite Nat.add_0_r, Nat.sub_0_r. reflexivity.
  - destruct n as [| n]; [simpl in Hn; lia |].
    simpl. rewrite IH by (simpl in Hn; lia).
    replace (S a + List.length pre) with (a + S (List.length pre)) by lia.
    reflexivity.
Qed.

(** The loop of [setConstraints] stores the valid tags it meets and throws
    at the first invalid one, after printing its line. *)
Lemma setConstraints_loop_invalid (pre : list Z) (bad : Z) (rest : list (nat * Z)) :
  forallb checkFlag pre = true ->
  checkFlag bad = false ->
  forall (a : nat) (w : World),
    for_each (combine (seq a (List.length pre)) pre ++ (a + List.length pre, bad) :: rest)
             setConstraints_body w
    = (Throw invalid_constraint_error,
       {| self := store_tags (combine (seq a (List.length pre)) pre) (self w);
          ida_log := ida_log w;
          cout := cout w ++ map cflag_line
                    (combine (seq a (List.length pre)) pre ++ [(a + List.length pre, bad)]) |}).
Proof.
  intros Hpre Hbad. induction pre as [| x pre IH]; intros a w.
  - simpl combine. simpl app. rewrite for_each_cons.
    unfold bind, setConstraints_body, print, throw. simpl. rewrite Hbad. reflexivity.
  - simpl in Hpre. apply andb_prop in Hpre. destruct Hpre as [Hx Hpre].
    simpl List.length. simpl combine. simpl app. rewrite for_each_cons.
    replace (a + S (List.length pre)) with (S a + List.length pre) by lia.
    unfold bind at 1. unfold setConstraints_body at 1. cbv zeta. cbn [fst snd].
    rewrite Hx. cbn [negb]. unfold bind at 1. unfold print at 1. unfold modify at 1.
    cbn [fst snd]. rewrite (IH Hpre). simpl. rewrite <- app_assoc. reflexivity.
Qed.

Lemma store_tags_fields (l : list (nat * Z)) (s : IDA_Solver) :
  m_ida_mem (store_tags l s) = m_ida_mem s /\
  m_neq (store_tags l s) = m_neq s /\
  m_constraints (store_tags l s)
  = fold_left (fun p ix => store p (fst ix) (int_to_double (snd ix))) l (m_constraints s).
Proof.
  unfold store_tags. repeat split.
  - rewrite (fold_left_field m_ida_mem
       (fun (ix : nat * Z) s => set_m_constraints
                          (store (m_constraints s) (fst ix) (int_to_double (snd ix))) s)
       (fun _ p => p)) by reflexivity.
    apply fold_left_id.
  - rewrite (fold_left_field m_neq
       (fun (ix : nat * Z) s => set_m_constraints
                          (store (m_constraints s) (fst ix) (int_to_double (snd ix))) s)
       (fun _ p => p)) by reflexivity.
    apply fold_left_id.
  - apply (fold_left_field m_constraints
       (fun (ix : nat * Z) s => set_m_constraints
                          (store (m_constraints s) (fst ix) (int_to_double (snd ix))) s)
       (fun ix p => store p (fst ix) (int_to_double (snd ix)))). reflexivity.
Qed.

(** The cells the valid tags [xs] overwrite in a vector of at least as many. *)
Lemma store_tags_result (xs : list Z) (v : list float) :
  List.length xs <= List.length v ->
  fold_left (fun p (ix : nat * Z) => store p (fst ix) (int_to_double (snd ix)))
            (combine (seq 0 (List.length xs)) xs) (Some v)
  = Some (map int_to_double xs ++ skipn (List.length xs) v).
Proof.
  intros Hlen. unfold store.
  rewrite (store_fold (fun ix : nat * Z => (fst ix, int_to_double (snd ix)))).
  cbv beta. cbn [fst snd].
  pose proof (@NV_set_run _ _ int_to_double xs (List.length xs) [] v) as Hrun.
  simpl in Hrun. rewrite Hrun by lia. reflexivity.
Qed.

(** C4, as the code has it: when the array's first invalid tag is at an
    index the loop reads, [setConstraints] throws its error and calls
    nothing, so the engine holds the constraints it held; in the stored
    vector the cells before that index hold the tags of the new array and
    the cells from that index on are what they were (indeterminate when
    this call allocated the vector). *)
Theorem setConstraints_invalid_tag_keeps_prefix
        (pre post : list Z) (bad : Z) (w : World) :
  forallb checkFlag pre = true ->
  checkFlag bad = false ->
  List.length pre < m_neq (self w) ->
  (forall v, m_constraints (self w) = Some v -> List.length v = m_neq (self w)) ->
  let r := setConstraints ida indeterminate (pre ++ bad :: post) w in
  fst r = Throw invalid_constraint_error /\
  ida_log (snd r) = ida_log w /\
  ida_constraints (ida_log (snd r)) = ida_constraints (ida_log w) /\
  m_constraints (self (snd r))
  = Some (map int_to_double pre
          ++ skipn (List.length pre) (constraints_before indeterminate (self w))).
Proof.
  intros Hpre Hbad Hlen Hold.
  assert (Hloop : forall w0 : World,
    ida_log w0 = ida_log w ->
    m_constraints (self w0) = Some (constraints_before indeterminate (self w)) ->
    wp (for_each (combine (seq 0 (m_neq (self w))) (pre ++ bad :: post))
                 setConstraints_body ;;
        s <- this ;;
        (if non_null (m_ida_mem s) then
           r <- call ida (IDASetConstraints (m_ida_mem s) (m_constraints s)) ;;
           (if negb (r_flag r =? IDA_SUCCESS)%Z
            then throw "IDA_Solver::setConstraints" "IDASetConstraint failed." []
            else ret tt)
         else ret tt))
       (fun r w' =>
          r = Throw invalid_constraint_error /\
          ida_log w' = ida_log w /\
          ida_constraints (ida_log w') = ida_constraints (ida_log w) /\
          m_constraints (self w')
          = Some (map int_to_double pre
                  ++ skipn (List.length pre) (constraints_before indeterminate (self w))))
       w0).
  { intros w0 Hlog Hc. apply wp_bind. unfold wp.
    rewrite (combine_seq_split pre post bad 0 _ Hlen).
    rewrite (setConstraints_loop_invalid pre bad _ Hpre Hbad).
    world_simpl.
    destruct (store_tags_fields (combine (seq 0 (List.length pre)) pre) (self w0))
      as (_ & _ & Hcs).
    rewrite Hcs, Hc, Hlog.
    rewrite store_tags_result; [repeat split |].
    unfold constraints_before.
    destruct (m_constraints (self w)) as [v |] eqn:Hv.
    - rewrite (Hold v eq_refl). lia.
    - rewrite repeat_length. lia. }
  cbv zeta. apply wp_get. unfold setConstraints, when. wp_step. wp_step.
  apply wp_bind.
  destruct (m_constraints (self w)) as [v |] eqn:Hv; cbn [non_null negb]; wp_step;
    cbv beta iota; apply Hloop; world_simpl; try reflexivity.
  - unfold constraints_before. rewrite Hv. reflexivity.
  - unfold constraints_before. rewrite Hv. reflexivity.
Qed.

(** ** init and the constraints *)

Lemma init_tolerances_frame : preserves same_constraints (init_tolerances ida).
Proof. unfold init_tolerances. frame_constraints. Qed.

Lemma init_linear_solver_frame : preserves same_constraints (init_linear_solver ida).
Proof. unfold init_linear_solver. frame_constraints. Qed.

Lemma init_sensitivity_frame (t0 : doublereal) :
  preserves same_constraints (init_sensitivity m_resid ida indeterminate t0).
Proof. unfold init_sensitivity, sensInit. frame_constraints. Qed.

Lemma init_options_frame : preserves same_constraints (init_options ida).
Proof. unfold init_options, init_option. frame_constraints. Qed.

Lemma init_quadrature_frame : preserves same_constraints (init_quadrature m_resid ida).
Proof. unfold init_quadrature. frame_constraints. Qed.

Lemma init_engine_frame : preserves same_stored (init_engine ida).
Proof. unfold init_engine. frame_stored. Qed.

Lemma zero_cells_fields (l : list nat) (s : IDA_Solver) :
  m_neq (fold_left (fun s i => zero_cells i s) l s) = m_neq s /\
  m_constraints (fold_left (fun s i => zero_cells i s) l s)
  = fold_left (fun p i => store p i 0%float) l (m_constraints s).
Proof.
  split.
  - rewrite (fold_left_field m_neq zero_cells (fun _ p => p)) by reflexivity.
    apply fold_left_id.
  - apply (fold_left_field m_constraints zero_cells (fun i p => store p i 0%float)).
    reflexivity.
Qed.

Lemma zero_quad_cells_fields (l : list nat) (s : IDA_Solver) :
  m_neq (fold_left (fun s i => zero_quad_cells i s) l s) = m_neq s /\
  m_constraints (fold_left (fun s i => zero_quad_cells i s) l s) = m_constraints s.
Proof.
  split.
  - rewrite (fold_left_field m_neq zero_quad_cells (fun _ p => p)) by reflexivity.
    apply fold_left_id.
  - rewrite (fold_left_field m_constraints zero_quad_cells (fun _ p => p)) by reflexivity.
    apply fold_left_id.
Qed.

(** The first part of [init] returns, with a constraint vector of zeros. *)
Lemma init_vectors_post (t0 : doublereal) (w : World) :
  wp (init_vectors m_resid indeterminate t0)
     (fun r w' => r = Ok tt /\
                  m_constraints (self w') = Some (repeat 0%float (m_neq (self w))) /\
                  m_neq (self w') = m_neq (self w))
     w.
Proof.
  unfold init_vectors, when. wp_run. world_simpl.
  apply (wp_for_each_pure zero_cells); [reflexivity |]. cbv beta iota.
  apply wp_bind.
  set (tail :=
         (for_each (seq 0 (nQuadEquations m_resid))
            (fun i : nat =>
             modify (fun s : IDA_Solver => set_m_yQ (store (m_yQ s) i 0%float) s);;
             modify (fun s : IDA_Solver => set_m_yQdot (store (m_yQdot s) i 0%float) s));;
          s <- this;;
          (let '(y, ydot) :=
             getInitialConditions m_resid (m_t0 s) (NV_DATA_S (m_y s))
                                  (NV_DATA_S (m_ydot s)) in
           modify (set_m_y (written (m_y s) y));;
           modify (set_m_ydot (written (m_ydot s) ydot))))).
  assert (Htail : forall w0 : World,
    m_constraints (self w0) = Some (repeat 0%float (m_neq (self w))) ->
    m_neq (self w0) = m_neq (self w) ->
    wp tail
       (fun r w' => r = Ok tt /\
                  m_constraints (self w') = Some (repeat 0%float (m_neq (self w))) /\
                  m_neq (self w') = m_neq (self w))
       w0).
  { intros w0 Hc Hn. unfold tail. apply wp_bind.
    apply (wp_for_each_pure zero_quad_cells); [reflexivity |]. cbv beta iota.
    wp_run. world_simpl.
    destruct (getInitialConditions m_resid _ _ _) as [y ydot]. wp_run. world_simpl.
    cbn [m_constraints m_neq set_m_y set_m_ydot].
    destruct (zero_quad_cells_fields (seq 0 (nQuadEquations m_resid)) (self w0))
      as [Hq1 Hq2].
    rewrite Hq1, Hq2. repeat split; assumption. }
  match goal with
  | |- wp _ _ (set_self (fold_left _ ?l ?s0) _) =>
      destruct (zero_cells_fields l s0) as [Hz1 Hz2]
  end.
  world_simpl.
  cbn [m_constraints m_neq set_m_t0 set_m_told set_m_told_old set_m_tcurrent
       set_m_y set_m_ydot set_m_constraints] in Hz1, Hz2.
  unfold N_VNew_Serial in *. rewrite store_seq_result in Hz2 by apply repeat_length.
  rewrite map_const_seq in Hz2.
  destruct (negb (nQuadEquations m_resid =? 0)); wp_run; world_simpl; apply Htail;
    world_simpl; cbn [m_constraints m_neq set_m_yQ set_m_yQdot]; assumption.
Qed.

(** A new engine instance holds no constraints, whatever [init] does next
    with it. *)
Lemma init_engine_resets (w : World) :
  wp (init_engine ida) (fun _ w' => ida_constraints (ida_log w') = None) w.
Proof.
  unfold init_engine, when. wp_step. wp_step. apply wp_bind.
  assert (Hrest : forall w0 : World,
    wp (r <- call ida IDACreate ;;
        modify (set_m_ida_mem (r_mem r)) ;;
        s <- this ;;
        r <- call ida (IDAInit (m_ida_mem s) (m_t0 s) (m_y s) (m_ydot s)) ;;
        (let flag := r_flag r in
         if negb (flag =? IDA_SUCCESS)%Z then
           if (flag =? IDA_MEM_FAIL)%Z then
             throw "IDA_Solver::init" "Memory allocation failed." []
           else if (flag =? IDA_ILL_INPUT)%Z then
             throw "IDA_Solver::init" "Illegal value for IDAInit input argument." []
           else throw "IDA_Solver::init" "IDAInit failed." []
         else ret tt))
       (fun _ w' => ida_constraints (ida_log w') = None) w0).
  { intros w0. wp_run. cbv zeta.
    repeat match goal with |- wp (if ?b then _ else _) _ _ => destruct b end;
      wp_run; world_simpl; rewrite !ida_constraints_logged; reflexivity. }
  destruct (non_null (m_ida_mem (self w))); wp_run; apply Hrest.
Qed.

Lemma provider_cells_fields (l : list nat) (s : IDA_Solver) :
  m_neq (fold_left (fun s i => provider_cells m_resid i s) l s) = m_neq s /\
  m_ida_mem (fold_left (fun s i => provider_cells m_resid i s) l s) = m_ida_mem s /\
  m_constraints (fold_left (fun s i => provider_cells m_resid i s) l s)
  = fold_left (fun p i => store p i (int_to_double (constraint m_resid i))) l
              (m_constraints s).
Proof.
  repeat split.
  - rewrite (fold_left_field m_neq (provider_cells m_resid) (fun _ p => p)) by reflexivity.
    apply fold_left_id.
  - rewrite (fold_left_field m_ida_mem (provider_cells m_resid) (fun _ p => p)) by reflexivity.
    apply fold_left_id.
  - apply (fold_left_field m_constraints (provider_cells m_resid)
             (fun i p => store p i (int_to_double (constraint m_resid i)))).
    reflexivity.
Qed.

(** The constraint part of [init] on a vector of [m_neq] cells: nothing
    without provider constraints; otherwise the provider's tags are stored
    and, when the part returns, held by the engine. *)
Lemma init_constraints_post (w : World) (v : list float) :
  m_constraints (self w) = Some v ->
  List.length v = m_neq (self w) ->
  wp (init_constraints m_resid ida)
     (fun r w' =>
        r = Ok tt ->
        m_neq (self w') = m_neq (self w) /\
        if nConstraints m_resid =? 0
        then m_constraints (self w') = Some v /\
             ida_constraints (ida_log w') = ida_constraints (ida_log w)
        else m_constraints (self w') = Some (provider_constraints m_resid (m_neq (self w))) /\
             ida_constraints (ida_log w')
             = Some (provider_constraints m_resid (m_neq (self w))))
     w.
Proof.
  intros Hv Hlen. unfold init_constraints. wp_step. wp_step.
  destruct (nConstraints m_resid =? 0); cbn [negb].
  - wp_step. intros _. repeat split. exact Hv.
  - apply wp_bind. apply (wp_for_each_pure (provider_cells m_resid)); [reflexivity |].
    cbv beta iota. wp_run. world_simpl.
    destruct (provider_cells_fields (seq 0 (m_neq (self w))) (self w))
      as (Hn & Hm & Hc).
    rewrite Hv, store_seq_result in Hc by exact Hlen.
    fold (provider_constraints m_resid (m_neq (self w))) in Hc.
    destruct (r_flag _ =? IDA_SUCCESS)%Z eqn:Hf; cbn [negb]; wp_run; world_simpl.
    + intros _. rewrite ida_constraints_logged. cbn [ida_constraints_step].
      rewrite Hf, Hn, Hc. repeat split.
    + discriminate.
Qed.

Lemma setConstraints_frame (flags : list Z) :
  preserves same_neq (setConstraints ida indeterminate flags).
Proof. unfold setConstraints, setConstraints_body. frame_neq. Qed.

Lemma init_phases (t0 : doublereal) (w : World) :
  init m_resid ida indeterminate t0 w
  = (init_vectors m_resid indeterminate t0 ;;
     init_engine ida ;;
     init_tolerances ida ;;
     init_linear_solver ida ;;
     init_sensitivity m_resid ida indeterminate t0 ;;
     init_options ida ;;
     init_constraints m_resid ida ;;
     init_quadrature m_resid ida) w.
Proof. reflexivity. Qed.

(** C3, as the code has it: [init] discards what the constraint setter
    stored before it. It zeroes the constraint vector, creates a new engine
    instance, and then takes the tags from the provider: when the provider
    defines constraints, its tags are stored and registered with the engine;
    when it defines none, the vector stays zero and the engine is given no
    constraints. *)
Theorem init_takes_constraints_from_provider
        (flags : list Z) (t0 : doublereal) (w w2 : World) :
  init m_resid ida indeterminate t0 (snd (setConstraints ida indeterminate flags w))
  = (Ok tt, w2) ->
  let n := m_neq (self w) in
  if nConstraints m_resid =? 0
  then m_constraints (self w2) = Some (repeat 0%float n) /\
       ida_constraints (ida_log w2) = None
  else m_constraints (self w2) = Some (provider_constraints m_resid n) /\
       ida_constraints (ida_log w2) = Some (provider_constraints m_resid n).
Proof.
  intros Hinit. cbv zeta.
  assert (Hn1 : m_neq (self (snd (setConstraints ida indeterminate flags w)))
                = m_neq (self w))
    by (apply (@preserves_at same_neq unit (setConstraints ida indeterminate flags) w _
                 (fst (setConstraints ida indeterminate flags w)));
        [apply setConstraints_frame | apply surjective_pairing]).
  remember (snd (setConstraints ida indeterminate flags w)) as w1 eqn:Hw1.
  clear Hw1. remember (m_neq (self w)) as n eqn:Hn. clear Hn.
  rewrite init_phases in Hinit.
  apply bind_inv_Ok in Hinit. destruct Hinit as ([] & wa & Ha & Hinit).
  apply bind_inv_Ok in Hinit. destruct Hinit as ([] & wb & Hb & Hinit).
  apply bind_inv_Ok in Hinit. destruct Hinit as ([] & wc & Hc & Hinit).
  apply bind_inv_Ok in Hinit. destruct Hinit as ([] & wd & Hd & Hinit).
  apply bind_inv_Ok in Hinit. destruct Hinit as ([] & we & He & Hinit).
  apply bind_inv_Ok in Hinit. destruct Hinit as ([] & wf & Hf & Hinit).
  apply bind_inv_Ok in Hinit. destruct Hinit as ([] & wg & Hg & Hh).
  destruct (@wp_at _ _ _ _ _ _ (init_vectors_post t0 w1) Ha) as (_ & Hca & Hna).
  destruct (@preserves_at _ _ _ _ _ _ init_engine_frame Hb) as (Hcb & Hnb).
  pose proof (@wp_at _ _ _ _ _ _ (init_engine_resets wa) Hb) as Hib. cbv beta in Hib.
  destruct (@preserves_at _ _ _ _ _ _ init_tolerances_frame Hc) as (Hcc & Hnc & Hic).
  destruct (@preserves_at _ _ _ _ _ _ init_linear_solver_frame Hd) as (Hcd & Hnd & Hid).
  destruct (@preserves_at _ _ _ _ _ _ (init_sensitivity_frame t0) He) as (Hce & Hne & Hie).
  destruct (@preserves_at _ _ _ _ _ _ init_options_frame Hf) as (Hcf & Hnf & Hif).
  destruct (@preserves_at _ _ _ _ _ _ init_quadrature_frame Hh) as (Hch & Hnh & Hih).
  assert (Hcw : m_constraints (self wf) = Some (repeat 0%float n)) by congruence.
  assert (Hnw : m_neq (self wf) = n) by congruence.
  assert (Hiw : ida_constraints (ida_log wf) = None) by congruence.
  assert (Hlen : List.length (repeat 0%float n) = m_neq (self wf))
    by (rewrite repeat_length; congruence).
  pose proof (@wp_at _ _ _ _ _ _ (init_constraints_post wf _ Hcw Hlen) Hg eq_refl)
    as (Hng & Hpost).
  rewrite Hch, Hih. rewrite Hnw in Hpost.
  destruct (nConstraints m_resid =? 0).
  - destruct Hpost as (Hcg & Hig). split; congruence.
  - exact Hpost.
Qed.

(** ** Time bookkeeping *)

(** The configuration setters, the correctors and the read accessors leave
    the four time fields as they are, returning or throwing. *)
Lemma setters_keep_time_bookkeeping :
  (forall reltol abstol, preserves same_times (setTolerances ida reltol abstol)) /\
  (forall reltol abstol,
      preserves same_times (setTolerances_vector ida indeterminate reltol abstol)) /\
  (forall r a, preserves same_times (setSensitivityTolerances r a)) /\
  (forall t, preserves same_times (setLinearSolverType t)) /\
  preserves same_times setDenseLinearSolver /\
  (forall u l, preserves same_times (setBandedLinearSolver u l)) /\
  (forall n, preserves same_times (setMaxOrder n)) /\
  (forall n, preserves same_times (setMaxNumSteps n)) /\
  (forall h, preserves same_times (setInitialStepSize h)) /\
  (forall t, preserves same_times (setStopTime t)) /\
  (forall n, preserves same_times (setMaxErrTestFailures n)) /\
  (forall n, preserves same_times (setMaxNonlinIterations n)) /\
  (forall n, preserves same_times (setMaxNonlinConvFailures n)) /\
  (forall b, preserves same_times (inclAlgebraicInErrorTest b)) /\
  (forall j, preserves same_times (setJacobianType ida j)) /\
  (forall k c, preserves same_times (setConstraint ida indeterminate k c)) /\
  (forall cs, preserves same_times (setConstraints ida indeterminate cs)) /\
  (forall y yp t,
      preserves same_times (correctInitial_Y_given_Yp ida indeterminate y yp t)) /\
  (forall y yp t,
      preserves same_times (correctInitial_YaYp_given_Yd ida indeterminate y yp t)) /\
  preserves same_times (quadratureVector m_resid ida) /\
  (forall f, preserves same_times (getOutputParameter ida f)) /\
  (forall k, preserves same_times (solution indeterminate k)) /\
  (forall k, preserves same_times (derivative indeterminate k)) /\
  preserves same_times getCurrentTimeFromIDA.
Proof.
  repeat match goal with |- _ /\ _ => split end; intros;
    unfold setTolerances, setTolerances_vector, setSensitivityTolerances,
      setDenseLinearSolver, setLinearSolverType, setBandedLinearSolver, setMaxOrder,
      setMaxNumSteps, setInitialStepSize, setStopTime, setMaxErrTestFailures,
      setMaxNonlinIterations, setMaxNonlinConvFailures, inclAlgebraicInErrorTest,
      setJacobianType, setConstraint, setConstraints, setConstraints_body,
      correctInitial_Y_given_Yp, correctInitial_YaYp_given_Yd, correctInitial,
      quadratureVector, getOutputParameter, solution, derivative,
      getCurrentTimeFromIDA;
    cbv zeta; frame_times.
Qed.

End AdapterFacts.

(** * Concrete runs *)

Import Fixture.

(** C1, the claim as stated fails: the provider reports the positive status
    1 and the residual callback returns 0 to the engine, not a positive
    value. *)
Lemma callback_hides_positive_status :
  let p := provider 1 in
  let e := engine 0 0.5%float in
  let y := [1%float; 0%float] in
  let buf := [0%float; 0%float] in
  exists returned r,
    fst (evalResidNJ p 0%float 0.5%float y buf buf) = 1%Z /\
    fst (ida_resid p e 0%float y buf buf (started e)) = Ok (returned, r) /\
    ~ follows_contract 1 returned.
Proof.
  exists 0%Z, [0%float; 0%float]. split; [reflexivity |]. split.
  - vm_compute. reflexivity.
  - intros (_ & Hpos & _). specialize (Hpos eq_refl). lia.
Qed.

(** C2, the code at the failing inputs: past the start time (start 1,
    current time 1.5) [sensitivity] makes the consistent-initial-condition
    fetch, and at the start time 0 it makes the post-step fetch. *)
Lemma sensitivity_fetch_not_chosen_by_current_time :
  let e := engine 0 1.5%float in
  let w0 := after (init (provider 1) e 7%float 0%float) (fresh 1) in
  (m_t0 (self (stepped e)) = 1%float /\
   m_tcurrent (self (stepped e)) = 1.5%float /\
   last_call (after (sensitivity e 7%float 0 0) (stepped e))
   = Some (IDAGetSensConsistentIC (Some 1) (Some [[0%float; 0%float]])
                                  (Some [[0%float; 0%float]]))) /\
  (m_t0 (self w0) = 0%float /\
   m_tcurrent (self w0) = 0%float /\
   last_call (after (sensitivity e 7%float 0 0) w0)
   = Some (IDAGetSens (Some 1) (Some [[0%float; 0%float]]))).
Proof. repeat split; vm_compute; reflexivity. Qed.

(** C3, the claim as stated fails: the tags [>= 0, none] are stored by the
    setter before [init]; after [init] on a provider without constraints
    the stored vector is zero and the engine holds no constraints. *)
Lemma init_drops_setter_constraints :
  let e := engine 0 1.5%float in
  let w1 := after (setConstraints e 7%float [c_GE_ZERO; c_NONE]) (fresh 1) in
  let r := init (provider 1) e 7%float 0%float w1 in
  m_constraints (self w1) = Some [1%float; 0%float] /\
  fst r = Ok tt /\
  m_constraints (self (snd r)) = Some [0%float; 0%float] /\
  ida_constraints (ida_log (snd r)) = None /\
  ida_constraints (ida_log (snd r)) <> m_constraints (self w1).
Proof.
  repeat split; try (vm_compute; reflexivity).
  vm_compute. discriminate.
Qed.

(** C3 at a concrete input: the setter stores [none, <= 0], the provider
    defines [>= 0, none], and [init] leaves the provider's tags stored and
    registered. *)
Lemma init_takes_constraints_from_provider_witness :
  let e := engine 0 1.5%float in
  let w2 := snd (init constrained_provider e 7%float 0%float
                      (snd (setConstraints e 7%float [c_NONE; c_LE_ZERO] (fresh 1)))) in
  m_constraints (self w2) = Some (provider_constraints constrained_provider 2) /\
  ida_constraints (ida_log w2) = Some (provider_constraints constrained_provider 2).
Proof.
  intros e w2.
  assert (Hrun : init constrained_provider e 7%float 0%float
                      (snd (setConstraints e 7%float [c_NONE; c_LE_ZERO] (fresh 1)))
                 = (Ok tt, w2)) by (vm_compute; reflexivity).
  exact (init_takes_constraints_from_provider constrained_provider e 7%float
           [c_NONE; c_LE_ZERO] 0%float (fresh 1) w2 Hrun).
Defined.

(** C4, the claim as stated fails: with the vector [0, 0] stored and
    registered, the array [>= 0, 99] makes the setter throw after it has
    overwritten the first stored cell. *)
Lemma setConstraints_failure_not_atomic :
  let e := engine 0 1.5%float in
  let r := setConstraints e 7%float [c_GE_ZERO; 99%Z] (started e) in
  fst r = Throw invalid_constraint_error /\
  m_constraints (self (started e)) = Some [0%float; 0%float] /\
  m_constraints (self (snd r)) = Some [1%float; 0%float] /\
  m_constraints (self (snd r)) <> m_constraints (self (started e)).
Proof.
  repeat split; try (vm_compute; reflexivity).
  intros H. apply (f_equal (first_cell_is 1%float)) in H. vm_compute in H. discriminate.
Qed.

(** C4 at a concrete input: the array [>= 0, 99] on the initialised
    adapter. *)
Lemma setConstraints_invalid_tag_keeps_prefix_witness :
  let e := engine 0 1.5%float in
  let r := setConstraints e 7%float ([c_GE_ZERO] ++ 99%Z :: []) (started e) in
  fst r = Throw invalid_constraint_error /\
  ida_log (snd r) = ida_log (started e) /\
  ida_constraints (ida_log (snd r)) = ida_constraints (ida_log (started e)) /\
  m_constraints (self (snd r))
  = Some (map int_to_double [c_GE_ZERO]
          ++ skipn 1 (constraints_before 7%float (self (started e)))).
Proof.
  intros e.
  apply (setConstraints_invalid_tag_keeps_prefix e 7%float [c_GE_ZERO] [] 99%Z (started e)).
  - reflexivity.
  - reflexivity.
  - vm_compute. lia.
  - intros v Hv. vm_compute in Hv. inversion Hv. reflexivity.
Defined.

(** C5, the code at the failing input: after a step from 1 to 1.5 a call
    of [sensitivity] returns normally and leaves the current time at 1. *)
Lemma sensitivity_resets_current_time :
  let e := engine 0 1.5%float in
  let r := sensitivity e 7%float 0 0 (stepped e) in
  m_tcurrent (self (stepped e)) = 1.5%float /\
  fst r = Ok 0%float /\
  m_tcurrent (self (snd r)) = 1%float.
Proof. repeat split; vm_compute; reflexivity. Qed.

(** C6, the claim as stated fails: at current time 1 the target 2 lies
    ahead, the engine answers the advance with the status -4, and [step]
    throws instead of returning a new current time, which stays 1. *)
Lemma step_ahead_of_current_time_throws :
  let e := engine (-4) 1.5%float in
  let r := step e 2%float (started e) in
  (m_tcurrent (self (started e)) <? 2)%float = true /\
  fst r = Throw step_engine_error /\
  m_tcurrent (self (snd r)) = 1%float.
Proof. repeat split; vm_compute; reflexivity. Qed.

(** C6 at concrete inputs: at current time 1, [step(1.0)] throws and
    [step(2.0)] returns the time 1.5 the engine reached. *)
Lemma step_requires_target_ahead_witness :
  let e := engine 0 1.5%float in
  step e 1%float (started e) = (Throw step_precondition_error, started e) /\
  fst (step e 2%float (started e)) = Ok 1.5%float /\
  m_tcurrent (self (snd (step e 2%float (started e)))) = 1.5%float.
Proof.
  intros e. split.
  - apply (proj1 (step_requires_target_ahead e (started e) 1%float)).
    vm_compute. reflexivity.
  - assert (Hlt : (m_tcurrent (self (started e)) <? 2)%float = true)
      by (vm_compute; reflexivity).
    destruct (proj2 (step_requires_target_ahead e (started e) 2%float) Hlt)
      as (_ & _ & Hval & Hok & _).
    assert (Hpos : (0 <= r_flag (e (ida_log (started e))
                     (IDASolve (m_ida_mem (self (started e))) 2%float
                               (m_y (self (started e))) (m_ydot (self (started e)))
                               IDA_ONE_STEP)))%Z) by (vm_compute; discriminate).
    assert (Hnw : r_flag (e (ida_log (started e))
                     (IDASolve (m_ida_mem (self (started e))) 2%float
                               (m_y (self (started e))) (m_ydot (self (started e)))
                               IDA_ONE_STEP)) <> IDA_WARNING) by (vm_compute; discriminate).
    pose proof (Hok Hpos Hnw) as Hret.
    destruct (Hval _ Hret) as (_ & Hcur & _).
    split; [exact Hret | exact Hcur].
Defined.

(** C7, the claim as stated fails: at current time 1.5 the engine rejects
    the stop time 1, and [solve(1.0)] throws. *)
Lemma solve_behind_current_time_throws :
  let e := engine_rejecting_stop_time 1.5%float in
  (1 <=? m_tcurrent (self (stepped e)))%float = true /\
  exists w', solve e 1 1%float (stepped e) = Some (Throw solve_error, w').
Proof.
  split; [vm_compute; reflexivity |].
  eexists. vm_compute. reflexivity.
Qed.

(** C7 at a concrete input: at current time 1.5, [solve(1.0)] with the stop
    time accepted returns success without an advance. *)
Lemma solve_target_reached_witness :
  let e := engine 0 1.5%float in
  exists w', solve e 1 1%float (stepped e) = Some (Ok IDA_SUCCESS, w') /\
             advances (ida_log w') = advances (ida_log (stepped e)).
Proof.
  intros e.
  assert (Hle : (1 <=? m_tcurrent (self (stepped e)))%float = true)
    by (vm_compute; reflexivity).
  assert (Hacc : r_flag (e (ida_log (stepped e))
                   (IDASetStopTime (m_ida_mem (self (stepped e))) 1%float)) = IDA_SUCCESS)
    by (vm_compute; reflexivity).
  destruct (proj1 (solve_target_reached e 0 1%float (stepped e) Hle) Hacc)
    as (w' & Hrun & Hadv & _).
  exists w'. split; [exact Hrun | exact Hadv].
Defined.

(** C8, the claim as stated fails: before [init] both overloads accept
    negative tolerances, return, and record them. *)
Lemma setTolerances_accepts_negative :
  let e := engine 0 1.5%float in
  let rs := setTolerances e (-1)%float (-1)%float (fresh 1) in
  let rv := setTolerances_vector e 7%float (-1)%float [(-1)%float; 0%float] (fresh 1) in
  m_ida_mem (self (fresh 1)) = None /\
  fst rs = Ok tt /\
  m_reltol (self (snd rs)) = (-1)%float /\
  m_abstols (self (snd rs)) = (-1)%float /\
  fst rv = Ok tt /\
  m_reltol (self (snd rv)) = (-1)%float /\
  m_abstol (self (snd rv)) = Some [(-1)%float; 0%float].
Proof. repeat split; vm_compute; reflexivity. Qed.

(** C8 at a concrete input: the vector overload before [init] records the
    array [-1, 0]. *)
Lemma setTolerances_records_without_validation_witness :
  let e := engine 0 1.5%float in
  m_abstol (self (snd (setTolerances_vector e 7%float (-1)%float
                         [(-1)%float; 0%float] (fresh 1))))
  = Some [(-1)%float; 0%float].
Proof.
  intros e.
  destruct (setTolerances_records_without_validation e 7%float (-1)%float (-1)%float
              [(-1)%float; 0%float] (fresh 1)) as (_ & _ & _ & Hcopy & _).
  apply Hcopy.
  - reflexivity.
  - intros v Hv. vm_compute in Hv. discriminate.
Defined.

(** C9, the claim as stated fails: the engine answers the advance of
    [step] with the warning status and [step] throws. *)
Lemma step_throws_on_warning :
  let e := engine IDA_WARNING 1.5%float in
  fst (step e 2%float (started e)) = Throw step_warning_error.
Proof. vm_compute. reflexivity. Qed.

(** C9 at a concrete input: an engine that answers every advance with the
    warning status. *)
Lemma warning_fatal_in_step_logged_in_solve_witness :
  let e := engine IDA_WARNING 1.5%float in
  fst (step e 2%float (started e)) = Throw step_warning_error /\
  fst (solve_body e 2%float (started e)) = Ok (IDA_WARNING, 1.5%float) /\
  cout (snd (solve_body e 2%float (started e)))
  = cout (started e) ++ [("DAE Solver WARNING!" ++ endl)%string].
Proof.
  intros e.
  assert (Hlt : (m_tcurrent (self (started e)) <? 2)%float = true)
    by (vm_compute; reflexivity).
  destruct (warning_fatal_in_step_logged_in_solve e 0 2%float 0%float 0%Z (started e) Hlt)
    as (Hstep & Hsolve).
  split.
  - apply Hstep. vm_compute. reflexivity.
  - assert (Hw : r_flag (e (ida_log (started e))
                   (IDASolve (m_ida_mem (self (started e))) 2%float
                             (m_y (self (started e))) (m_ydot (self (started e)))
                             IDA_NORMAL)) = IDA_WARNING) by (vm_compute; reflexivity).
    destruct (Hsolve Hw) as (Hret & Hout & _).
    split; [exact Hret | exact Hout].
Defined.

(** C10 at a concrete input: equation index 5 of 2 after a step. *)
Lemma sensitivity_range_error_after_fetch_witness :
  let e := engine 0 1.5%float in
  let r := sensitivity e 7%float 5 0 (stepped e) in
  fst r = Throw (equation_range_error 5) /\
  m_sens_ok (self (stepped e)) = false /\
  m_sens_ok (self (snd r)) = true.
Proof.
  intros e r.
  assert (Hstale : m_sens_ok (self (stepped e)) = false) by (vm_compute; reflexivity).
  assert (Hns : m_ns (self (stepped e)) <> 0) by (vm_compute; discriminate).
  assert (Hrange : m_neq (self (stepped e)) <= 5 \/ m_ns (self (stepped e)) <= 0)
    by (left; vm_compute; lia).
  destruct (sensitivity_range_error_after_fetch e 7%float 5 0 (stepped e)
              Hstale Hns Hrange) as (_ & _ & Hok).
  assert (Hf : r_flag (e (ida_log (stepped e)) (sens_fetch_call (stepped e)))
               = IDA_SUCCESS) by (vm_compute; reflexivity).
  destruct (Hok Hf) as (Hthrow & Hflag & _).
  split; [exact Hthrow |]. split; [exact Hstale | exact Hflag].
Defined.

(** * Further properties of the adapter *)

(** ** Conversions *)

(** The conversion of a [long int] at the ends of its range and where a
    double has to round. *)
Lemma long_to_double_ends :
  long_to_double (- 2 ^ 63) = (-9223372036854775808)%float /\
  long_to_double (2 ^ 63 - 1) = 9223372036854775808%float /\
  long_to_double (2 ^ 53 + 1) = 9007199254740992%float /\
  long_to_double (-7) = (-7)%float /\
  long_to_double 0 = 0%float.
Proof. repeat split; vm_compute; reflexivity. Qed.

(** ** More frames *)

Lemma same_on_refl {T} (proj : World -> T) (w : World) : same_on proj w w.
Proof. reflexivity. Qed.

Lemma same_on_trans {T} (proj : World -> T) (a b c : World) :
  same_on proj a b -> same_on proj b c -> same_on proj a c.
Proof. unfold same_on. congruence. Qed.

Lemma log_extends_refl (w : World) : log_extends w w.
Proof. exists []. rewrite app_nil_r. reflexivity. Qed.

Lemma log_extends_trans (a b c : World) :
  log_extends a b -> log_extends b c -> log_extends a c.
Proof.
  intros [l1 H1] [l2 H2]. exists (l1 ++ l2). rewrite H2, H1, app_assoc. reflexivity.
Qed.

Lemma ida_held_logged {V} (sel : ida_call -> option V) (log : list ida_event)
      (ev : ida_event) :
  ida_held sel (log ++ [ev]) = ida_setting_step sel (ida_held sel log) ev.
Proof. unfold ida_held. rewrite fold_left_app. reflexivity. Qed.

Lemma ida_held_kept {V} (sel : ida_call -> option V) (log : list ida_event)
      (c : ida_call) (flag : Z) :
  keeps_setting sel c = true ->
  ida_held sel (log ++ [(c, flag)]) = ida_held sel log.
Proof.
  intros H. rewrite ida_held_logged. unfold ida_setting_step, keeps_setting in *.
  cbn [fst snd]. destruct c; try discriminate; destruct (sel _); try discriminate;
    reflexivity.
Qed.

(** A frame gives a postcondition. *)
Lemma preserves_wp {A} (R : World -> World -> Prop) (m : M A)
      (Q : result A -> World -> Prop) (w : World) :
  preserves R m -> (forall r w', R w w' -> Q r w') -> wp m Q w.
Proof. intros Hm HQ. unfold wp. apply HQ. apply Hm. Qed.

(** A frame read at a run. *)
Lemma kept_at {A} {R : World -> World -> Prop} {m : M A} {w w' : World} {r : result A} :
  preserves R m -> m w = (r, w') -> R w w'.
Proof. intros H E. specialize (H w). rewrite E in H. exact H. Qed.

Ltac same_on_side :=
  intros; unfold same_on; cbn [self ida_log cout set_self logged printed];
  first [reflexivity | apply ida_held_kept; reflexivity].

Ltac frame_on :=
  repeat
    lazymatch goal with
    | |- preserves _ (bind _ _) =>
        apply preserves_bind; [exact (same_on_trans _) | | intros ?]
    | |- preserves _ (ret _) => apply preserves_ret; exact (same_on_refl _)
    | |- preserves _ (throw _ _ _) => apply preserves_throw; exact (same_on_refl _)
    | |- preserves _ this => apply preserves_this; exact (same_on_refl _)
    | |- preserves _ (modify _) => apply preserves_modify; same_on_side
    | |- preserves _ (print _) => apply preserves_print; same_on_side
    | |- preserves _ (call _ _) => apply preserves_call; same_on_side
    | |- preserves _ (for_each _ _) =>
        apply preserves_for_each;
        [exact (same_on_refl _) | exact (same_on_trans _) | intros ?]
    | |- preserves _ (if ?b then _ else _) => destruct b
    | |- preserves _ (match ?e with pair _ _ => _ end) => destruct e
    end.

Ltac log_extends_side :=
  intros; unfold log_extends; cbn [self ida_log cout set_self logged printed];
  first [exists []; rewrite app_nil_r; reflexivity | eexists; reflexivity].

Ltac frame_log := frame_with log_extends_refl log_extends_trans log_extends_side.

(** Every part of [init] unfolded. *)
Ltac unfold_init :=
  unfold init, init_vectors, init_engine, init_tolerances, init_linear_solver,
    init_sensitivity, sensInit, init_options, init_option, init_constraints,
    init_quadrature, when;
  cbv zeta.

(** A postcondition read at a run. *)
Lemma wp_read {A} {m : M A} {Q : result A -> World -> Prop} {w w' : World}
      {r : result A} :
  wp m Q w -> m w = (r, w') -> Q r w'.
Proof. unfold wp. intros H E. rewrite E in H. exact H. Qed.

Lemma wp_mono {A} {m : M A} {Q Q' : result A -> World -> Prop} {w : World} :
  wp m Q w -> (forall r w', Q r w' -> Q' r w') -> wp m Q' w.
Proof. unfold wp. intros H HQ. apply HQ, H. Qed.

Lemma zero_cells_vectors (l : list nat) (s : IDA_Solver) :
  m_t0 (fold_left (fun s i => zero_cells i s) l s) = m_t0 s /\
  m_y (fold_left (fun s i => zero_cells i s) l s)
  = fold_left (fun p i => store p i 0%float) l (m_y s) /\
  m_ydot (fold_left (fun s i => zero_cells i s) l s)
  = fold_left (fun p i => store p i 0%float) l (m_ydot s).
Proof.
  split; [| split].
  - rewrite (fold_left_field m_t0 zero_cells (fun _ p => p)) by reflexivity.
    apply fold_left_id.
  - apply (fold_left_field m_y zero_cells (fun i p => store p i 0%float)). reflexivity.
  - apply (fold_left_field m_ydot zero_cells (fun i p => store p i 0%float)). reflexivity.
Qed.

Lemma zero_quad_cells_vectors (l : list nat) (s : IDA_Solver) :
  m_t0 (fold_left (fun s i => zero_quad_cells i s) l s) = m_t0 s /\
  m_y (fold_left (fun s i => zero_quad_cells i s) l s) = m_y s /\
  m_ydot (fold_left (fun s i => zero_quad_cells i s) l s) = m_ydot s.
Proof.
  split; [| split].
  - rewrite (fold_left_field m_t0 zero_quad_cells (fun _ p => p)) by reflexivity.
    apply fold_left_id.
  - rewrite (fold_left_field m_y zero_quad_cells (fun _ p => p)) by reflexivity.
    apply fold_left_id.
  - rewrite (fold_left_field m_ydot zero_quad_cells (fun _ p => p)) by reflexivity.
    apply fold_left_id.
Qed.

Lemma calls_within_refl (P : ida_call -> bool) (w : World) : calls_within P w w.
Proof. exists []. rewrite app_nil_r. split; reflexivity. Qed.

Lemma calls_within_trans (P : ida_call -> bool) (a b c : World) :
  calls_within P a b -> calls_within P b c -> calls_within P a c.
Proof.
  intros [l1 [H1 F1]] [l2 [H2 F2]]. exists (l1 ++ l2). split.
  - rewrite H2, H1, app_assoc. reflexivity.
  - rewrite forallb_app. apply andb_true_intro. split; assumption.
Qed.

Ltac calls_within_side :=
  intros; unfold calls_within; cbn [self ida_log cout set_self logged printed];
  first [ exists []; rewrite app_nil_r; split; reflexivity
        | eexists; split; reflexivity ].

Ltac frame_calls :=
  repeat
    lazymatch goal with
    | |- preserves _ (bind _ _) =>
        apply preserves_bind; [exact (calls_within_trans _) | | intros ?]
    | |- preserves _ (ret _) => apply preserves_ret; exact (calls_within_refl _)
    | |- preserves _ (throw _ _ _) => apply preserves_throw; exact (calls_within_refl _)
    | |- preserves _ this => apply preserves_this; exact (calls_within_refl _)
    | |- preserves _ (modify _) => apply preserves_modify; calls_within_side
    | |- preserves _ (print _) => apply preserves_print; calls_within_side
    | |- preserves _ (call _ _) => apply preserves_call; calls_within_side
    | |- preserves _ (for_each _ _) =>
        apply preserves_for_each;
        [exact (calls_within_refl _) | exact (calls_within_trans _) | intros ?]
    | |- preserves _ (if ?b then _ else _) => destruct b
    | |- preserves _ (match ?e with pair _ _ => _ end) => destruct e
    end.

Lemma advances_towards_refl (tout : doublereal) (w : World) : advances_towards tout w w.
Proof. exists []. rewrite app_nil_r. split; [reflexivity | constructor]. Qed.

Lemma advances_towards_trans (tout : doublereal) (a b c : World) :
  advances_towards tout a b -> advances_towards tout b c -> advances_towards tout a c.
Proof.
  intros [l1 [H1 F1]] [l2 [H2 F2]]. exists (l1 ++ l2). split.
  - rewrite H2, H1, app_assoc. reflexivity.
  - apply Forall_app. split; assumption.
Qed.

Ltac advances_towards_side :=
  intros; unfold advances_towards; cbn [self ida_log cout set_self logged printed];
  first [ exists []; rewrite app_nil_r; split; [reflexivity | constructor]
        | eexists; split;
          [ reflexivity
          | constructor; [cbn [fst]; do 3 eexists; reflexivity | constructor] ] ].

Lemma ida_held_app {V} (sel : ida_call -> option V) (log l : list ida_event) :
  ida_held sel (log ++ l) = fold_left (ida_setting_step sel) l (ida_held sel log).
Proof. unfold ida_held. apply fold_left_app. Qed.

(** Calls that keep a setting leave it as it is. *)
Lemma held_kept_within {V} (sel : ida_call -> option V) (P : ida_call -> bool)
      (w w' : World) :
  (forall c, P c = true -> keeps_setting sel c = true) ->
  calls_within P w w' ->
  ida_held sel (ida_log w') = ida_held sel (ida_log w).
Proof.
  intros HP [l [Hl Hall]]. rewrite Hl, ida_held_app. clear Hl.
  generalize (ida_held sel (ida_log w)) as held.
  induction l as [| [c flag] l IH]; intros held; [reflexivity |].
  cbn [forallb fst] in Hall. apply andb_prop in Hall. destruct Hall as [Hc Hall].
  cbn [fold_left]. rewrite (IH Hall). apply HP in Hc.
  unfold ida_setting_step, keeps_setting in *. cbn [fst snd].
  destruct c; try discriminate; destruct (sel _); try discriminate; reflexivity.
Qed.

Lemma map_nth_seq_firstn {A} (d : A) (src : list A) :
  forall n a, a + n <= List.length src ->
              map (fun i => nth i src d) (seq a n) = firstn n (skipn a src).
Proof.
  induction n as [| n IH]; intros a Hle; [reflexivity |].
  cbn [seq map]. rewrite IH by lia.
  assert (Hs : skipn a src = nth a src d :: skipn (S a) src).
  { clear IH. revert a Hle. induction src as [| x src IHs]; intros a Hle.
    - simpl in Hle. lia.
    - destruct a as [| a]; [reflexivity |]. cbn [skipn nth].
      rewrite IHs by (simpl in Hle; lia). reflexivity. }
  rewrite Hs. reflexivity.
Qed.

(** Zeroing every member of an array of equal vectors. *)
Lemma zero_members (x : list realtype) :
  forall (k : nat) (pre : list (list realtype)),
    fold_left (fun vs n => NV_set vs n (N_VConst 0%float (nth n vs [])))
              (seq (List.length pre) k) (pre ++ repeat x k)
    = pre ++ repeat (N_VConst 0%float x) k.
Proof.
  induction k as [| k IH]; intros pre; [reflexivity |].
  cbn [seq repeat fold_left].
  rewrite NV_set_at_length.
  rewrite app_nth2 by lia. rewrite Nat.sub_diag. cbn [nth].
  replace (pre ++ N_VConst 0%float x :: repeat x k)
    with ((pre ++ [N_VConst 0%float x]) ++ repeat x k)
    by (rewrite <- app_assoc; reflexivity).
  replace (S (List.length pre)) with (List.length (pre ++ [N_VConst 0%float x]))
    by (rewrite length_app; simpl; lia).
  rewrite IH, <- app_assoc. reflexivity.
Qed.

Section AdapterMore.

Variable m_resid : ResidJacEval.
Variable ida : IDA.
Variable indeterminate : realtype.

(** ** init *)

(** X1: [init] changes nothing of what the configuration setters record
    (equation and parameter counts, linear solver, Jacobian mode, tolerance
    mode and values, step options), whether it returns or throws. *)
Theorem init_keeps_configuration (t0 : doublereal) (w : World) :
  configured (self (snd (init m_resid ida indeterminate t0 w))) = configured (self w).
Proof.
  revert w.
  change (preserves (same_on (fun w => configured (self w)))
                    (init m_resid ida indeterminate t0)).
  unfold_init. frame_on.
Qed.

(** What follows the vectors in [init]. *)
Lemma init_after_vectors_keeps_times :
  forall t0 : doublereal,
    preserves (same_on (fun w => (times (self w), m_deltat (self w))))
      (init_engine ida ;;
       init_tolerances ida ;;
       init_linear_solver ida ;;
       init_sensitivity m_resid ida indeterminate t0 ;;
       init_options ida ;;
       init_constraints m_resid ida ;;
       init_quadrature m_resid ida).
Proof. intros t0. unfold_init. frame_on. Qed.

(** X2: [init(t0)] leaves the start time, the previous-previous, previous
    and current time all equal to [t0], whether it returns or throws, and
    it does not touch the last step size. *)
Theorem init_resets_times (t0 : doublereal) (w : World) :
  let w' := snd (init m_resid ida indeterminate t0 w) in
  times (self w') = (t0, t0, t0, t0) /\ m_deltat (self w') = m_deltat (self w).
Proof.
  cbv zeta.
  apply (wp_get (init m_resid ida indeterminate t0)
           (fun _ w' => times (self w') = (t0, t0, t0, t0) /\
                        m_deltat (self w') = m_deltat (self w))).
  unfold init. apply wp_bind. unfold init_vectors.
  do 4 (apply wp_bind; apply wp_modify; cbv beta iota).
  apply (@preserves_wp _ (same_on (fun w => (times (self w), m_deltat (self w))))).
  - unfold when. cbv zeta. frame_on.
  - intros r wa Ha. unfold same_on, times in Ha. simpl in Ha.
    destruct r as [[] | e]; cbv beta iota.
    + apply (@preserves_wp _ (same_on (fun w => (times (self w), m_deltat (self w))))).
      * apply init_after_vectors_keeps_times.
      * intros r' w' Hw. unfold same_on, times in Hw. unfold times.
        injection Hw as -> -> -> -> ->.
        injection Ha as -> -> -> -> ->. split; reflexivity.
    + unfold times. injection Ha as -> -> -> -> ->. split; reflexivity.
Qed.

(** The first part of [init] leaves the initial conditions the provider
    gives for [t0], asked on vectors of zeros. *)
Lemma init_vectors_solution (t0 : doublereal) (w : World) :
  wp (init_vectors m_resid indeterminate t0)
     (fun _ w' =>
        m_y (self w') = Some (fst (initial_conditions m_resid t0 (m_neq (self w)))) /\
        m_ydot (self w') = Some (snd (initial_conditions m_resid t0 (m_neq (self w)))))
     w.
Proof.
  unfold init_vectors, when. wp_run. world_simpl.
  apply (wp_for_each_pure zero_cells); [reflexivity |]. cbv beta iota.
  apply wp_bind.
  match goal with
  | |- wp _ _ (set_self (fold_left _ ?l ?s0) _) =>
      destruct (zero_cells_vectors l s0) as [Hz0 [Hz1 Hz2]]
  end.
  world_simpl.
  cbn [m_neq m_t0 m_y m_ydot set_m_t0 set_m_told set_m_told_old set_m_tcurrent
       set_m_y set_m_ydot set_m_constraints] in Hz0, Hz1, Hz2.
  unfold N_VNew_Serial in Hz1, Hz2.
  rewrite store_seq_result in Hz1, Hz2 by apply repeat_length.
  rewrite map_const_seq in Hz1, Hz2.
  set (tail := bind (for_each (seq 0 (nQuadEquations m_resid)) _) _).
  assert (Htail : forall w0 : World,
    m_t0 (self w0) = t0 ->
    m_y (self w0) = Some (repeat 0%float (m_neq (self w))) ->
    m_ydot (self w0) = Some (repeat 0%float (m_neq (self w))) ->
    wp tail
       (fun _ w' =>
          m_y (self w') = Some (fst (initial_conditions m_resid t0 (m_neq (self w)))) /\
          m_ydot (self w') = Some (snd (initial_conditions m_resid t0 (m_neq (self w)))))
       w0).
  { intros w0 H0 Hy Hyd. unfold tail. apply wp_bind.
    apply (wp_for_each_pure zero_quad_cells); [reflexivity |]. cbv beta iota.
    wp_run. world_simpl.
    destruct (zero_quad_cells_vectors (seq 0 (nQuadEquations m_resid)) (self w0))
      as [Hq0 [Hq1 Hq2]].
    rewrite Hq0, Hq1, Hq2, H0, Hy, Hyd. unfold initial_conditions. cbn [NV_DATA_S].
    destruct (getInitialConditions m_resid _ _ _) as [y ydot]. wp_run. world_simpl.
    split; reflexivity. }
  destruct (negb (nQuadEquations m_resid =? 0)); wp_run; world_simpl; apply Htail;
    world_simpl; cbn [m_t0 m_y m_ydot set_m_yQ set_m_yQdot]; assumption.
Qed.

(** X3: whether [init(t0)] returns or throws, it leaves in the solution and
    derivative vectors the initial conditions the provider gives for [t0]
    when asked on vectors of [m_neq] zeros. *)
Theorem init_loads_initial_conditions (t0 : doublereal) (w : World) :
  let w' := snd (init m_resid ida indeterminate t0 w) in
  let ic := getInitialConditions m_resid t0 (repeat 0%float (m_neq (self w)))
                                 (repeat 0%float (m_neq (self w))) in
  m_y (self w') = Some (fst ic) /\ m_ydot (self w') = Some (snd ic).
Proof.
  cbv zeta.
  apply (wp_get (init m_resid ida indeterminate t0)
           (fun _ w' =>
              m_y (self w') = Some (fst (initial_conditions m_resid t0 (m_neq (self w)))) /\
              m_ydot (self w') = Some (snd (initial_conditions m_resid t0 (m_neq (self w)))))).
  unfold init. apply wp_bind.
  apply (wp_mono (init_vectors_solution t0 w)).
  intros r wa [Hy Hyd]. destruct r as [[] | e]; cbv beta iota; [| split; assumption].
  apply (@preserves_wp _ (same_on (fun w => (m_y (self w), m_ydot (self w))))).
  - unfold_init. frame_on.
  - intros r' w' Hw. unfold same_on in Hw. injection Hw as -> ->. split; assumption.
Qed.

(** The second part of [init]: the old instance released, a new one
    created and started on the initial conditions. *)
Lemma init_engine_post (w : World) :
  wp (init_engine ida)
     (fun r w' =>
        let mem := r_mem (created_by_init ida w) in
        exists flag,
          self w' = set_m_ida_mem mem (self w) /\
          ida_log w' = ida_log w ++ freed_by_init ida w ++
                       [(IDACreate, r_flag (created_by_init ida w));
                        (IDAInit mem (m_t0 (self w)) (m_y (self w)) (m_ydot (self w)), flag)] /\
          (r = Ok tt -> flag = IDA_SUCCESS))
     w.
Proof.
  unfold init_engine, when, created_by_init, freed_by_init. cbv zeta.
  wp_step. wp_step.
  destruct (non_null (m_ida_mem (self w))); wp_run; cbv zeta; world_simpl;
    rewrite ?app_nil_r;
    match goal with
    | |- wp (if negb (?f =? _)%Z then _ else _) _ _ =>
        destruct (f =? IDA_SUCCESS)%Z eqn:Hf; cbn [negb];
        [| repeat match goal with |- wp (if ?b then _ else _) _ _ => destruct b end];
        wp_run; world_simpl; exists f;
        (split; [reflexivity | split;
           [rewrite <- ?app_assoc; reflexivity
           | first [intros _; apply Z.eqb_eq; exact Hf | discriminate]]])
    end.
Qed.

Lemma init_vectors_keeps_engine (t0 : doublereal) :
  preserves (same_on (fun w => (ida_log w, m_ida_mem (self w))))
            (init_vectors m_resid indeterminate t0).
Proof. unfold_init. frame_on. Qed.

Lemma init_after_engine_keeps_handle (t0 : doublereal) :
  preserves (same_on (fun w => m_ida_mem (self w)))
    (init_tolerances ida ;;
     init_linear_solver ida ;;
     init_sensitivity m_resid ida indeterminate t0 ;;
     init_options ida ;;
     init_constraints m_resid ida ;;
     init_quadrature m_resid ida).
Proof. unfold_init. frame_on. Qed.

Lemma init_after_engine_extends_log (t0 : doublereal) :
  preserves log_extends
    (init_tolerances ida ;;
     init_linear_solver ida ;;
     init_sensitivity m_resid ida indeterminate t0 ;;
     init_options ida ;;
     init_constraints m_resid ida ;;
     init_quadrature m_resid ida).
Proof. unfold_init. frame_log. Qed.

Lemma init_vectors_returns (t0 : doublereal) (w : World) :
  exists wa, init_vectors m_resid indeterminate t0 w = (Ok tt, wa).
Proof.
  pose proof (init_vectors_post m_resid indeterminate t0 w) as H. unfold wp in H.
  destruct (init_vectors m_resid indeterminate t0 w) as [r wa].
  destruct H as [H _]. cbn [fst] in H. subst r. exists wa. reflexivity.
Qed.

(** X4: whether [init] returns or throws, the first engine calls it makes
    are the release of the instance it held, when it held one, and the
    creation of a new instance, and it leaves the adapter holding the new
    instance's handle. *)
Theorem init_replaces_engine_instance (t0 : doublereal) (w : World) :
  let w' := snd (init m_resid ida indeterminate t0 w) in
  m_ida_mem (self w') = r_mem (created_by_init ida w) /\
  exists rest,
    ida_log w' = ida_log w ++ freed_by_init ida w ++
                 (IDACreate, r_flag (created_by_init ida w)) :: rest.
Proof.
  cbv zeta. destruct (init_vectors_returns t0 w) as [wa Ev].
  rewrite init_phases, (bind_Ok _ _ _ _ _ Ev).
  pose proof (kept_at (init_vectors_keeps_engine t0) Ev) as Ha.
  unfold same_on in Ha. injection Ha as Hlog Hmem.
  assert (Hfreed : freed_by_init ida wa = freed_by_init ida w).
  { unfold freed_by_init. rewrite Hlog, Hmem. reflexivity. }
  assert (Hcreated : created_by_init ida wa = created_by_init ida w).
  { unfold created_by_init. rewrite Hfreed, Hlog. reflexivity. }
  apply (wp_get _
           (fun _ w' =>
              m_ida_mem (self w') = r_mem (created_by_init ida w) /\
              exists rest,
                ida_log w' = ida_log w ++ freed_by_init ida w ++
                             (IDACreate, r_flag (created_by_init ida w)) :: rest)
           wa).
  apply wp_bind. apply (wp_mono (init_engine_post wa)).
  cbv zeta. rewrite Hfreed, Hcreated, Hlog.
  intros r wb [flag [Hself [Hlogb _]]].
  assert (Hnow : m_ida_mem (self wb) = r_mem (created_by_init ida w) /\
                 exists rest,
                   ida_log wb = ida_log w ++ freed_by_init ida w ++
                                (IDACreate, r_flag (created_by_init ida w)) :: rest).
  { split; [rewrite Hself; reflexivity | eexists; exact Hlogb]. }
  destruct r as [[] | e]; cbv beta iota; [| exact Hnow].
  destruct Hnow as [Hm [rest Hl]].
  unfold wp. split.
  - rewrite <- Hm. apply (init_after_engine_keeps_handle t0 wb).
  - destruct (init_after_engine_extends_log t0 wb) as [l Hext].
    exists (rest ++ l). rewrite Hext, Hl, <- !app_assoc. reflexivity.
Qed.

(** ** What [init] leaves in the engine *)

Lemma init_returns_phases (t0 : doublereal) (w w' : World) :
  init m_resid ida indeterminate t0 w = (Ok tt, w') ->
  exists wa wb wc wd we wf wg,
    init_vectors m_resid indeterminate t0 w = (Ok tt, wa) /\
    init_engine ida wa = (Ok tt, wb) /\
    init_tolerances ida wb = (Ok tt, wc) /\
    init_linear_solver ida wc = (Ok tt, wd) /\
    init_sensitivity m_resid ida indeterminate t0 wd = (Ok tt, we) /\
    init_options ida we = (Ok tt, wf) /\
    init_constraints m_resid ida wf = (Ok tt, wg) /\
    init_quadrature m_resid ida wg = (Ok tt, w').
Proof.
  intros H. rewrite init_phases in H.
  apply bind_inv_Ok in H. destruct H as [[] [wa [Ha H]]].
  apply bind_inv_Ok in H. destruct H as [[] [wb [Hb H]]].
  apply bind_inv_Ok in H. destruct H as [[] [wc [Hc H]]].
  apply bind_inv_Ok in H. destruct H as [[] [wd [Hd H]]].
  apply bind_inv_Ok in H. destruct H as [[] [we [He H]]].
  apply bind_inv_Ok in H. destruct H as [[] [wf [Hf H]]].
  apply bind_inv_Ok in H. destruct H as [[] [wg [Hg H]]].
  exists wa, wb, wc, wd, we, wf, wg. repeat split; assumption.
Qed.

(** A new instance, started, holds none of the settings made by later calls. *)
Lemma init_engine_held {V} (sel : ida_call -> option V) (w w' : World) :
  (forall mem t y yp, sel (IDAInit mem t y yp) = None) ->
  init_engine ida w = (Ok tt, w') ->
  ida_held sel (ida_log w') = None.
Proof.
  intros Hsel H.
  pose proof (wp_read (init_engine_post w) H) as [flag [_ [Hlog _]]].
  rewrite Hlog, app_assoc, ida_held_app. cbn [fold_left].
  unfold ida_setting_step at 2. cbn [fst snd].
  unfold ida_setting_step. cbn [fst snd]. rewrite Hsel. reflexivity.
Qed.

Lemma init_option_held {V} (sel : ida_call -> option V) {applies : bool} {c : ida_call}
      {msg : string} {w w' : World} :
  c <> IDACreate ->
  init_option ida applies c msg w = (Ok tt, w') ->
  self w' = self w /\
  ida_held sel (ida_log w') = pushed sel applies c (ida_held sel (ida_log w)).
Proof.
  intros Hc. unfold init_option, pushed. destruct applies.
  - unfold bind, call, throw, ret. cbv zeta.
    destruct (r_flag (ida (ida_log w) c) =? IDA_SUCCESS)%Z eqn:Hf; cbn [negb];
      intros H; inversion H. cbn [self ida_log]. split; [reflexivity |].
    rewrite ida_held_logged. unfold ida_setting_step. cbn [fst snd]. rewrite Hf.
    destruct c; try reflexivity. contradiction Hc. reflexivity.
  - unfold ret. intros H. inversion H. subst. split; [reflexivity |].
    destruct (sel c); reflexivity.
Qed.

Ltac through H :=
  lazymatch type of H with
  | init_option _ _ ?c _ _ = _ =>
      let Hc := fresh in
      assert (Hc : c <> IDACreate) by discriminate;
      rewrite (proj2 (init_option_held _ Hc H)); clear Hc
  end.

Lemma init_options_held {w w' : World} :
  init_options ida w = (Ok tt, w') ->
  ida_options_held (ida_log w) =
    {| opt_maxord := None; opt_maxsteps := None; opt_h0 := None; opt_tstop := None;
       opt_maxErrTestFails := None; opt_maxNonlinIters := None;
       opt_maxNonlinConvFails := None; opt_suppressAlg := None |} ->
  ida_options_held (ida_log w') = options_in_range (self w).
Proof.
  intros H Hnone. unfold init_options in H.
  apply bind_inv_Ok in H. destruct H as [s [w0 [Hthis H]]].
  unfold this in Hthis. injection Hthis as <- <-. cbv zeta in H.
  apply bind_inv_Ok in H. destruct H as [[] [w1 [H1 H]]].
  apply bind_inv_Ok in H. destruct H as [[] [w2 [H2 H]]].
  apply bind_inv_Ok in H. destruct H as [[] [w3 [H3 H]]].
  apply bind_inv_Ok in H. destruct H as [[] [w4 [H4 H]]].
  apply bind_inv_Ok in H. destruct H as [[] [w5 [H5 H]]].
  apply bind_inv_Ok in H. destruct H as [[] [w6 [H6 H]]].
  apply bind_inv_Ok in H. destruct H as [[] [w7 [H7 H8]]].
  unfold ida_options_held in Hnone.
  injection Hnone as N1 N2 N3 N4 N5 N6 N7 N8.
  unfold ida_options_held, options_in_range.
  f_equal;
    through H8; through H7; through H6; through H5;
    through H4; through H3; through H2; through H1;
    first [rewrite N1 | rewrite N2 | rewrite N3 | rewrite N4
          | rewrite N5 | rewrite N6 | rewrite N7 | rewrite N8];
    reflexivity.
Qed.

Lemma init_parts_keep_configuration (t0 : doublereal) :
  let R := same_on (fun w => configured (self w)) in
  preserves R (init_vectors m_resid indeterminate t0) /\
  preserves R (init_engine ida) /\
  preserves R (init_tolerances ida) /\
  preserves R (init_linear_solver ida) /\
  preserves R (init_sensitivity m_resid ida indeterminate t0).
Proof. cbv zeta. repeat split; unfold_init; frame_on. Qed.

(** The parts of [init] around the step options set none of them. *)
Lemma init_parts_set_no_option (t0 : doublereal) :
  let R := calls_within (fun c => negb (sets_option c)) in
  preserves R (init_tolerances ida) /\
  preserves R (init_linear_solver ida) /\
  preserves R (init_sensitivity m_resid ida indeterminate t0) /\
  preserves R (init_constraints m_resid ida) /\
  preserves R (init_quadrature m_resid ida).
Proof. cbv zeta. repeat split; unfold_init; frame_calls. Qed.

(** The parts of [init] after the tolerances hand the engine no others. *)
Lemma init_parts_set_no_tolerances (t0 : doublereal) :
  let R := calls_within (fun c => negb (sets_tolerances c)) in
  preserves R (init_linear_solver ida) /\
  preserves R (init_sensitivity m_resid ida indeterminate t0) /\
  preserves R (init_options ida) /\
  preserves R (init_constraints m_resid ida) /\
  preserves R (init_quadrature m_resid ida).
Proof. cbv zeta. repeat split; unfold_init; frame_calls. Qed.

Lemma options_kept_within {w w' : World} :
  calls_within (fun c => negb (sets_option c)) w w' ->
  ida_options_held (ida_log w') = ida_options_held (ida_log w).
Proof.
  intros H. unfold ida_options_held.
  f_equal; apply (held_kept_within _ (fun c => negb (sets_option c))); try exact H;
    intros c; destruct c; intros Hc; first [reflexivity | discriminate].
Qed.

Lemma tolerances_kept_within {w w' : World} :
  calls_within (fun c => negb (sets_tolerances c)) w w' ->
  ida_held sel_tolerances (ida_log w') = ida_held sel_tolerances (ida_log w).
Proof.
  apply held_kept_within.
  intros c; destruct c; intros Hc; first [reflexivity | discriminate].
Qed.

Lemma init_tolerances_held {w w' : World} :
  init_tolerances ida w = (Ok tt, w') ->
  ida_held sel_tolerances (ida_log w') = Some (recorded_tolerances (self w)).
Proof.
  unfold init_tolerances, recorded_tolerances, bind, this, call, throw, ret.
  destruct (m_itol (self w) =? IDA_SV)%Z;
    match goal with
    | |- context [negb (?f =? IDA_SUCCESS)%Z] =>
        destruct (f =? IDA_SUCCESS)%Z eqn:Hf
    end; cbn [negb]; intros H; inversion H; cbn [ida_log];
    rewrite ida_held_logged; unfold ida_setting_step; cbn [fst snd sel_tolerances];
    rewrite Hf; reflexivity.
Qed.

(** X5: when [init] returns, the engine instance holds exactly the recorded
    step options that lie in range (maximum order, step count, initial step
    and stop time above 0; error-test and convergence failure limits not
    below 0; non-linear iterations above 0; a non-zero suppress flag); for
    every other option the new instance keeps its own default. *)
Theorem init_pushes_options_in_range (t0 : doublereal) (w w' : World) :
  init m_resid ida indeterminate t0 w = (Ok tt, w') ->
  ida_options_held (ida_log w') = options_in_range (self w).
Proof.
  intros H. apply init_returns_phases in H.
  destruct H as [wa [wb [wc [wd [we [wf [wg [Ha [Hb [Hc [Hd [He [Hf [Hg Hq]]]]]]]]]]]]]].
  destruct (init_parts_keep_configuration t0) as [Ka [Kb [Kc [Kd Ke]]]].
  destruct (init_parts_set_no_option t0) as [Oc [Od [Oe [Og Oq]]]].
  cbv zeta in *.
  rewrite (options_kept_within (kept_at Oq Hq)), (options_kept_within (kept_at Og Hg)).
  assert (Hcfg : configured (self we) = configured (self w)).
  { rewrite (kept_at Ke He), (kept_at Kd Hd), (kept_at Kc Hc), (kept_at Kb Hb).
    exact (kept_at Ka Ha). }
  assert (Hrange : options_in_range (self we) = options_in_range (self w)).
  { unfold configured in Hcfg. unfold options_in_range.
    injection Hcfg as _ _ _ _ _ _ _ _ _ _ _ _ -> -> -> -> -> -> -> ->. reflexivity. }
  rewrite <- Hrange. apply (init_options_held Hf).
  rewrite (options_kept_within (kept_at Oe He)), (options_kept_within (kept_at Od Hd)),
          (options_kept_within (kept_at Oc Hc)).
  unfold ida_options_held.
  f_equal; apply (init_engine_held _ wa wb); try exact Hb; reflexivity.
Qed.

(** X6: when [init] returns, the tolerances the engine instance holds are
    the recorded ones in the recorded mode: the relative tolerance with the
    absolute-tolerance vector when the vector overload was the last one
    used, the scalar pair otherwise. *)
Theorem init_pushes_recorded_tolerances (t0 : doublereal) (w w' : World) :
  init m_resid ida indeterminate t0 w = (Ok tt, w') ->
  ida_held sel_tolerances (ida_log w') = Some (recorded_tolerances (self w)).
Proof.
  intros H. apply init_returns_phases in H.
  destruct H as [wa [wb [wc [wd [we [wf [wg [Ha [Hb [Hc [Hd [He [Hf [Hg Hq]]]]]]]]]]]]]].
  destruct (init_parts_keep_configuration t0) as [Ka [Kb _]].
  destruct (init_parts_set_no_tolerances t0) as [Td [Te [Tf [Tg Tq]]]].
  cbv zeta in *.
  rewrite (tolerances_kept_within (kept_at Tq Hq)), (tolerances_kept_within (kept_at Tg Hg)),
          (tolerances_kept_within (kept_at Tf Hf)), (tolerances_kept_within (kept_at Te He)),
          (tolerances_kept_within (kept_at Td Hd)).
  rewrite (init_tolerances_held Hc).
  assert (Hcfg : configured (self wb) = configured (self w)).
  { rewrite (kept_at Kb Hb). exact (kept_at Ka Ha). }
  unfold configured in Hcfg. unfold recorded_tolerances.
  injection Hcfg as _ _ _ _ _ _ -> -> -> ->. reflexivity.
Qed.

(** X7: [init] does not return when the recorded linear solver type is
    none of 0, 1 (dense) and 2 (banded): it throws, at the latest where the
    linear solver is chosen. *)
Theorem init_rejects_unknown_solver_type (t0 : doublereal) (w : World) :
  m_type (self w) <> 0%Z -> m_type (self w) <> 1%Z -> m_type (self w) <> 2%Z ->
  exists e, fst (init m_resid ida indeterminate t0 w) = Throw e.
Proof.
  intros H0 H1 H2.
  destruct (init m_resid ida indeterminate t0 w) as [[[] | e] w'] eqn:H;
    [| exists e; reflexivity].
  exfalso. apply init_returns_phases in H.
  destruct H as [wa [wb [wc [wd [_ [_ [_ [Ha [Hb [Hc [Hd _]]]]]]]]]]].
  destruct (init_parts_keep_configuration t0) as [Ka [Kb [Kc _]]]. cbv zeta in *.
  assert (Hcfg : configured (self wc) = configured (self w)).
  { rewrite (kept_at Kc Hc), (kept_at Kb Hb). exact (kept_at Ka Ha). }
  assert (Hty : m_type (self wc) = m_type (self w)) by exact (f_equal cfg_type Hcfg).
  apply Z.eqb_neq in H0, H1, H2.
  unfold init_linear_solver in Hd. apply bind_inv_Ok in Hd.
  destruct Hd as [s [w0 [Hthis Hd]]]. unfold this in Hthis. injection Hthis as <- <-.
  apply bind_inv_Ok in Hd. destruct Hd as [[] [w1 [Hd _]]].
  rewrite Hty, H0, H1, H2 in Hd. cbn [orb] in Hd. unfold throw in Hd. discriminate.
Qed.

(** ** solve *)

(** One pass of the loop of [solve]: the only call is the advance, the time
    it returns becomes the current time, and its only error is the one of
    [solve]. *)
Lemma solve_body_outcomes (tout : doublereal) (w : World) :
  advances_towards tout w (snd (solve_body ida tout w)) /\
  match fst (solve_body ida tout w) with
  | Ok ft => m_tcurrent (self (snd (solve_body ida tout w))) = snd ft
  | Throw e => e = solve_error
  end.
Proof.
  split.
  - revert w.
    change (preserves (advances_towards tout) (solve_body ida tout)).
    unfold solve_body, IDASolve_members. cbv zeta.
    frame_with (advances_towards_refl tout) (advances_towards_trans tout)
               advances_towards_side.
  - unfold solve_body, IDASolve_members, bind, this, call, modify, ret, throw, print.
    cbv zeta. cbn [fst snd self ida_log cout].
    set (r := ida (ida_log w) _).
    destruct (r_flag r <? 0)%Z; [reflexivity |].
    destruct (r_flag r =? IDA_TSTOP_RETURN)%Z; [reflexivity |].
    destruct (r_flag r =? IDA_ROOT_RETURN)%Z; [reflexivity |].
    destruct (r_flag r =? IDA_WARNING)%Z; reflexivity.
Qed.

Lemma leb_ltb_false (a b : float) :
  (b <=? a)%float = true -> (a <? b)%float = false.
Proof.
  intros H. destruct (a <? b)%float eqn:E; [| reflexivity].
  apply ltb_leb_false in E. congruence.
Qed.

(** The loop of [solve]: it only asks for advances; when it ends without an
    error, having been entered or started at the current time, the current
    time is not before the target. *)
Lemma solve_loop_outcomes (tout : doublereal) (fuel : nat) :
  forall (tretn : doublereal) (flag : Z) (w : World) (r : result Z) (w' : World),
    solve_loop ida fuel tout tretn flag w = Some (r, w') ->
    advances_towards tout w w' /\
    match r with
    | Ok _ => (tretn <? tout)%float = true \/ m_tcurrent (self w) = tretn ->
              (m_tcurrent (self w') <? tout)%float = false
    | Throw e => e = solve_error
    end.
Proof.
  induction fuel as [| fuel IH]; intros tretn flag w r w' H; cbn [solve_loop] in H.
  - destruct (tretn <? tout)%float eqn:Hlt; [discriminate |].
    injection H as <- <-. split; [apply advances_towards_refl |].
    intros [Habs | Hcur]; [discriminate | rewrite Hcur; exact Hlt].
  - destruct (tretn <? tout)%float eqn:Hlt.
    + destruct (tout <=? m_tcurrent (self w))%float eqn:Hle.
      * injection H as <- <-. split.
        -- exists []. rewrite app_nil_r. split; [reflexivity | constructor].
        -- intros _. cbn [snd print self]. apply leb_ltb_false. exact Hle.
      * destruct (solve_body_outcomes tout w) as [Hcalls Hbody].
        destruct (solve_body ida tout w) as [[[flag' tretn'] | e] w1].
        -- cbn [fst snd] in Hcalls, Hbody.
           destruct (IH _ _ _ _ _ H) as [Hcalls' Hrest]. split.
           ++ exact (advances_towards_trans _ _ _ _ Hcalls Hcalls').
           ++ destruct r as [f | e]; [| exact Hrest].
              intros _. apply Hrest. right. exact Hbody.
        -- cbn [fst snd] in Hcalls, Hbody. injection H as <- <-.
           split; [exact Hcalls | exact Hbody].
    + injection H as <- <-. split; [apply advances_towards_refl |].
      intros [Habs | Hcur]; [discriminate | rewrite Hcur; exact Hlt].
Qed.

(** X8: [solve(tout)] returns only [IDA_SUCCESS] or [IDA_TSTOP_RETURN], and
    then with the sensitivity cache invalidated and, [tout - 1000] being
    below [tout], with the current time not before [tout]; every error it
    throws is the one error of [solve], whatever the engine reported. *)
Theorem solve_returns_on_target (fuel : nat) (tout : doublereal) (w : World)
        (r : result Z) (w' : World) :
  solve ida fuel tout w = Some (r, w') ->
  match r with
  | Ok flag =>
      (flag = IDA_SUCCESS \/ flag = IDA_TSTOP_RETURN) /\
      m_sens_ok (self w') = false /\
      ((tout - 1000 <? tout)%float = true ->
       (m_tcurrent (self w') <? tout)%float = false)
  | Throw e => e = solve_error
  end.
Proof.
  unfold solve. cbv zeta.
  destruct (solve_stop_time ida tout w) as [[flag0 | e0] w1] eqn:Hstop.
  - destruct (solve_loop ida fuel tout (tout - 1000) flag0 w1) as [[[f | e] w2] |] eqn:Hloop;
      [| | discriminate].
    + destruct (solve_loop_outcomes _ _ _ _ _ _ _ Hloop) as [_ Hreach].
      unfold solve_finish, bind, modify, ret, throw.
      destruct (f =? IDA_SUCCESS)%Z eqn:E0; cbn [negb andb].
      * intros H. injection H as <- <-. apply Z.eqb_eq in E0.
        split; [left; exact E0 | split; [reflexivity |]].
        intros Hin. cbn [self fst snd]. apply Hreach. left. exact Hin.
      * destruct (f =? IDA_TSTOP_RETURN)%Z eqn:E1; cbn [negb].
        -- intros H. injection H as <- <-. apply Z.eqb_eq in E1.
           split; [right; exact E1 | split; [reflexivity |]].
           intros Hin. cbn [self fst snd]. apply Hreach. left. exact Hin.
        -- intros H. injection H as <- <-. reflexivity.
    + destruct (solve_loop_outcomes _ _ _ _ _ _ _ Hloop) as [_ He].
      intros H. injection H as <- <-. exact He.
  - intros H. injection H as <- <-.
    unfold solve_stop_time, bind, this, call, throw, ret in Hstop. cbv zeta in Hstop.
    destruct (negb _) in Hstop; [| discriminate].
    injection Hstop as <- _. reflexivity.
Qed.

(** X9: the loop of [solve] starts from [tout - 1000]; for a target so
    large that [tout - 1000] is not below it, [solve], its stop time
    accepted, asks the engine for no advance and returns [IDA_SUCCESS] with
    the current time where it was, however far the target lies ahead. *)
Theorem solve_target_beyond_resolution (fuel : nat) (tout : doublereal) (w : World) :
  (tout - 1000 <? tout)%float = false ->
  r_flag (ida (ida_log w) (IDASetStopTime (m_ida_mem (self w)) tout)) = IDA_SUCCESS ->
  exists w',
    solve ida fuel tout w = Some (Ok IDA_SUCCESS, w') /\
    advances (ida_log w') = advances (ida_log w) /\
    m_tcurrent (self w') = m_tcurrent (self w) /\
    m_sens_ok (self w') = false.
Proof.
  intros Hres Hacc. unfold solve, solve_stop_time, bind, this, call, throw, ret.
  cbv zeta. cbn [fst snd self ida_log cout]. rewrite Hacc.
  cbn [Z.eqb IDA_SUCCESS negb].
  assert (Hloop : forall flag v,
             solve_loop ida fuel tout (tout - 1000) flag v = Some (Ok flag, v)).
  { intros flag v. destruct fuel; cbn [solve_loop]; rewrite Hres; reflexivity. }
  rewrite Hloop. unfold solve_finish, bind, modify, ret.
  cbn [Z.eqb IDA_SUCCESS negb andb].
  eexists. split; [reflexivity |]. cbn [self ida_log fst snd].
  repeat split. unfold advances. rewrite filter_app, length_app. cbn. lia.
Qed.


(** ** step *)

(** X11: when [step] throws after its advance (a negative status or the
    warning), the time history has been shifted, so the previous time
    equals the current time, which is left where it was with the last step
    size; the solution vectors hold what the engine wrote, and the
    sensitivity cache is not invalidated. *)
Theorem step_failure_after_advance (tout : doublereal) (w w' : World) (e : CanteraError) :
  (tout <=? m_tcurrent (self w))%float = false ->
  step ida tout w = (Throw e, w') ->
  let r := ida (ida_log w)
               (IDASolve (m_ida_mem (self w)) tout (m_y (self w)) (m_ydot (self w))
                         IDA_ONE_STEP) in
  (e = step_engine_error \/ e = step_warning_error) /\
  m_told_old (self w') = m_told (self w) /\
  m_told (self w') = m_tcurrent (self w) /\
  m_tcurrent (self w') = m_tcurrent (self w) /\
  m_deltat (self w') = m_deltat (self w) /\
  m_sens_ok (self w') = m_sens_ok (self w) /\
  m_y (self w') = written (m_y (self w)) (r_yy r) /\
  m_ydot (self w') = written (m_ydot (self w)) (r_yp r).
Proof.
  intros Hle. unfold step, bind, this, IDASolve_members, call, modify, ret, throw.
  simpl. rewrite Hle. simpl.
  set (r := ida (ida_log w) _).
  destruct (r_flag r <? 0)%Z; simpl.
  - intros H. injection H as <- <-. split; [left; reflexivity |].
    simpl. repeat split.
  - destruct (r_flag r =? IDA_TSTOP_RETURN)%Z; simpl; [discriminate |].
    destruct (r_flag r =? IDA_ROOT_RETURN)%Z; simpl; [discriminate |].
    destruct (r_flag r =? IDA_WARNING)%Z; simpl; [| discriminate].
    intros H. injection H as <- <-. split; [right; reflexivity |].
    simpl. repeat split.
Qed.

(** ** sensitivity *)

(** With the cache valid, or with no parameter, [sensitivity] reads the
    stored array and leaves the world as it is. *)
Lemma sensitivity_cached (k p : nat) (w : World) :
  m_sens_ok (self w) = true \/ m_ns (self w) = 0 ->
  sensitivity ida indeterminate k p w
  = ((if m_neq (self w) <=? k then Throw (equation_range_error k)
      else if m_ns (self w) <=? p then Throw (parameter_range_error p)
      else Ok (nth k (nth p (match m_yS (self w) with Some vs => vs | None => [] end) [])
                   indeterminate)),
     w).
Proof.
  intros H.
  assert (Hc : negb (m_sens_ok (self w)) && negb (m_ns (self w) =? 0) = false).
  { destruct H as [H | H]; rewrite H; [reflexivity |]. apply andb_false_r. }
  unfold sensitivity, when, bind, this, ret, throw. rewrite Hc.
  destruct (m_neq (self w) <=? k); [reflexivity |].
  destruct (m_ns (self w) <=? p); reflexivity.
Qed.

(** A returning fetch validates the cache. *)
Lemma sensitivity_fetch_validates (w : World) :
  wp (sensitivity_fetch ida)
     (fun r w' => r = Ok tt -> m_sens_ok (self w') = true) w.
Proof.
  unfold sensitivity_fetch. wp_step. wp_step. wp_step. wp_step. wp_step.
  match goal with |- wp (if ?b then _ else _) _ _ => destruct b end; wp_run;
    match goal with |- wp (if ?b then _ else _) _ _ => destruct b end; wp_run;
    first [discriminate | intros _; reflexivity].
Qed.

(** X12: once [sensitivity(k, p)] has returned a value, a further call
    reaches the engine no more and changes nothing, whatever its indices,
    and the same indices give the same value again. *)
Theorem sensitivity_second_call_cached (k p : nat) (w w1 : World) (v : doublereal) :
  sensitivity ida indeterminate k p w = (Ok v, w1) ->
  (forall k' p', snd (sensitivity ida indeterminate k' p' w1) = w1) /\
  sensitivity ida indeterminate k p w1 = (Ok v, w1).
Proof.
  intros H.
  assert (Hpost : m_sens_ok (self w1) = true /\
                  (m_neq (self w1) <=? k) = false /\
                  (m_ns (self w1) <=? p) = false /\
                  v = nth k (nth p (match m_yS (self w1) with Some vs => vs | None => [] end) [])
                          indeterminate).
  { unfold sensitivity in H.
    apply bind_inv_Ok in H. destruct H as [s [w0 [Hthis H]]].
    unfold this in Hthis. injection Hthis as <- <-.
    apply bind_inv_Ok in H. destruct H as [[] [w2 [Hwhen H]]].
    apply bind_inv_Ok in H. destruct H as [s2 [w3 [Hthis H]]].
    unfold this in Hthis. injection Hthis as <- <-.
    destruct (m_neq (self w2) <=? k) eqn:Hk; [discriminate |].
    destruct (m_ns (self w2) <=? p) eqn:Hp; [discriminate |].
    unfold ret in H. injection H as <- <-.
    split; [| split; [exact Hk | split; [exact Hp | reflexivity]]].
    unfold when in Hwhen.
    destruct (negb (m_sens_ok (self w)) && negb (m_ns (self w) =? 0)) eqn:Hc.
    - exact (wp_read (sensitivity_fetch_validates w) Hwhen eq_refl).
    - unfold ret in Hwhen. injection Hwhen as <-.
      destruct (m_sens_ok (self w)); [reflexivity |].
      cbn [negb andb] in Hc. apply negb_false_iff in Hc. apply Nat.eqb_eq in Hc.
      rewrite Hc in Hp. discriminate. }
  destruct Hpost as [Hok [Hk [Hp Hv]]]. split.
  - intros k' p'. rewrite sensitivity_cached by (left; exact Hok). reflexivity.
  - rewrite sensitivity_cached by (left; exact Hok). rewrite Hk, Hp, Hv. reflexivity.
Qed.

(** X13: an adapter without sensitivity parameters never reaches the engine
    from [sensitivity]: every call throws a range error, of the equation
    index when that one is out of range and of the parameter index
    otherwise, and leaves the world as it is. *)
Theorem sensitivity_without_parameters (k p : nat) (w : World) :
  m_ns (self w) = 0 ->
  sensitivity ida indeterminate k p w
  = (Throw (if m_neq (self w) <=? k then equation_range_error k
            else parameter_range_error p), w).
Proof.
  intros Hns. rewrite sensitivity_cached by (right; exact Hns). rewrite Hns.
  destruct (m_neq (self w) <=? k); reflexivity.
Qed.

(** ** Consistent initial conditions *)

(** The copy loop of the correctors on arrays of the equation count. *)
Lemma copy_out_all (n : nat) (src dst : list realtype) :
  List.length src = n -> List.length dst = n ->
  copy_out indeterminate n src dst = src.
Proof.
  intros Hs Hd. unfold copy_out.
  pose proof (@NV_set_seq _ (fun i => nth i src indeterminate) n [] dst) as Hrun.
  cbn [List.length app] in Hrun. rewrite Hrun by lia.
  rewrite skipn_all2 by lia. rewrite app_nil_r.
  rewrite (map_nth_seq_firstn indeterminate src n 0) by lia.
  cbn [skipn]. apply firstn_all2. lia.
Qed.

(** X14: both correctors first ask the engine to compute consistent initial
    conditions for the target time, which is the start time plus the
    recorded initial step (or plus 1e-5 when none is recorded) when 0 is
    passed. When that fails, the error carries the engine's status, nothing
    is fetched and the object is untouched; when it and the fetch succeed,
    the caller's arrays and the solution and derivative vectors all hold
    what the engine computed. *)
Theorem correctInitial_outcomes (proc msg2 : string) (icopt : Z)
        (y yp : list doublereal) (tout : doublereal) (w : World) :
  let s := self w in
  let c1 := IDACalcIC (m_ida_mem s) icopt (default_tout s tout) in
  let r1 := ida (ida_log w) c1 in
  let c2 := IDAGetConsistentIC (m_ida_mem s) (m_y s) (m_ydot s) in
  let r2 := ida (ida_log w ++ [(c1, r_flag r1)]) c2 in
  (r_flag r1 <> IDA_SUCCESS ->
   correctInitial ida indeterminate proc msg2 icopt y yp tout w
   = (Throw (calc_ic_error proc (r_flag r1)), logged (c1, r_flag r1) w)) /\
  (r_flag r1 = IDA_SUCCESS -> r_flag r2 = IDA_SUCCESS ->
   non_null (m_y s) = true -> non_null (m_ydot s) = true ->
   List.length (r_yy r2) = m_neq s -> List.length (r_yp r2) = m_neq s ->
   List.length y = m_neq s -> List.length yp = m_neq s ->
   exists w',
     correctInitial ida indeterminate proc msg2 icopt y yp tout w
     = (Ok (r_yy r2, r_yp r2), w') /\
     m_y (self w') = Some (r_yy r2) /\
     m_ydot (self w') = Some (r_yp r2) /\
     ida_log w' = ida_log w ++ [(c1, r_flag r1); (c2, r_flag r2)]).
Proof.
  cbv zeta. split.
  - intros Hfail. apply Z.eqb_neq in Hfail.
    unfold correctInitial, bind, this, call, throw, logged. cbv zeta.
    cbn [fst snd self ida_log cout]. rewrite Hfail. reflexivity.
  - intros H1 H2 Hy Hyd Ly Lyd Lout Loutd.
    unfold correctInitial, bind, this, call, modify, throw, ret. cbv zeta.
    cbn [fst snd self ida_log cout]. rewrite H1 in H2, Ly, Lyd |- *.
    cbn [Z.eqb IDA_SUCCESS negb].
    cbn [fst snd self ida_log cout]. rewrite H2. cbn [Z.eqb IDA_SUCCESS negb].
    destruct (m_y (self w)) as [vy |] eqn:Ey; [| discriminate].
    destruct (m_ydot (self w)) as [vyd |] eqn:Eyd; [| discriminate].
    eexists. split; [| split; [| split]].
    + simpl. rewrite ?Ey, ?Eyd. cbn [written NV_DATA_S].
      rewrite !copy_out_all by assumption. reflexivity.
    + simpl. rewrite ?Ey. reflexivity.
    + simpl. rewrite ?Eyd. reflexivity.
    + simpl. rewrite <- app_assoc. reflexivity.
Qed.

(** ** Constraints *)

(** The loop of [setConstraints] over valid tags: every tag printed and
    stored. *)
Lemma setConstraints_loop_valid (xs : list Z) :
  forallb checkFlag xs = true ->
  forall (a : nat) (w : World),
    for_each (combine (seq a (List.length xs)) xs) setConstraints_body w
    = (Ok tt,
       {| self := store_tags (combine (seq a (List.length xs)) xs) (self w);
          ida_log := ida_log w;
          cout := cout w ++ map cflag_line (combine (seq a (List.length xs)) xs) |}).
Proof.
  intros Hxs. induction xs as [| x xs IH]; intros a w.
  - unfold for_each. cbn. rewrite app_nil_r. destruct w; reflexivity.
  - cbn [forallb] in Hxs. apply andb_prop in Hxs. destruct Hxs as [Hx Hxs].
    cbn [List.length seq combine]. rewrite for_each_cons.
    unfold bind at 1. unfold setConstraints_body at 1. cbv zeta. cbn [fst snd].
    rewrite Hx. cbn [negb]. unfold bind at 1. unfold print at 1. unfold modify at 1.
    cbn [fst snd]. rewrite (IH Hxs). simpl. rewrite <- app_assoc. reflexivity.
Qed.

(** X15: [setConstraints] on as many valid tags as there are equations
    prints one line per tag and stores the tags as the whole constraint
    vector; without an engine instance it returns at that; with one it hands
    the engine the new vector in one call, and returns with the engine
    holding it when the engine accepts, and throws when it refuses, the
    stored vector being the new one in either case. *)
Theorem setConstraints_valid_tags (flags : list Z) (w : World) :
  forallb checkFlag flags = true ->
  List.length flags = m_neq (self w) ->
  (forall v, m_constraints (self w) = Some v -> List.length v = m_neq (self w)) ->
  let r := setConstraints ida indeterminate flags w in
  let stored := Some (map int_to_double flags) in
  let c := IDASetConstraints (m_ida_mem (self w)) stored in
  let flag := r_flag (ida (ida_log w) c) in
  m_constraints (self (snd r)) = stored /\
  cout (snd r) = cout w ++ map cflag_line (combine (seq 0 (m_neq (self w))) flags) /\
  (non_null (m_ida_mem (self w)) = false ->
   fst r = Ok tt /\ ida_log (snd r) = ida_log w) /\
  (non_null (m_ida_mem (self w)) = true ->
   ida_log (snd r) = ida_log w ++ [(c, flag)] /\
   (flag = IDA_SUCCESS ->
    fst r = Ok tt /\ ida_constraints (ida_log (snd r)) = stored) /\
   (flag <> IDA_SUCCESS -> fst r = Throw constraints_refused_error)).
Proof.
  intros Hvalid Hlen Hold.
  assert (Hloop : forall w0 : World,
    ida_log w0 = ida_log w -> cout w0 = cout w ->
    m_ida_mem (self w0) = m_ida_mem (self w) ->
    m_constraints (self w0) = Some (constraints_before indeterminate (self w)) ->
    wp (for_each (combine (seq 0 (m_neq (self w))) flags) setConstraints_body ;;
        s <- this ;;
        (if non_null (m_ida_mem s) then
           r <- call ida (IDASetConstraints (m_ida_mem s) (m_constraints s)) ;;
           (if negb (r_flag r =? IDA_SUCCESS)%Z
            then throw "IDA_Solver::setConstraints" "IDASetConstraint failed." []
            else ret tt)
         else ret tt))
       (fun r w' =>
          let stored := Some (map int_to_double flags) in
          let c := IDASetConstraints (m_ida_mem (self w)) stored in
          let flag := r_flag (ida (ida_log w) c) in
          m_constraints (self w') = stored /\
          cout w' = cout w ++ map cflag_line (combine (seq 0 (m_neq (self w))) flags) /\
          (non_null (m_ida_mem (self w)) = false ->
           r = Ok tt /\ ida_log w' = ida_log w) /\
          (non_null (m_ida_mem (self w)) = true ->
           ida_log w' = ida_log w ++ [(c, flag)] /\
           (flag = IDA_SUCCESS ->
            r = Ok tt /\ ida_constraints (ida_log w') = stored) /\
           (flag <> IDA_SUCCESS -> r = Throw constraints_refused_error)))
       w0).
  { intros w0 Hlog Hout Hmem Hc. apply wp_bind. unfold wp at 1.
    rewrite <- Hlen. rewrite (setConstraints_loop_valid flags Hvalid 0 w0).
    cbn [fst snd]. cbv beta iota.
    destruct (store_tags_fields (combine (seq 0 (List.length flags)) flags) (self w0))
      as (Hm & _ & Hcs).
    assert (Hstored : m_constraints
                        (store_tags (combine (seq 0 (List.length flags)) flags) (self w0))
                      = Some (map int_to_double flags)).
    { rewrite Hcs, Hc. rewrite store_tags_result.
      - rewrite skipn_all2, app_nil_r; [reflexivity |].
        unfold constraints_before. destruct (m_constraints (self w)) as [v |] eqn:Hv.
        + rewrite (Hold v eq_refl). lia.
        + rewrite repeat_length. lia.
      - unfold constraints_before. destruct (m_constraints (self w)) as [v |] eqn:Hv.
        + rewrite (Hold v eq_refl). lia.
        + rewrite repeat_length. lia. }
    wp_step. wp_step. cbn [self ida_log cout]. rewrite Hm, Hmem, Hstored, Hlog, Hout.
    destruct (non_null (m_ida_mem (self w))) eqn:Hnn.
    - wp_step. wp_step. cbn [self ida_log cout logged].
      rewrite ?Hlog.
      set (f := r_flag (ida (ida_log w) _)).
      destruct (f =? IDA_SUCCESS)%Z eqn:Hf; cbn [negb]; wp_step; cbv zeta;
        cbn [self ida_log cout logged];
        (split; [exact Hstored |]); (split; [reflexivity |]);
        (split; [discriminate |]); intros _; (split; [reflexivity |]); split.
      + intros _. split; [reflexivity |].
        rewrite ida_constraints_logged. unfold ida_constraints_step.
        fold f. rewrite Hf. reflexivity.
      + intros Hne. apply Z.eqb_eq in Hf. contradiction.
      + intros He. apply Z.eqb_neq in Hf. contradiction.
      + intros _. reflexivity.
    - wp_step. cbv zeta. cbn [self ida_log cout].
      split; [exact Hstored |]. split; [reflexivity |].
      split; [intros _; split; reflexivity | discriminate]. }
  cbv zeta. apply wp_get. unfold setConstraints, when. wp_step. wp_step.
  apply wp_bind.
  destruct (m_constraints (self w)) as [v |] eqn:Hv; cbn [non_null negb]; wp_step;
    cbv beta iota; apply Hloop; world_simpl; try reflexivity.
  - unfold constraints_before. rewrite Hv. reflexivity.
  - unfold constraints_before. rewrite Hv. reflexivity.
Qed.

(** X16: [setConstraint] checks its tag before it touches anything: a tag
    that is no constraint gives its error with the world as it was (the
    whole-vector setter has already stored the tags before the bad one);
    a valid tag at an index inside the vector changes that one cell of the
    stored vector, or of a new, uninitialised one when none was stored, and
    without an engine instance the call returns with no engine call. *)
Theorem setConstraint_validates_before_writing (k : nat) (c : Z) (w : World) :
  (checkFlag c = false ->
   setConstraint ida indeterminate k c w = (Throw invalid_single_constraint_error, w)) /\
  (checkFlag c = true ->
   k < List.length (constraints_before indeterminate (self w)) ->
   let r := setConstraint ida indeterminate k c w in
   m_constraints (self (snd r))
   = Some (NV_set (constraints_before indeterminate (self w)) k (int_to_double c)) /\
   (non_null (m_ida_mem (self w)) = false ->
    fst r = Ok tt /\ ida_log (snd r) = ida_log w)).
Proof.
  split; intros Hc.
  - unfold setConstraint. rewrite Hc. reflexivity.
  - intros _. cbv zeta. unfold setConstraint, when, constraints_before. rewrite Hc.
    unfold bind, this, modify, call, ret, throw. cbn [fst snd self].
    destruct (m_constraints (self w)) as [v |] eqn:Hv; cbn [non_null negb fst snd self];
      simpl; rewrite ?Hv; cbn [store];
      (destruct (non_null (m_ida_mem (self w))) eqn:Hnn; simpl;
       [ match goal with
         | |- context [(?f =? IDA_SUCCESS)%Z] => destruct (f =? IDA_SUCCESS)%Z
         end; simpl; rewrite ?Hv; (split; [reflexivity | discriminate])
       | rewrite ?Hv; split; [reflexivity | intros _; split; reflexivity] ]).
Qed.

(** ** What advancing and reading leave alone *)

Lemma solve_loop_kept (R : World -> World -> Prop) (tout : doublereal) :
  (forall w, R w w) ->
  (forall a b c, R a b -> R b c -> R a c) ->
  preserves R (solve_body ida tout) ->
  (forall text w, R w (printed text w)) ->
  forall (fuel : nat) (tretn : doublereal) (flag : Z) (w : World) (r : result Z) (w' : World),
    solve_loop ida fuel tout tretn flag w = Some (r, w') -> R w w'.
Proof.
  intros Hrefl Htrans Hbody Hprint.
  induction fuel as [| fuel IH]; intros tretn flag w r w' H; cbn [solve_loop] in H.
  - destruct (tretn <? tout)%float; [discriminate |]. injection H as _ <-. apply Hrefl.
  - destruct (tretn <? tout)%float.
    + destruct (tout <=? m_tcurrent (self w))%float.
      * injection H as _ <-. apply Hprint.
      * pose proof (Hbody w) as Hb.
        destruct (solve_body ida tout w) as [[[flag' tretn'] | e] w1]; cbn [snd] in Hb.
        -- exact (Htrans _ _ _ Hb (IH _ _ _ _ _ H)).
        -- injection H as _ <-. exact Hb.
    + injection H as _ <-. apply Hrefl.
Qed.

(** X17: advancing and reading never change what the configuration setters
    record: [step], [solve], [sensitivity], both correctors and
    [quadratureVector] leave it as it was, returning or throwing. *)
Theorem advancing_keeps_configuration (w : World) :
  (forall tout, configured (self (snd (step ida tout w))) = configured (self w)) /\
  (forall fuel tout r w',
      solve ida fuel tout w = Some (r, w') -> configured (self w') = configured (self w)) /\
  (forall k p,
      configured (self (snd (sensitivity ida indeterminate k p w))) = configured (self w)) /\
  (forall proc msg2 icopt y yp tout,
      configured (self (snd (correctInitial ida indeterminate proc msg2 icopt y yp tout w)))
      = configured (self w)) /\
  configured (self (snd (quadratureVector m_resid ida w))) = configured (self w).
Proof.
  set (R := same_on (fun w => configured (self w))).
  split; [| split; [| split; [| split]]].
  - intros tout. revert w. change (preserves R (step ida tout)).
    unfold step, IDASolve_members. cbv zeta. frame_on.
  - intros fuel tout r w' H. unfold solve in H. cbv zeta in H.
    assert (Hstop : preserves R (solve_stop_time ida tout))
      by (unfold solve_stop_time; frame_on).
    assert (Hfinish : forall f, preserves R (solve_finish f))
      by (intros f; unfold solve_finish; frame_on).
    assert (Hbody : preserves R (solve_body ida tout))
      by (unfold solve_body, IDASolve_members; cbv zeta; frame_on).
    pose proof (Hstop w) as H1.
    destruct (solve_stop_time ida tout w) as [[flag0 | e0] w1]; cbn [snd] in H1.
    + destruct (solve_loop ida fuel tout (tout - 1000) flag0 w1)
        as [[[f | e] w2] |] eqn:Hloop; [| | discriminate].
      * pose proof (solve_loop_kept R tout (same_on_refl _) (same_on_trans _) Hbody
                      (fun _ _ => eq_refl) _ _ _ _ _ _ Hloop) as H2.
        pose proof (Hfinish f w2) as H3.
        injection H as H. rewrite H in H3. cbn [snd] in H3.
        exact (same_on_trans _ _ _ _ H1 (same_on_trans _ _ _ _ H2 H3)).
      * pose proof (solve_loop_kept R tout (same_on_refl _) (same_on_trans _) Hbody
                      (fun _ _ => eq_refl) _ _ _ _ _ _ Hloop) as H2.
        injection H as _ <-. exact (same_on_trans _ _ _ _ H1 H2).
    + injection H as _ <-. exact H1.
  - intros k p. revert w. change (preserves R (sensitivity ida indeterminate k p)).
    unfold sensitivity, sensitivity_fetch, when. frame_on.
  - intros proc msg2 icopt y yp tout. revert w.
    change (preserves R (correctInitial ida indeterminate proc msg2 icopt y yp tout)).
    unfold correctInitial. cbv zeta. frame_on.
  - revert w. change (preserves R (quadratureVector m_resid ida)).
    unfold quadratureVector. frame_on.
Qed.

(** ** The sensitivity arrays *)

(** [sensInit], returning, leaves both arrays zeroed, one vector of the
    length of the solution vector per parameter, and the cache invalid. *)
Lemma sensInit_post (t0 : doublereal) (w : World) :
  wp (sensInit m_resid ida indeterminate t0)
     (fun _ w' =>
        let zeros := Some (repeat (repeat 0%float (List.length (NV_DATA_S (m_y (self w)))))
                                  (m_ns (self w))) in
        m_yS (self w') = zeros /\ m_ySdot (self w') = zeros /\
        m_sens_ok (self w') = false)
     w.
Proof.
  assert (Hzero : forall l a,
             fold_left (fun (p : N_Vector_array) (n : nat) => zero_nth p n) l (Some a)
             = Some (fold_left (fun vs n => NV_set vs n (N_VConst 0%float (nth n vs [])))
                               l a)).
  { induction l as [| n l IH]; intros a; [reflexivity |]. cbn [fold_left zero_nth].
    apply IH. }
  assert (Hall : fold_left (fun (p : N_Vector_array) (n : nat) => zero_nth p n)
                           (seq 0 (m_ns (self w)))
                           (N_VCloneVectorArray_Serial indeterminate (m_ns (self w))
                                                       (m_y (self w)))
                 = Some (repeat (repeat 0%float (List.length (NV_DATA_S (m_y (self w)))))
                                (m_ns (self w)))).
  { unfold N_VCloneVectorArray_Serial. rewrite Hzero.
    pose proof (zero_members (repeat indeterminate (List.length (NV_DATA_S (m_y (self w)))))
                             (m_ns (self w)) []) as Hm.
    cbn [List.length app] in Hm. rewrite Hm.
    unfold N_VConst. rewrite map_repeat. reflexivity. }
  unfold sensInit. wp_step. wp_step. wp_step. wp_step. wp_step. wp_step. wp_step.
  wp_step. wp_step. wp_step. wp_step. wp_step. wp_step.
  world_simpl.
  match goal with
  | |- wp _ ?Q ?W =>
      assert (Hstate : m_yS (self W)
                       = Some (repeat (repeat 0%float (List.length (NV_DATA_S (m_y (self w)))))
                                      (m_ns (self w))) /\
                       m_ySdot (self W)
                       = Some (repeat (repeat 0%float (List.length (NV_DATA_S (m_y (self w)))))
                                      (m_ns (self w))) /\
                       m_sens_ok (self W) = false)
  end.
  { world_simpl.
    rewrite (fold_left_field m_yS
               (fun (n : nat) s => set_m_ySdot (zero_nth (m_ySdot s) n) s)
               (fun _ p => p)) by reflexivity.
    rewrite (fold_left_field m_ySdot
               (fun (n : nat) s => set_m_ySdot (zero_nth (m_ySdot s) n) s)
               (fun n p => zero_nth p n)) by reflexivity.
    rewrite (fold_left_field m_sens_ok
               (fun (n : nat) s => set_m_ySdot (zero_nth (m_ySdot s) n) s)
               (fun _ p => p)) by reflexivity.
    rewrite !fold_left_id.
    cbn [m_yS m_ySdot m_sens_ok set_m_ySdot].
    rewrite (fold_left_field m_yS
               (fun (n : nat) s => set_m_yS (zero_nth (m_yS s) n) s)
               (fun n p => zero_nth p n)) by reflexivity.
    rewrite (fold_left_field m_ns
               (fun (n : nat) s => set_m_yS (zero_nth (m_yS s) n) s)
               (fun _ p => p)) by reflexivity.
    rewrite (fold_left_field m_y
               (fun (n : nat) s => set_m_yS (zero_nth (m_yS s) n) s)
               (fun _ p => p)) by reflexivity.
    rewrite (fold_left_field m_sens_ok
               (fun (n : nat) s => set_m_yS (zero_nth (m_yS s) n) s)
               (fun _ p => p)) by reflexivity.
    rewrite !fold_left_id.
    cbn [m_yS m_ySdot m_sens_ok m_ns m_y set_m_yS set_m_sens_ok].
    rewrite Hall. repeat split. }
  wp_step. wp_step. wp_step.
  match goal with |- wp (if ?b then _ else _) _ _ => destruct b end;
    cbv zeta; wp_run; cbv zeta; world_simpl; exact Hstate.
Qed.

Lemma init_parts_keep_solution :
  let R := same_on (fun w => m_y (self w)) in
  preserves R (init_engine ida) /\
  preserves R (init_tolerances ida) /\
  preserves R (init_linear_solver ida).
Proof. cbv zeta. repeat split; unfold_init; frame_on. Qed.

Lemma init_parts_keep_sensitivities :
  let R := same_on (fun w => (m_yS (self w), m_ySdot (self w), m_sens_ok (self w))) in
  preserves R (init_options ida) /\
  preserves R (init_constraints m_resid ida) /\
  preserves R (init_quadrature m_resid ida).
Proof. cbv zeta. repeat split; unfold_init; frame_on. Qed.

(** X18: when [init] returns on an adapter with sensitivity parameters and
    a provider that fills the [m_neq] cells it is given, both sensitivity
    arrays hold one vector of [m_neq] zeros per parameter and the
    sensitivity cache is invalid, so the first [sensitivity] call fetches
    from the engine. *)
Theorem init_zeroes_sensitivities (t0 : doublereal) (w w' : World) :
  init m_resid ida indeterminate t0 w = (Ok tt, w') ->
  0 < m_ns (self w) ->
  List.length (fst (initial_conditions m_resid t0 (m_neq (self w)))) = m_neq (self w) ->
  let zeros := Some (repeat (repeat 0%float (m_neq (self w))) (m_ns (self w))) in
  m_yS (self w') = zeros /\ m_ySdot (self w') = zeros /\ m_sens_ok (self w') = false.
Proof.
  intros H Hns Hlen. apply init_returns_phases in H.
  destruct H as [wa [wb [wc [wd [we [wf [wg [Ha [Hb [Hc [Hd [He [Hf [Hg Hq]]]]]]]]]]]]]].
  destruct (init_parts_keep_configuration t0) as [Ka [Kb [Kc [Kd _]]]].
  destruct init_parts_keep_solution as [Yb [Yc Yd]].
  destruct init_parts_keep_sensitivities as [Sf [Sg Sq]].
  cbv zeta in *.
  assert (Hcfg : configured (self wd) = configured (self w)).
  { rewrite (kept_at Kd Hd), (kept_at Kc Hc), (kept_at Kb Hb). exact (kept_at Ka Ha). }
  assert (Hnsd : m_ns (self wd) = m_ns (self w)) by exact (f_equal cfg_ns Hcfg).
  assert (Hy : m_y (self wd) = Some (fst (initial_conditions m_resid t0 (m_neq (self w))))).
  { rewrite (kept_at Yd Hd), (kept_at Yc Hc), (kept_at Yb Hb).
    exact (proj1 (wp_read (init_vectors_solution t0 w) Ha)). }
  assert (Hkeep : (m_yS (self w'), m_ySdot (self w'), m_sens_ok (self w'))
                  = (m_yS (self we), m_ySdot (self we), m_sens_ok (self we))).
  { rewrite (kept_at Sq Hq), (kept_at Sg Hg). exact (kept_at Sf Hf). }
  injection Hkeep as -> -> ->.
  unfold init_sensitivity in He.
  apply bind_inv_Ok in He. destruct He as [s [w0 [Hthis He]]].
  unfold this in Hthis. injection Hthis as <- <-.
  rewrite Hnsd in He. apply Nat.ltb_lt in Hns. rewrite Hns in He.
  apply bind_inv_Ok in He. destruct He as [[] [w1 [Hs He]]].
  pose proof (wp_read (sensInit_post t0 wd) Hs) as Hpost. cbv zeta in Hpost.
  rewrite Hy, Hnsd in Hpost. cbn [NV_DATA_S] in Hpost. rewrite Hlen in Hpost.
  assert (Hself : self we = self w1).
  { unfold bind, this, call, throw, ret in He.
    destruct (negb _) in He; [discriminate |]. injection He as <-. reflexivity. }
  rewrite Hself. exact Hpost.
Qed.

End AdapterMore.

(** * Further concrete runs *)

(** X5 at a concrete input: a fresh adapter records only the step limit
    20000 in range, and that is the one option the engine holds after
    [init(1.0)]. *)
Lemma init_pushes_options_in_range_witness :
  let e := engine 0 1.5%float in
  ida_options_held (ida_log (started e)) = options_in_range (self (fresh 1)) /\
  opt_maxsteps (options_in_range (self (fresh 1))) = Some 20000%Z.
Proof.
  intros e. split; [| reflexivity].
  apply (init_pushes_options_in_range (provider 1) e 7%float 1%float (fresh 1) (started e)).
  vm_compute. reflexivity.
Defined.

(** X6 at a concrete input: a fresh adapter is in scalar mode, and [init]
    hands the engine the default pair. *)
Lemma init_pushes_recorded_tolerances_witness :
  let e := engine 0 1.5%float in
  ida_held sel_tolerances (ida_log (started e))
  = Some (recorded_tolerances (self (fresh 1))).
Proof.
  intros e.
  apply (init_pushes_recorded_tolerances (provider 1) e 7%float 1%float (fresh 1)
                                         (started e)).
  vm_compute. reflexivity.
Defined.

(** X7 at a concrete input: linear solver type 5. *)
Lemma init_rejects_unknown_solver_type_witness :
  let e := engine 0 1.5%float in
  exists err,
    fst (init (provider 1) e 7%float 1%float (after (setLinearSolverType 5) (fresh 1)))
    = Throw err.
Proof.
  intros e.
  apply (init_rejects_unknown_solver_type (provider 1) e 7%float 1%float
           (after (setLinearSolverType 5) (fresh 1)));
    vm_compute; discriminate.
Defined.

(** X8 at a concrete input: from time 1, [solve(2.0)] on an engine whose
    advance reaches 2.5. *)
Lemma solve_returns_on_target_witness :
  let e := engine 0 2.5%float in
  exists w',
    solve e 3 2%float (started e) = Some (Ok IDA_SUCCESS, w') /\
    m_sens_ok (self w') = false /\
    (m_tcurrent (self w') <? 2)%float = false.
Proof.
  intros e. eexists. split; [vm_compute; reflexivity |].
  match goal with
  | |- m_sens_ok (self ?w') = false /\ _ =>
      pose proof (solve_returns_on_target e 3 2%float (started e) (Ok IDA_SUCCESS) w') as H
  end.
  cbv beta iota in H.
  destruct H as [_ [Hs Ht]]; [vm_compute; reflexivity |].
  split; [exact Hs | apply Ht; vm_compute; reflexivity].
Defined.

(** X9 at a concrete input: the target 1e20, from time 1. *)
Lemma solve_target_beyond_resolution_witness :
  let e := engine 0 1.5%float in
  exists w',
    solve e 0 1e20%float (started e) = Some (Ok IDA_SUCCESS, w') /\
    advances (ida_log w') = advances (ida_log (started e)) /\
    m_tcurrent (self w') = 1%float.
Proof.
  intros e.
  assert (Hres : (1e20 - 1000 <? 1e20)%float = false) by (vm_compute; reflexivity).
  assert (Hacc : r_flag (e (ida_log (started e))
                   (IDASetStopTime (m_ida_mem (self (started e))) 1e20%float)) = IDA_SUCCESS)
    by (vm_compute; reflexivity).
  destruct (solve_target_beyond_resolution e 0 1e20%float (started e) Hres Hacc)
    as (w' & Hrun & Hadv & Ht & _).
  exists w'. split; [exact Hrun | split; [exact Hadv |]].
  rewrite Ht. vm_compute. reflexivity.
Defined.


(** X11 at a concrete input: the engine answers the advance of [step(2.0)]
    with -1. *)
Lemma step_failure_after_advance_witness :
  let e := engine (-1) 1.5%float in
  let r := step e 2%float (started e) in
  fst r = Throw step_engine_error /\
  m_told (self (snd r)) = m_tcurrent (self (started e)) /\
  m_tcurrent (self (snd r)) = m_tcurrent (self (started e)).
Proof.
  intros e r.
  assert (Hle : (2 <=? m_tcurrent (self (started e)))%float = false)
    by (vm_compute; reflexivity).
  assert (Hrun : step e 2%float (started e) = (Throw step_engine_error, snd r))
    by (vm_compute; reflexivity).
  destruct (step_failure_after_advance e 2%float (started e) (snd r) step_engine_error
              Hle Hrun) as (_ & _ & Hold & Hcur & _).
  split; [vm_compute; reflexivity | split; [exact Hold | exact Hcur]].
Defined.

(** X12 at a concrete input: two calls of [sensitivity(0, 0)] after
    [init(1.0)]. *)
Lemma sensitivity_second_call_cached_witness :
  let e := engine 0 1.5%float in
  let r := sensitivity e 7%float 0 0 (started e) in
  sensitivity e 7%float 0 0 (snd r) = (Ok 0%float, snd r).
Proof.
  intros e r.
  apply (proj2 (sensitivity_second_call_cached e 7%float 0 0 (started e) (snd r) 0%float
                  ltac:(vm_compute; reflexivity))).
Defined.

(** X13 at a concrete input: an adapter of two equations without
    parameters. *)
Lemma sensitivity_without_parameters_witness :
  let e := engine 0 1.5%float in
  sensitivity e 7%float 0 0 (fresh 0) = (Throw (parameter_range_error 0), fresh 0).
Proof.
  intros e.
  exact (sensitivity_without_parameters e 7%float 0 0 (fresh 0) eq_refl).
Defined.

(** X14 at a concrete input: the corrector for a given derivative, after
    [init(1.0)], on an engine that computes [[1; 0]] and [[0; 0]]. *)
Lemma correctInitial_outcomes_witness :
  let e := engine 0 1.5%float in
  exists w',
    correctInitial_Y_given_Yp e 7%float [0%float; 0%float] [0%float; 0%float] 0%float
                              (started e)
    = (Ok ([1%float; 0%float], [0%float; 0%float]), w').
Proof.
  intros e.
  destruct (proj2 (correctInitial_outcomes e 7%float
                     "IDA_Solver::correctInitial_Y_given_Yp"
                     "IDAGetSolution failed: error = {}" IDA_Y_INIT
                     [0%float; 0%float] [0%float; 0%float] 0%float (started e)))
    as (w' & Hrun & _); try (vm_compute; reflexivity).
  exists w'. exact Hrun.
Defined.

(** X15 at a concrete input: the tags [>= 0, none] on a fresh adapter. *)
Lemma setConstraints_valid_tags_witness :
  let e := engine 0 1.5%float in
  let r := setConstraints e 7%float [c_GE_ZERO; c_NONE] (fresh 1) in
  m_constraints (self (snd r)) = Some [1%float; 0%float] /\
  fst r = Ok tt.
Proof.
  intros e r.
  assert (Hold : forall v, m_constraints (self (fresh 1)) = Some v ->
                           List.length v = m_neq (self (fresh 1)))
    by (intros v Hv; vm_compute in Hv; discriminate).
  destruct (setConstraints_valid_tags e 7%float [c_GE_ZERO; c_NONE] (fresh 1)
              eq_refl eq_refl Hold) as (Hstored & _ & Hnone & _).
  split; [exact Hstored | exact (proj1 (Hnone eq_refl))].
Defined.

(** X16 at a concrete input: after [init(1.0)] the tag 5 is refused and
    the tag [>= 0] is stored in cell 1. *)
Lemma setConstraint_validates_before_writing_witness :
  let e := engine 0 1.5%float in
  setConstraint e 7%float 0 5 (started e)
  = (Throw invalid_single_constraint_error, started e) /\
  m_constraints (self (snd (setConstraint e 7%float 1 c_GE_ZERO (started e))))
  = Some [0%float; 1%float].
Proof.
  intros e.
  destruct (setConstraint_validates_before_writing e 7%float 0 5 (started e))
    as [Hbad _].
  destruct (setConstraint_validates_before_writing e 7%float 1 c_GE_ZERO (started e))
    as [_ Hgood].
  split; [exact (Hbad eq_refl) |].
  assert (Hk : 1 < List.length (constraints_before 7%float (self (started e))))
    by (vm_compute; lia).
  destruct (Hgood eq_refl Hk) as [Hstored _].
  rewrite Hstored. vm_compute. reflexivity.
Defined.

(** X18 at a concrete input: two equations and one parameter. *)
Lemma init_zeroes_sensitivities_witness :
  let e := engine 0 1.5%float in
  m_yS (self (started e)) = Some [[0%float; 0%float]] /\
  m_ySdot (self (started e)) = Some [[0%float; 0%float]] /\
  m_sens_ok (self (started e)) = false.
Proof.
  intros e.
  apply (init_zeroes_sensitivities (provider 1) e 7%float 1%float (fresh 1) (started e));
    vm_compute; first [reflexivity | lia].
Defined.
